(** * Population plan-score evaluation: a shallow embedding

    The development follows [src/plan_score_pipeline.py] and
    [scripts/step3_stability_experiment.py].

    Conventions of the embedding.
    - A Python [str] is a [string] whose characters are the code points
      below 256; [str.lower], [str.strip] and [str.split] are written out for
      that alphabet.
    - A Python [float] that takes part in comparisons or in the weighted mean
      is a rational [Q]: every finite binary64 value is a rational, its
      comparisons are exact, and the arithmetic is taken without rounding.
      Infinities and NaN are outside this part of the model, except that the
      NaN returned by [compute_percentile] on an empty array is kept as an
      explicit constructor.
    - The plateau estimate [estimate_n_star] needs square roots and is
      embedded over the primitive binary64 floats, which is what numpy
      computes with.
    - A Python [dict] that is only looked up is a [gmap]; a dict whose
      iteration order is observable is an association list in insertion
      order.
    - A call that can raise returns a [res]. *)

From Stdlib Require Import ZArith QArith Qround Lqa Lia Ascii String List Floats.
From stdpp Require Import base option list strings gmap pretty.

Local Open Scope Z_scope.

(** ** Python values and outcomes *)

Inductive exn : Set :=
  | OverflowError
  | ValueError
  | TypeError
  | ZeroDivisionError
  | IndexError.

Inductive res (A : Type) : Type :=
  | Ok (a : A)
  | Raise (e : exn).
Arguments Ok {A} a.
Arguments Raise {A} e.

Definition res_bind {A B : Type} (m : res A) (k : A -> res B) : res B :=
  match m with
  | Ok a => k a
  | Raise e => Raise e
  end.

(** A scalar as it arrives from a stored document.  [VOther] stands for every
    value that is neither [None], a [bool], an [int], a [float] nor a [str]. *)
Inductive pyval : Type :=
  | VNone
  | VBool (b : bool)
  | VInt (z : Z)
  | VFloat (x : Q)
  | VStr (s : string)
  | VOther.

(** ** Strings *)

Definition code (c : ascii) : nat := nat_of_ascii c.

(** [str.isspace] on the code points below 256. *)
Definition is_space (c : ascii) : bool :=
  let n := code c in
  ((9 <=? n)%nat && (n <=? 13)%nat)
  || ((28 <=? n)%nat && (n <=? 32)%nat)
  || (n =? 133)%nat || (n =? 160)%nat.

(** [str.lower] on one code point below 256. *)
Definition lower_char (c : ascii) : ascii :=
  let n := code c in
  if ((65 <=? n)%nat && (n <=? 90)%nat)
     || ((192 <=? n)%nat && (n <=? 222)%nat && negb (n =? 215)%nat)
  then ascii_of_nat (n + 32)
  else c.

(** The class [[A-Za-z0-9]] of the regular expressions. *)
Definition is_alnum (c : ascii) : bool :=
  let n := code c in
  ((48 <=? n)%nat && (n <=? 57)%nat)
  || ((65 <=? n)%nat && (n <=? 90)%nat)
  || ((97 <=? n)%nat && (n <=? 122)%nat).

Definition chars := list ascii.

Definition lower (l : chars) : chars := map lower_char l.

Fixpoint lstrip (l : chars) : chars :=
  match l with
  | [] => []
  | c :: l' => if is_space c then lstrip l' else l
  end.

Definition rstrip (l : chars) : chars := rev (lstrip (rev l)).

Definition strip (l : chars) : chars := rstrip (lstrip l).

(** Maximal runs of characters that satisfy [keep]; the empty pieces are
    dropped.  [str.split()] is [runs] of the non-space characters, and
    [tokenize] is [runs] of the alphanumeric ones. *)
Fixpoint runs (keep : ascii -> bool) (l : chars) : list chars :=
  match l with
  | [] => []
  | c :: l' =>
      if keep c then
        match l' with
        | [] => [[c]]
        | d :: _ =>
            if keep d then
              match runs keep l' with
              | w :: ws => (c :: w) :: ws
              | [] => [[c]]
              end
            else [c] :: runs keep l'
        end
      else runs keep l'
  end.

Definition split_ws (l : chars) : list chars := runs (fun c => negb (is_space c)) l.

Fixpoint join (sep : chars) (ws : list chars) : chars :=
  match ws with
  | [] => []
  | [w] => w
  | w :: ws' => w ++ sep ++ join sep ws'
  end.

Definition space : ascii := " "%char.

Definition to_chars (s : string) : chars := list_ascii_of_string s.
Definition of_chars (l : chars) : string := string_of_list_ascii l.

Definition py_strip (s : string) : string := of_chars (strip (to_chars s)).
Definition py_lower (s : string) : string := of_chars (lower (to_chars s)).

(** Python truthiness of an optional string: [None] and [""] are falsy. *)
Definition truthy (o : option string) : bool :=
  match o with
  | Some s => negb (String.eqb s "")
  | None => false
  end.

(** [a or b] on optional strings. *)
Definition py_or (a b : option string) : option string :=
  if truthy a then a else b.

(** [normalize_text]: [None] for [None], otherwise
    [" ".join(value.strip().lower().split())]. *)
Definition normalize_chars (l : chars) : chars :=
  join [space] (split_ws (lower (strip l))).

Definition normalize_text (value : option string) : option string :=
  match value with
  | None => None
  | Some v => Some (of_chars (normalize_chars (to_chars v)))
  end.

(** [normalize_operator]: the four comparison symbols are kept, any other
    text is lower-cased, both after [strip]. *)
Definition comparison_ops : list string := ["<="; "<"; ">="; ">"].
Definition LOWER_BETTER_OPS : list string := ["<="; "<"].
Definition HIGHER_BETTER_OPS : list string := [">="; ">"].

Definition str_in (s : string) (l : list string) : bool := existsb (String.eqb s) l.

Definition normalize_operator (value : option string) : option string :=
  match value with
  | None => None
  | Some v =>
      let v := py_strip v in
      if str_in v comparison_ops then Some v else Some (py_lower v)
  end.

Definition direction_from_operator (operator : option string) : option string :=
  if negb (truthy operator) then None
  else match operator with
       | Some op =>
           if str_in op LOWER_BETTER_OPS then Some "lower"
           else if str_in op HIGHER_BETTER_OPS then Some "higher"
           else None
       | None => None
       end.

(** [tokenize]: [re.split(r"[^A-Za-z0-9]+", value.lower())] without the empty
    pieces. *)
Definition tokenize (value : string) : list string :=
  map of_chars (runs is_alnum (lower (to_chars value))).

(** ** Numbers *)

(** [float(z)] on an [int] raises [OverflowError] once [z] rounds beyond the
    largest binary64 value, that is from [2^1024 - 2^970] on. *)
Definition float_overflow_bound : Z := 2 ^ 1024 - 2 ^ 970.

Definition float_of_int (z : Z) : res Q :=
  if Z.abs z <? float_overflow_bound then Ok (inject_Z z) else Raise OverflowError.

(** [int(x)] on a finite float truncates toward zero. *)
Definition int_of_float (x : Q) : Z := Z.quot (Qnum x) (Zpos (Qden x)).

Definition Qltb (x y : Q) : bool := negb (Qle_bool y x).

(** A float result that may be NaN. *)
Inductive pfloat : Type :=
  | PNum (q : Q)
  | PNaN.

Definition pf_add (a b : pfloat) : pfloat :=
  match a, b with
  | PNum x, PNum y => PNum (x + y)
  | _, _ => PNaN
  end.

Definition pf_scale (w : Q) (p : pfloat) : pfloat :=
  match p with
  | PNum x => PNum (w * x)
  | PNaN => PNaN
  end.

Definition pf_div (a : pfloat) (d : Q) : pfloat :=
  match a with
  | PNum x => PNum (x / d)
  | PNaN => PNaN
  end.

(** ** Documents *)

(** A [goal] or [variation] sub-document. *)
Record bound_doc : Type := {
  b_operator : option string;
  b_value : pyval;
}.

Definition empty_bound : bound_doc := {| b_operator := None; b_value := VNone |}.

(** The [metric] and [achieved] sub-documents. *)
Record metric_doc : Type := { md_display : option string }.
Record achieved_doc : Type := { a_value : pyval }.

(** One result record of a plan.  A sub-document that is missing or empty is
    [None]; the code reads it through [x.get(...) or {}]. *)
Record result : Type := {
  r_metric : option metric_doc;
  r_objective : option string;
  r_structure_tg263 : option string;
  r_structure : option string;
  r_priority : pyval;
  r_goal : option bound_doc;
  r_variation : option bound_doc;
  r_achieved : option achieved_doc;
}.

(** A protocol constraint as the dictionary builders emit it. *)
Record constraint : Type := {
  c_structure : option string;
  c_metric_display : option string;
  c_priority : pyval;
  c_goal_operator : option string;
  c_goal_value : option Q;
  c_variation_operator : option string;
  c_variation_value : option Q;
}.

(** The metadata kept per constraint key. *)
Record meta : Type := {
  m_structure : option string;
  m_metric_display : option string;
  m_goal_operator : option string;
  m_goal_value : option Q;
  m_variation_operator : option string;
  m_variation_value : option Q;
  m_priority : option Z;
}.

Definition key7 : Type :=
  option string * option string * option string * option Q
  * option string * option Q * option Z.

Definition constraint_key
    (structure metric_display goal_operator : option string) (goal_value : option Q)
    (variation_operator : option string) (variation_value : option Q)
    (priority : option Z) : key7 :=
  (normalize_text structure, normalize_text metric_display,
   normalize_operator goal_operator, goal_value,
   normalize_operator variation_operator, variation_value, priority).

(** The plan-constraint vector of one plan.  A column of them is a list of
    optional vectors, where a cell that is not a dict is [None]. *)
Abbreviation plan_vector := (gmap string Q).

(** A reference. *)

Record reference : Type := {
  constraint_meta : gmap string meta;
  distributions : gmap string (list Q);
  directions : gmap string string;
  weights : gmap string Q;
}.

(** ** Sorting and searching, as numpy does them *)

Fixpoint insert_sorted (x : Q) (l : list Q) : list Q :=
  match l with
  | [] => [x]
  | y :: l' => if Qle_bool x y then x :: l else y :: insert_sorted x l'
  end.

(** [np.sort] on a float array without NaN. *)
Definition np_sort (l : list Q) : list Q := fold_right insert_sorted [] l.

(** [np.searchsorted(a, v, side="right")]: the bisection numpy runs, which
    keeps [lo] below and [hi] above the answer. *)
Fixpoint bisect_right (fuel : nat) (a : list Q) (v : Q) (lo hi : nat) : nat :=
  match fuel with
  | O => lo
  | S fuel' =>
      if (lo <? hi)%nat then
        let mid := (lo + (hi - lo) / 2)%nat in
        if Qltb v (nth mid a 0%Q)
        then bisect_right fuel' a v lo mid
        else bisect_right fuel' a v (S mid) hi
      else lo
  end.

Definition searchsorted_right (a : list Q) (v : Q) : nat :=
  bisect_right (length a) a v 0 (length a).

(** ** Percentile scorer *)

Definition compute_percentile (value : Q) (sorted_values : list Q) (direction : string)
    : pfloat :=
  let n := Z.of_nat (length sorted_values) in
  if n =? 0 then PNaN
  else
    let base :=
      if n =? 1 then 1%Q
      else
        let rank := Z.of_nat (searchsorted_right sorted_values value) in
        let rank := if rank <? 1 then 1 else rank in
        let rank := if n <? rank then n else rank in
        (inject_Z (rank - 1) / inject_Z (n - 1))%Q in
    if String.eqb direction "lower" then PNum (1 - base)%Q else PNum base.

(** The loop body of [compute_plan_score] on the pair
    [(total_weight, total_score)]. *)
Definition score_step (dists : gmap string (list Q)) (dirs : gmap string string)
    (ws : gmap string Q) (acc : Q * pfloat) (kv : string * Q) : Q * pfloat :=
  match dists !! kv.1, dirs !! kv.1, ws !! kv.1 with
  | Some dist, Some direction, Some weight =>
      let percentile := compute_percentile kv.2 dist direction in
      ((acc.1 + weight)%Q, pf_add acc.2 (pf_scale weight percentile))
  | _, _, _ => acc
  end.

Definition score_loop (dists : gmap string (list Q)) (dirs : gmap string string)
    (ws : gmap string Q) (items : list (string * Q)) : Q * pfloat :=
  fold_left (score_step dists dirs ws) items (0%Q, PNum 0%Q).

Definition compute_plan_score (plan_constraints : plan_vector)
    (dists : gmap string (list Q)) (dirs : gmap string string) (ws : gmap string Q)
    : option pfloat :=
  let '(total_weight, total_score) :=
    score_loop dists dirs ws (map_to_list plan_constraints) in
  if Qeq_bool total_weight 0 then None
  else Some (pf_div total_score total_weight).

Definition score_plan_constraints_df (column : list (option plan_vector))
    (ref : reference) : list (option pfloat) :=
  map (fun cell =>
         match cell with
         | None => None
         | Some plan_constraints =>
             compute_plan_score plan_constraints (distributions ref)
               (directions ref) (weights ref)
         end) column.

(** ** Structure resolver *)

(** A dict in insertion order: [get] and item assignment. *)
Fixpoint dict_get {A : Type} (k : string) (d : list (string * A)) : option A :=
  match d with
  | [] => None
  | (k', v) :: d' => if String.eqb k k' then Some v else dict_get k d'
  end.

Fixpoint dict_set {A : Type} (k : string) (v : A) (d : list (string * A))
    : list (string * A) :=
  match d with
  | [] => [(k, v)]
  | (k', v') :: d' =>
      if String.eqb k k' then (k, v) :: d' else (k', v') :: dict_set k v d'
  end.

Definition token_set (s : string) : gset string := list_to_set (tokenize s).

(** True division of two ints. *)
Definition py_div (a b : Z) : res Q :=
  if b =? 0 then Raise ZeroDivisionError else Ok (inject_Z a / inject_Z b)%Q.

(** The overlap ratio computed in the fuzzy loop. *)
Definition overlap_score (raw_tokens target_tokens : gset string) : res Q :=
  py_div (Z.of_nat (size (raw_tokens ∩ target_tokens)))
         (Z.max (Z.of_nat (size raw_tokens)) (Z.of_nat (size target_tokens))).

(** One iteration of the fuzzy loop on [(best_match, best_score)]. *)
Definition fuzzy_step (raw_tokens : gset string)
    (acc : res (option string * Q)) (item : string * string)
    : res (option string * Q) :=
  res_bind acc (fun best =>
    let target_tokens := token_set item.2 in
    if (size target_tokens =? 0)%nat then Ok best
    else
      res_bind (overlap_score raw_tokens target_tokens) (fun score =>
        if Qltb best.2 score then Ok (Some item.2, score) else Ok best)).

Definition fuzzy_loop (raw_tokens : gset string) (items : list (string * string))
    : res (option string * Q) :=
  fold_left (fuzzy_step raw_tokens) items (Ok (None, 0%Q)).

Definition resolve_structure (raw_name : option string)
    (alias_map : gmap string string) (protocol_structure_map : list (string * string))
    : res (option string) :=
  if negb (truthy raw_name) then Ok None
  else
    let normalized := normalize_text raw_name in
    if negb (truthy normalized) then Ok None
    else
      let alias := normalized ≫= (fun k => alias_map !! k) in
      if truthy alias then Ok alias
      else
        let direct := normalized ≫= (fun k => dict_get k protocol_structure_map) in
        if truthy direct then Ok direct
        else
          let raw_tokens := token_set (default "" raw_name) in
          if (size raw_tokens =? 0)%nat then Ok None
          else
            res_bind (fuzzy_loop raw_tokens protocol_structure_map) (fun best =>
              if truthy best.1 && Qltb 0 best.2 then Ok best.1 else Ok None).

Section Pipeline.

(** Python's own conversions, not part of the repository: [float(s)] and
    [int(s)] on a string ([None] when they raise [ValueError]) and [str(x)]
    on a float. *)
Variable float_of_string : string -> option Q.
Variable int_of_string : string -> option Z.
Variable float_str : Q -> string.

Definition parse_numeric (value : pyval) : res (option Q) :=
  match value with
  | VNone => Ok None
  | VBool _ => Ok None
  | VInt z => res_bind (float_of_int z) (fun x => Ok (Some x))
  | VFloat x => Ok (Some x)
  | VStr s =>
      let cleaned := py_strip s in
      if String.eqb cleaned "" then Ok None else Ok (float_of_string cleaned)
  | VOther => Ok None
  end.

(** [int(priority) if priority is not None else None] under
    [except (TypeError, ValueError)]. *)
Definition priority_int (priority : pyval) : option Z :=
  match priority with
  | VNone => None
  | VBool b => Some (if b then 1 else 0)
  | VInt z => Some z
  | VFloat x => Some (int_of_float x)
  | VStr s => int_of_string s
  | VOther => None
  end.

Definition key_parts (key : key7) : list string :=
  let '(structure, metric, goal_op, goal_value, var_op, var_value, priority) := key in
  [ default "" structure; default "" metric; default "" goal_op;
    from_option float_str "" goal_value; default "" var_op;
    from_option float_str "" var_value; from_option pretty "" priority ].

Definition constraint_key_to_str (key : key7) : string :=
  String.concat "||" (key_parts key).

(** *** Constraint dictionary *)

Definition constraint_key_str (c : constraint) : string :=
  constraint_key_to_str
    (constraint_key (c_structure c) (c_metric_display c) (c_goal_operator c)
       (c_goal_value c) (c_variation_operator c) (c_variation_value c)
       (priority_int (c_priority c))).

Definition constraint_meta_of (c : constraint) : meta :=
  {| m_structure := c_structure c;
     m_metric_display := c_metric_display c;
     m_goal_operator := normalize_operator (c_goal_operator c);
     m_goal_value := c_goal_value c;
     m_variation_operator := normalize_operator (c_variation_operator c);
     m_variation_value := c_variation_value c;
     m_priority := priority_int (c_priority c) |}.

Definition build_constraint_lookup (constraints : list constraint) : gmap string meta :=
  fold_left
    (fun lookup c =>
       let key_str := constraint_key_str c in
       match lookup !! key_str with
       | Some _ => lookup
       | None => <[key_str := constraint_meta_of c]> lookup
       end)
    constraints ∅.

Definition build_protocol_structure_map (constraints : list constraint)
    : list (string * string) :=
  fold_left
    (fun structure_map c =>
       match normalize_text (c_structure c), c_structure c with
       | Some norm, Some structure =>
           if String.eqb norm "" then structure_map
           else dict_set norm structure structure_map
       | _, _ => structure_map
       end)
    constraints [].

(** One iteration of the loop of [build_constraint_context] on the pair
    [(directions, weights)]; the weight is [1.0 / float(priority)]. *)
Definition context_step (acc : res (gmap string string * gmap string Q))
    (item : string * meta) : res (gmap string string * gmap string Q) :=
  res_bind acc (fun dw =>
    match direction_from_operator (m_goal_operator item.2) with
    | None => Ok dw
    | Some direction =>
        let directions := <[item.1 := direction]> dw.1 in
        match m_priority item.2 with
        | Some priority =>
            if 0 <? priority then
              res_bind (float_of_int priority) (fun p =>
                Ok (directions, <[item.1 := (1 / p)%Q]> dw.2))
            else Ok (directions, dw.2)
        | None => Ok (directions, dw.2)
        end
    end).

Definition build_constraint_context (constraints : list constraint)
    : res (gmap string meta * list (string * string)
           * gmap string string * gmap string Q) :=
  let constraint_lookup := build_constraint_lookup constraints in
  let protocol_structure_map := build_protocol_structure_map constraints in
  res_bind (fold_left context_step (map_to_list constraint_lookup) (Ok (∅, ∅)))
    (fun dw => Ok (constraint_lookup, protocol_structure_map, dw.1, dw.2)).

(** *** Population reference *)

Definition pool_plan (dists : gmap string (list Q)) (plan : plan_vector)
    : gmap string (list Q) :=
  fold_left
    (fun d kv =>
       match d !! kv.1 with
       | Some values => <[kv.1 := values ++ [kv.2]]> d
       | None => d
       end)
    (map_to_list plan) dists.

Definition pool_column (column : list (option plan_vector))
    (dists : gmap string (list Q)) : gmap string (list Q) :=
  fold_left
    (fun d cell => match cell with Some plan => pool_plan d plan | None => d end)
    column dists.

Definition build_reference_from_plan_constraints
    (column : list (option plan_vector)) (constraint_lookup : gmap string meta)
    (dirs : gmap string string) (ws : gmap string Q) : reference :=
  let dists := pool_column column ((fun _ => []) <$> constraint_lookup) in
  let sorted_distributions :=
    omap (fun values => match values with [] => None | _ => Some (np_sort values) end)
         dists in
  {| constraint_meta := constraint_lookup;
     distributions := sorted_distributions;
     directions := dirs;
     weights := ws |}.

(** *** Plan constraint extractor *)

(** The key string that the loop body builds for one result record. *)
Definition result_key_str (alias_map : gmap string string)
    (protocol_structure_map : list (string * string)) (r : result) : res string :=
  let metric_display := py_or (r_metric r ≫= md_display) (r_objective r) in
  let raw_structure := py_or (r_structure_tg263 r) (r_structure r) in
  res_bind (resolve_structure raw_structure alias_map protocol_structure_map)
    (fun structure =>
  let priority_value := priority_int (r_priority r) in
  let goal := default empty_bound (r_goal r) in
  let variation := default empty_bound (r_variation r) in
  res_bind (parse_numeric (b_value goal)) (fun goal_value =>
  res_bind (parse_numeric (b_value variation)) (fun variation_value =>
    Ok (constraint_key_to_str
          (constraint_key structure metric_display (b_operator goal) goal_value
             (b_operator variation) variation_value priority_value))))).

Definition achieved_raw (r : result) : pyval := from_option a_value VNone (r_achieved r).

Definition extract_step (constraint_lookup : gmap string meta)
    (alias_map : gmap string string) (protocol_structure_map : list (string * string))
    (acc : res plan_vector) (r : result) : res plan_vector :=
  res_bind acc (fun matched =>
  res_bind (result_key_str alias_map protocol_structure_map r) (fun key_str =>
    match constraint_lookup !! key_str with
    | None => Ok matched
    | Some _ =>
        res_bind (parse_numeric (achieved_raw r)) (fun achieved_value =>
          match achieved_value with
          | None => Ok matched
          | Some v =>
              match matched !! key_str with
              | Some _ => Ok matched
              | None => Ok (<[key_str := v]> matched)
              end
          end)
    end)).

Definition extract_plan_constraints (results : option (list result))
    (constraint_lookup : gmap string meta) (alias_map : gmap string string)
    (protocol_structure_map : list (string * string)) : res plan_vector :=
  match results with
  | None => Ok ∅
  | Some iterable =>
      fold_left (extract_step constraint_lookup alias_map protocol_structure_map)
        iterable (Ok ∅)
  end.

(** The reference of a protocol, as [main] builds it: the context of the
    protocol's constraints, then the pooled distributions of a column of
    plan vectors. *)
Definition protocol_reference (constraints : list constraint)
    (column : list (option plan_vector)) : res reference :=
  res_bind (build_constraint_context constraints) (fun context =>
    Ok (build_reference_from_plan_constraints column
          context.1.1.1 context.1.2 context.2)).

End Pipeline.

(** ** Stability experiment: the bootstrap loop *)

(** A row of [train_df] or [test_df]: its constraint vector and its score
    under the full-population reference. *)
Record plan_row : Type := {
  row_constraints : option plan_vector;
  row_score_full : option pfloat;
}.

Record stability_record (M : Type) : Type := {
  rec_N : Z;
  rec_bootstrap_id : Z;
  rec_train_size : Z;
  rec_test_size : Z;
  rec_valid_plans : Z;
  rec_metrics : M;
}.
Arguments rec_N {M} _.
Arguments rec_bootstrap_id {M} _.
Arguments rec_train_size {M} _.
Arguments rec_test_size {M} _.
Arguments rec_valid_plans {M} _.
Arguments rec_metrics {M} _.

(** [Series.notna]: neither [None] nor NaN. *)
Definition notna (score : option pfloat) : bool :=
  match score with
  | Some (PNum _) => true
  | _ => false
  end.

Definition count_true (mask : list bool) : nat := length (filter (fun b => b = true) mask).

(** The values of a score column under a mask, as [to_numpy(dtype=float)]
    yields them. *)
Fixpoint masked_values (scores : list (option pfloat)) (mask : list bool) : list Q :=
  match scores, mask with
  | s :: scores', b :: mask' =>
      match b, s with
      | true, Some (PNum q) => q :: masked_values scores' mask'
      | _, _ => masked_values scores' mask'
      end
  | _, _ => []
  end.

(** [df.iloc[idx]] with positional indices. *)
Fixpoint iloc {A : Type} (rows : list A) (idx : list nat) : res (list A) :=
  match idx with
  | [] => Ok []
  | i :: idx' =>
      match rows !! i with
      | None => Raise IndexError
      | Some row => res_bind (iloc rows idx') (fun rest => Ok (row :: rest))
      end
  end.

Section Stability.

(** The seeded generator and [rng.integers(0, high, size=size)], which
    returns the drawn indices with the generator's next state.  The four
    agreement metrics are functions of the two score arrays; they take no
    part in deciding which draws are kept and stay abstract. *)
Variable rng : Type.
Variable rng_integers : rng -> nat -> Z -> res (list nat * rng).
Variable M : Type.
Variable agreement_metrics : list Q -> list Q -> M.

Definition valid_mask (sample_scores full_scores : list (option pfloat)) : list bool :=
  zip_with andb (map notna sample_scores) (map notna full_scores).

(** The body of the inner loop, one bootstrap draw. *)
Definition bootstrap_draw (train_df test_df : list plan_row)
    (constraint_lookup : gmap string meta) (dirs : gmap string string)
    (ws : gmap string Q) (min_valid sample_size : Z)
    (state : rng * list (stability_record M)) (bootstrap_id : Z)
    : res (rng * list (stability_record M)) :=
  res_bind (rng_integers state.1 (length train_df) sample_size) (fun drawn =>
  res_bind (iloc train_df drawn.1) (fun sample_df =>
    let reference_sample :=
      build_reference_from_plan_constraints (map row_constraints sample_df)
        constraint_lookup dirs ws in
    let sample_scores :=
      score_plan_constraints_df (map row_constraints test_df) reference_sample in
    let full_scores := map row_score_full test_df in
    let mask := valid_mask sample_scores full_scores in
    let valid_count := Z.of_nat (count_true mask) in
    if valid_count <? min_valid then Ok (drawn.2, state.2)
    else
      let sample_values := masked_values sample_scores mask in
      let full_values := masked_values full_scores mask in
      Ok (drawn.2,
          state.2 ++
            [ {| rec_N := sample_size;
                 rec_bootstrap_id := bootstrap_id;
                 rec_train_size := Z.of_nat (length train_df);
                 rec_test_size := Z.of_nat (length test_df);
                 rec_valid_plans := valid_count;
                 rec_metrics := agreement_metrics sample_values full_values |} ]))).

Definition bootstrap_runs (train_df test_df : list plan_row)
    (constraint_lookup : gmap string meta) (dirs : gmap string string)
    (ws : gmap string Q) (min_valid bootstraps sample_size : Z)
    (state : res (rng * list (stability_record M)))
    : res (rng * list (stability_record M)) :=
  fold_left
    (fun acc bootstrap_id =>
       res_bind acc (fun st =>
         bootstrap_draw train_df test_df constraint_lookup dirs ws min_valid
           sample_size st bootstrap_id))
    (seqZ 0 bootstraps) state.

(** [for sample_size in available_sizes: for bootstrap_id in range(bootstraps)]. *)
Definition bootstrap_loop (train_df test_df : list plan_row)
    (constraint_lookup : gmap string meta) (dirs : gmap string string)
    (ws : gmap string Q) (min_valid bootstraps : Z) (available_sizes : list Z)
    (state : rng * list (stability_record M))
    : res (rng * list (stability_record M)) :=
  fold_left
    (fun acc sample_size =>
       bootstrap_runs train_df test_df constraint_lookup dirs ws min_valid
         bootstraps sample_size acc)
    available_sizes (Ok state).

End Stability.

(** ** Plateau estimate, on binary64 floats *)

Module Plateau.

Local Open Scope float_scope.

Definition fmax (a b : float) : float :=
  if PrimFloat.is_nan a then a
  else if PrimFloat.is_nan b then b
  else if PrimFloat.ltb a b then b else a.

(** [np.max]: raises on an empty array and propagates NaN. *)
Definition np_max (l : list float) : res float :=
  match l with
  | [] => Raise ValueError
  | x :: l' => Ok (fold_left fmax l' x)
  end.

(** [int(x)] on a float. *)
Definition int_of_prim (x : float) : res Z :=
  match Prim2SF x with
  | S754_zero _ => Ok 0%Z
  | S754_infinity _ => Raise OverflowError
  | S754_nan => Raise ValueError
  | S754_finite s m e =>
      let mag := if (0 <=? e)%Z then (Zpos m * 2 ^ e)%Z else (Zpos m / 2 ^ (- e))%Z in
      Ok (if s then (- mag)%Z else mag)
  end.

(** [sorted(pairs, key=lambda x: x[0])]: a stable sort that compares keys
    with [<]. *)
Fixpoint insert_by_key (p : float * float) (l : list (float * float))
    : list (float * float) :=
  match l with
  | [] => [p]
  | q :: l' => if PrimFloat.ltb q.1 p.1 then q :: insert_by_key p l' else p :: l
  end.

Definition sorted_by_key (l : list (float * float)) : list (float * float) :=
  fold_right insert_by_key [] l.

Definition predict (intercept slope n : float) : float :=
  intercept + slope / PrimFloat.sqrt n.

Definition estimate_n_star (n_values : list float)
    (intercept slope plateau_fraction : float) : res Z :=
  let predictions := map (predict intercept slope) n_values in
  res_bind (np_max predictions) (fun max_pred =>
    let target := intercept + plateau_fraction * (max_pred - intercept) in
    match List.find (fun p => PrimFloat.leb p.2 target)
                    (sorted_by_key (combine n_values predictions)) with
    | Some p => int_of_prim p.1
    | None =>
        match last n_values with
        | Some n => int_of_prim n
        | None => Raise IndexError
        end
    end).

(** The target of the search, [intercept + plateau_fraction * (max_pred - intercept)]. *)
Definition plateau_target (n_values : list float)
    (intercept slope plateau_fraction : float) : res float :=
  res_bind (np_max (map (predict intercept slope) n_values)) (fun max_pred =>
    Ok (intercept + plateau_fraction * (max_pred - intercept))).

(** No sampled size meets the target. *)
Definition none_meets (n_values : list float) (intercept slope : float)
    (target : float) : bool :=
  forallb (fun n => negb (PrimFloat.leb (predict intercept slope n) target)) n_values.

End Plateau.

(** ** Specification predicates *)

(** No two adjacent whitespace characters. *)
Fixpoint collapsed (l : chars) : bool :=
  match l with
  | [] => true
  | c :: l' =>
      match l' with
      | [] => true
      | d :: _ => negb (is_space c && is_space d)
      end && collapsed l'
  end.

(** An ascending array. *)
Fixpoint sortedb (a : list Q) : bool :=
  match a with
  | [] => true
  | x :: a' =>
      match a' with
      | [] => true
      | y :: _ => Qle_bool x y
      end && sortedb a'
  end.

Definition sorted (a : list Q) : Prop := sortedb a = true.

(** [i] is the right-insertion index of [v] in [a]: everything before [i]
    is at most [v], everything from [i] on is above [v]. *)
Definition right_insertion_index (a : list Q) (v : Q) (i : nat) : Prop :=
  (i <= length a)%nat
  /\ (forall j x, (j < i)%nat -> a !! j = Some x -> (x <= v)%Q)
  /\ (forall j x, (i <= j)%nat -> a !! j = Some x -> (v < x)%Q).

Definition clamp (lo hi x : Z) : Z := Z.min hi (Z.max lo x).

(** The percentile of the specification for a rank in an array of size [n]. *)
Definition percentile_base (n rank : Z) : Q :=
  if n =? 1 then 1%Q else (inject_Z (clamp 1 n rank - 1) / inject_Z (n - 1))%Q.

Definition directed (direction : string) (base : Q) : Q :=
  if String.eqb direction "lower" then (1 - base)%Q else base.

Definition Qsum (l : list Q) : Q := fold_right Qplus 0%Q l.

(** The weight that a plan entry contributes: its key must be present in the
    distributions, the directions and the weights of the reference. *)
Definition usable_weight (dists : gmap string (list Q)) (dirs : gmap string string)
    (ws : gmap string Q) (kv : string * Q) : option Q :=
  match dists !! kv.1, dirs !! kv.1, ws !! kv.1 with
  | Some _, Some _, Some weight => Some weight
  | _, _, _ => None
  end.

Definition total_usable_weight (plan : plan_vector) (dists : gmap string (list Q))
    (dirs : gmap string string) (ws : gmap string Q) : Q :=
  Qsum (omap (usable_weight dists dirs ws) (map_to_list plan)).

(** The invariants of a reference: no empty distribution, positive weights. *)
Definition reference_wf (dists : gmap string (list Q)) (ws : gmap string Q) : Prop :=
  (forall k values, dists !! k = Some values -> values <> [])
  /\ (forall k w, ws !! k = Some w -> (0 < w)%Q).

(** ** Sample data *)

Definition sample_constraint : constraint :=
  {| c_structure := Some "PTV";
     c_metric_display := Some "D95";
     c_priority := VInt 2;
     c_goal_operator := Some ">=";
     c_goal_value := None;
     c_variation_operator := None;
     c_variation_value := None |}.

Definition sample_key : string := "ptv||d95||>=||||||||2".

Definition sample_column : list (option plan_vector) :=
  [Some {[ sample_key := 45%Q ]}; Some {[ sample_key := 65%Q ]}; None;
   Some {[ sample_key := 55%Q ]}].

Definition sample_plan : plan_vector := {[ sample_key := 55%Q ]}.

Definition sample_lookup : gmap string meta :=
  build_constraint_lookup (fun _ => None) (fun _ => "") [sample_constraint].

Definition sample_directions : gmap string string := {[ sample_key := "higher" ]}.

Definition sample_weights : gmap string Q := {[ sample_key := (1 / 2)%Q ]}.

Definition sample_reference : reference :=
  build_reference_from_plan_constraints sample_column sample_lookup
    sample_directions sample_weights.

Definition foreign_plan : plan_vector := {[ "other||key" := 50%Q ]}.

(** The token-set overlap ratio of a raw label against a candidate name,
    [|intersection| / max(|raw_tokens|, |target_tokens|)]. *)
Definition ratio (raw_tokens : gset string) (canonical : string) : Q :=
  (inject_Z (Z.of_nat (size (raw_tokens ∩ token_set canonical)))
   / inject_Z (Z.max (Z.of_nat (size raw_tokens))
                     (Z.of_nat (size (token_set canonical)))))%Q.

(** The outcome of the fuzzy fallback over the candidates in iteration order:
    the first candidate whose ratio is positive and highest, or nothing when
    no candidate has a positive ratio. *)
Definition fuzzy_choice (raw_tokens : gset string) (items : list (string * string))
    (o : option string) : Prop :=
  match o with
  | Some c =>
      exists i k,
        items !! i = Some (k, c)
        /\ (0 < ratio raw_tokens c)%Q
        /\ (forall j kc, items !! j = Some kc ->
                         (ratio raw_tokens kc.2 <= ratio raw_tokens c)%Q)
        /\ (forall j kc, (j < i)%nat -> items !! j = Some kc ->
                         (ratio raw_tokens kc.2 < ratio raw_tokens c)%Q)
  | None => forall j kc, items !! j = Some kc -> (ratio raw_tokens kc.2 <= 0)%Q
  end.

(** The three steps of the resolver in priority order. *)
Inductive resolution (raw_name : option string) (alias_map : gmap string string)
    (protocol_structure_map : list (string * string)) : option string -> Prop :=
  | resolution_no_label :
      truthy raw_name = false \/ truthy (normalize_text raw_name) = false ->
      resolution raw_name alias_map protocol_structure_map None
  | resolution_alias (normalized alias : string) :
      truthy raw_name = true ->
      normalize_text raw_name = Some normalized -> normalized <> "" ->
      alias_map !! normalized = Some alias -> alias <> "" ->
      resolution raw_name alias_map protocol_structure_map (Some alias)
  | resolution_direct (normalized direct : string) :
      truthy raw_name = true ->
      normalize_text raw_name = Some normalized -> normalized <> "" ->
      truthy (alias_map !! normalized) = false ->
      dict_get normalized protocol_structure_map = Some direct -> direct <> "" ->
      resolution raw_name alias_map protocol_structure_map (Some direct)
  | resolution_fuzzy (raw normalized : string) (o : option string) :
      raw_name = Some raw -> raw <> "" ->
      normalize_text raw_name = Some normalized -> normalized <> "" ->
      truthy (alias_map !! normalized) = false ->
      truthy (dict_get normalized protocol_structure_map) = false ->
      fuzzy_choice (token_set raw) protocol_structure_map o ->
      resolution raw_name alias_map protocol_structure_map o.






Definition sample_vocabulary : list (string * string) :=
  build_protocol_structure_map [sample_constraint].

Definition sample_result (structure : string) (achieved : option achieved_doc) : result :=
  {| r_metric := Some {| md_display := Some "D95" |};
     r_objective := None;
     r_structure_tg263 := None;
     r_structure := Some structure;
     r_priority := VInt 2;
     r_goal := Some {| b_operator := Some " >= "; b_value := VNone |};
     r_variation := None;
     r_achieved := achieved |}.

(** A record without achieved value, a record of a foreign structure, and two
    records of the same constraint. *)
Definition sample_results : list result :=
  [ sample_result "PTV" None;
    sample_result "Heart" (Some {| a_value := VInt 10 |});
    sample_result " ptv" (Some {| a_value := VInt 50 |});
    sample_result "PTV" (Some {| a_value := VFloat 60 |}) ].

(** A test row is jointly scoreable when it has a score under the sample
    reference and a score under the full-population reference. *)
Definition row_score (ref : reference) (row : plan_row) : option pfloat :=
  match row_constraints row with
  | None => None
  | Some plan_constraints =>
      compute_plan_score plan_constraints (distributions ref) (directions ref)
        (weights ref)
  end.

Definition jointly_scoreable (ref : reference) (row : plan_row) : bool :=
  notna (row_score ref row) && notna (row_score_full row).

Definition jointly_scoreable_count (test_df : list plan_row) (ref : reference) : nat :=
  length (filter (fun row => jointly_scoreable ref row = true) test_df).

(** A stability record of a draw: its [valid_plans] counts the jointly
    scoreable test rows for a sample of the training rows, and lies between
    [min_valid] and the size of the test set. *)
Definition record_ok {M : Type} (train_df test_df : list plan_row)
    (constraint_lookup : gmap string meta) (dirs : gmap string string)
    (ws : gmap string Q) (min_valid : Z) (r : stability_record M) : Prop :=
  exists sample_df,
    Forall (fun row => row ∈ train_df) sample_df
    /\ rec_valid_plans r
       = Z.of_nat (jointly_scoreable_count test_df
                     (build_reference_from_plan_constraints
                        (map row_constraints sample_df) constraint_lookup dirs ws))
    /\ rec_test_size r = Z.of_nat (length test_df)
    /\ min_valid <= rec_valid_plans r <= rec_test_size r.

(** A deterministic stand-in for the seeded generator: the state is a
    counter, and a draw of [size] indices below [high] walks from it. *)
Definition counter_integers (g : nat) (high : nat) (size : Z) : res (list nat * nat) :=
  if (high =? 0)%nat || (size <? 0) then Raise ValueError
  else Ok (map (fun i => ((g + i) mod high)%nat) (seq 0 (Z.to_nat size)),
           (g + Z.to_nat size)%nat).

Definition sample_rows : list plan_row :=
  [ {| row_constraints := Some {[ sample_key := 45%Q ]};
       row_score_full := Some (PNum 0%Q) |};
    {| row_constraints := Some {[ sample_key := 65%Q ]};
       row_score_full := Some (PNum 1%Q) |};
    {| row_constraints := Some foreign_plan;
       row_score_full := None |} ].

(** The loop invariant of the fuzzy fallback after the candidates [seen]. *)
Definition fuzzy_inv (raw_tokens : gset string) (seen : list (string * string))
    (best : option string * Q) : Prop :=
  match best.1 with
  | None =>
      best.2 = 0%Q
      /\ forall j kc, seen !! j = Some kc -> (ratio raw_tokens kc.2 <= 0)%Q
  | Some c =>
      exists i k,
        seen !! i = Some (k, c)
        /\ best.2 = ratio raw_tokens c
        /\ (0 < best.2)%Q
        /\ (forall j kc, seen !! j = Some kc -> (ratio raw_tokens kc.2 <= best.2)%Q)
        /\ (forall j kc, (j < i)%nat -> seen !! j = Some kc ->
                         (ratio raw_tokens kc.2 < best.2)%Q)
  end.


(** ** Further functions of the pipeline *)

(** [str.strip(chars)] for a class of characters. *)
Fixpoint lstrip_by (p : ascii -> bool) (l : chars) : chars :=
  match l with
  | [] => []
  | c :: l' => if p c then lstrip_by p l' else l
  end.

Definition strip_by (p : ascii -> bool) (l : chars) : chars :=
  rev (lstrip_by p (rev (lstrip_by p l))).

Definition underscore : ascii := "_"%char.

Definition is_underscore (c : ascii) : bool := Ascii.eqb c underscore.

(** [re.sub(r"[^A-Za-z0-9]+", "_", value)]: every maximal run of characters
    outside the class becomes one underscore. *)
Fixpoint sub_non_alnum (l : chars) : chars :=
  match l with
  | [] => []
  | c :: l' =>
      if is_alnum c then c :: sub_non_alnum l'
      else
        match l' with
        | [] => [underscore]
        | d :: _ => if is_alnum d then underscore :: sub_non_alnum l' else sub_non_alnum l'
        end
  end.

(** [slugify]: strip, substitute, strip the underscores, and fall back to
    ["UNKNOWN"] when nothing is left. *)
Definition slugify (value : string) : string :=
  let value := strip (to_chars value) in
  let value := sub_non_alnum value in
  let value := strip_by is_underscore value in
  match value with
  | [] => "UNKNOWN"
  | _ => of_chars value
  end.

(** A lower-case ASCII letter or a digit. *)
Definition is_lower_alnum (c : ascii) : bool :=
  let n := code c in
  ((48 <=? n)%nat && (n <=? 57)%nat) || ((97 <=? n)%nat && (n <=? 122)%nat).

(** The underscore that stands for a leading, respectively trailing, run. *)
Definition lead_mark (l : chars) : chars :=
  match l with
  | c :: _ => if is_alnum c then [] else [underscore]
  | [] => []
  end.

Fixpoint trail_mark (l : chars) : chars :=
  match l with
  | [] => []
  | [c] => if is_alnum c then [] else [underscore]
  | _ :: l' => trail_mark l'
  end.

(** The number of elements of an array that are at most [v]. *)
Definition count_le (a : list Q) (v : Q) : nat :=
  length (List.filter (fun x => Qle_bool x v) a).

(** A float result that is the number [q]. *)
Definition is_num (r : pfloat) (q : Q) : Prop :=
  exists p, r = PNum p /\ (p == q)%Q.

(** The direction and the weight of one entry of the constraint dictionary:
    a weight needs a direction and a positive priority. *)
Definition entry_direction (m : meta) : option string :=
  direction_from_operator (m_goal_operator m).

Definition entry_weight (m : meta) : option Q :=
  match entry_direction m with
  | None => None
  | Some _ =>
      match m_priority m with
      | Some priority => if 0 <? priority then Some (1 / inject_Z priority)%Q else None
      | None => None
      end
  end.

(** A dictionary filled by a loop that skips the keys it already holds, and
    the first element of a list with a given key. *)
Section FirstWinsDefs.

Context {C A : Type} (key : C -> string) (val : C -> A).

Definition put_first (m : gmap string A) (c : C) : gmap string A :=
  match m !! key c with
  | Some _ => m
  | None => <[key c := val c]> m
  end.

Definition first_at (cs : list C) (k : string) (v : A) : Prop :=
  exists i c,
    cs !! i = Some c /\ key c = k /\ val c = v
    /\ forall j c', (j < i)%nat -> cs !! j = Some c' -> key c' <> k.

End FirstWinsDefs.

(** The vocabulary entry that a constraint writes: its normalized structure
    name, when that is not empty, with the name as spelled. *)
Definition spelling (c : constraint) : option (string * string) :=
  match normalize_text (c_structure c), c_structure c with
  | Some norm, Some structure =>
      if String.eqb norm "" then None else Some (norm, structure)
  | _, _ => None
  end.

(** The spelling of the last constraint that writes the key [k]. *)
Fixpoint last_spelling (constraints : list constraint) (k : string) : option string :=
  match constraints with
  | [] => None
  | c :: constraints' =>
      match last_spelling constraints' k with
      | Some v => Some v
      | None =>
          match spelling c with
          | Some (norm, structure) => if String.eqb k norm then Some structure else None
          | None => None
          end
      end
  end.

(** The values that the plans of a column give to the key [k], in the order
    of the column. *)
Definition column_values (column : list (option plan_vector)) (k : string) : list Q :=
  omap (fun cell => cell ≫= (fun plan : plan_vector => plan !! k)) column.

(** A scalar on which [float] raises [OverflowError]: an int that is too
    large in absolute value. *)
Definition overflows (v : pyval) : Prop :=
  exists z, v = VInt z /\ float_overflow_bound <= Z.abs z.

(** The three scalars of a result record that the extractor parses. *)
Definition goal_value (r : result) : pyval := b_value (default empty_bound (r_goal r)).
Definition variation_value (r : result) : pyval :=
  b_value (default empty_bound (r_variation r)).


(** The characters of the four comparison operators. *)
Definition is_comparison_char (c : ascii) : bool :=
  Ascii.eqb c "<" || Ascii.eqb c "=" || Ascii.eqb c ">".

(** ** Stability experiment: the train/test split

    The split arithmetic of [main] for one protocol, from the number of
    eligible plans.  [rounded] is the value of
    [int(round(test_fraction * eligible_count))]; the slices
    [permuted[:test_size]] and [permuted[test_size:]] of a permutation of
    [eligible_count] indices are represented by their lengths. *)

Inductive split_outcome : Type :=
  | Skipped (reason : string)
  | Split (test_size train_size : nat) (available_sizes : list Z).

(** [min(sample_sizes) if sample_sizes else 0]. *)
Definition min_train (sample_sizes : list Z) : Z :=
  match sample_sizes with
  | [] => 0
  | size :: sizes => fold_left Z.min sizes size
  end.

Definition split_plans (sample_sizes : list Z) (test_min rounded : Z)
    (eligible_count : nat) : split_outcome :=
  if (eligible_count =? 0)%nat then Skipped "no_scored_plans"
  else
    let test_size := Z.max test_min rounded in
    let max_test := Z.max (Z.of_nat eligible_count - min_train sample_sizes) 0 in
    if max_test =? 0 then Skipped "insufficient_plans_for_split"
    else
      let test_size := Z.min test_size max_test in
      if test_size <=? 0 then Skipped "invalid_test_size"
      else
        let test_len := Nat.min (Z.to_nat test_size) eligible_count in
        let train_len := (eligible_count - test_len)%nat in
        let available_sizes :=
          List.filter (fun size => size <=? Z.of_nat train_len) sample_sizes in
        match available_sizes with
        | [] => Skipped "insufficient_train_plans"
        | _ => Split test_len train_len available_sizes
        end.

(** ** Stability experiment: the order of the records *)

(** The pair [(N, bootstrap_id)] of a record, and the pairs that the two
    nested loops visit, in the order they visit them. *)
Definition record_key {M : Type} (r : stability_record M) : Z * Z :=
  (rec_N r, rec_bootstrap_id r).

Definition loop_grid (available_sizes : list Z) (bootstraps : Z) : list (Z * Z) :=
  available_sizes ≫= (fun sample_size => (fun id => (sample_size, id)) <$> seqZ 0 bootstraps).

(** ** The population reference, in one function and step by step *)

(** A row of the frame of plan constraints.  The identifying columns
    ([patient_id], [plan_id], [protocol], [protocol_raw]) are copied from the
    plan and take no part in the computation. *)
Record plan_constraints_row : Type := {
  matched_constraints : nat;
  plan_constraints : plan_vector;
}.

Section Population.

Variable float_of_string : string -> option Q.
Variable int_of_string : string -> option Z.
Variable float_str : Q -> string.

(** [build_plan_constraints_df] on the [results] column of the plans. *)
Definition build_plan_constraints_df (plans : list (option (list result)))
    (constraint_lookup : gmap string meta) (alias_map : gmap string string)
    (protocol_structure_map : list (string * string))
    : res (list plan_constraints_row) :=
  fold_left
    (fun acc results =>
       res_bind acc (fun rows =>
       res_bind (extract_plan_constraints float_of_string int_of_string float_str
                   results constraint_lookup alias_map protocol_structure_map)
         (fun pc =>
            Ok (rows ++ [ {| matched_constraints := size pc;
                             plan_constraints := pc |} ]))))
    plans (Ok []).

(** The loop over the plans of [build_population_reference], on the pair
    [(distributions, plan_scores)]. *)
Definition population_step (constraint_lookup : gmap string meta)
    (alias_map : gmap string string) (protocol_structure_map : list (string * string))
    (acc : res (gmap string (list Q) * list plan_constraints_row))
    (results : option (list result))
    : res (gmap string (list Q) * list plan_constraints_row) :=
  res_bind acc (fun st =>
  res_bind (extract_plan_constraints float_of_string int_of_string float_str
              results constraint_lookup alias_map protocol_structure_map)
    (fun pc =>
       Ok (pool_plan st.1 pc,
           st.2 ++ [ {| matched_constraints := size pc; plan_constraints := pc |} ]))).

Definition build_population_reference (plans : list (option (list result)))
    (constraints : list constraint) (alias_map : gmap string string)
    : res (reference * list (plan_constraints_row * option pfloat)) :=
  let constraint_lookup := build_constraint_lookup int_of_string float_str constraints in
  let protocol_structure_map := build_protocol_structure_map constraints in
  res_bind (fold_left context_step (map_to_list constraint_lookup) (Ok (∅, ∅)))
    (fun dw =>
  res_bind (fold_left (population_step constraint_lookup alias_map protocol_structure_map)
              plans (Ok ((fun _ => []) <$> constraint_lookup, [])))
    (fun st =>
       let sorted_distributions :=
         omap (fun values => match values with [] => None | _ => Some (np_sort values) end)
              st.1 in
       let reference :=
         {| constraint_meta := constraint_lookup;
            distributions := sorted_distributions;
            directions := dw.1;
            weights := dw.2 |} in
       Ok (reference,
           map (fun row =>
                  (row, compute_plan_score (plan_constraints row) sorted_distributions
                          dw.1 dw.2))
               st.2))).

(** The same reference and scores as the stability experiment computes them,
    in four calls: [build_constraint_context], [build_plan_constraints_df],
    [build_reference_from_plan_constraints], [score_plan_constraints_df]. *)
Definition reference_full (plans : list (option (list result)))
    (constraints : list constraint) (alias_map : gmap string string)
    : res (reference * list (plan_constraints_row * option pfloat)) :=
  res_bind (build_constraint_context int_of_string float_str constraints) (fun context =>
    let constraint_lookup := context.1.1.1 in
    let protocol_structure_map := context.1.1.2 in
    res_bind (build_plan_constraints_df plans constraint_lookup alias_map
                protocol_structure_map)
      (fun plan_constraints_df =>
         let column := map (fun row => Some (plan_constraints row)) plan_constraints_df in
         let reference :=
           build_reference_from_plan_constraints column constraint_lookup
             context.1.2 context.2 in
         Ok (reference,
             combine plan_constraints_df (score_plan_constraints_df column reference)))).

End Population.

(** ** Choosing the constraints of a protocol *)

(** An entry of the map from protocols to their standard. *)
Record standard_ref : Type := {
  standard_id : option string;
  standard_name : option string;
}.

(** [normalize_text(name) or name]. *)
Definition norm_or_self (name : string) : string :=
  default name (py_or (normalize_text (Some name)) (Some name)).

(** The loop over the candidate names of [select_protocol_constraints];
    [None] when the loop ends without returning. *)
Fixpoint select_by_reference (candidate_names : list string)
    (standard_constraints_by_name standard_constraints_by_id
       : gmap string (list constraint))
    (standard_ref_map : gmap string standard_ref)
    : option (list constraint * string) :=
  match candidate_names with
  | [] => None
  | candidate :: candidates =>
      let continue :=
        select_by_reference candidates standard_constraints_by_name
          standard_constraints_by_id standard_ref_map in
      match standard_ref_map !! norm_or_self candidate with
      | None => continue
      | Some ref =>
          let by_id :=
            if truthy (standard_id ref)
            then standard_id ref ≫= (fun id => standard_constraints_by_id !! id)
            else None in
          match by_id with
          | Some constraints => Some (constraints, "standard_protocols_id")
          | None =>
              if truthy (standard_name ref) then
                match standard_name ref
                      ≫= (fun name => standard_constraints_by_name !! norm_or_self name) with
                | Some constraints => Some (constraints, "standard_protocols_ref_name")
                | None => continue
                end
              else continue
          end
      end
  end.

Definition select_protocol_constraints (protocol : string) (protocol_raw : option string)
    (standard_constraints_by_name standard_constraints_by_id protocol_constraints
       : gmap string (list constraint))
    (standard_ref_map : gmap string standard_ref)
    : option (list constraint) * string :=
  let protocol_norm := norm_or_self protocol in
  match standard_constraints_by_name !! protocol_norm with
  | Some constraints => (Some constraints, "standard_protocols_name")
  | None =>
      match protocol_constraints !! protocol_norm with
      | Some constraints => (Some constraints, "protocols")
      | None =>
          let candidate_names :=
            (if truthy protocol_raw then [default "" protocol_raw] else []) ++ [protocol] in
          match select_by_reference candidate_names standard_constraints_by_name
                  standard_constraints_by_id standard_ref_map with
          | Some (constraints, source) => (Some constraints, source)
          | None =>
              if truthy protocol_raw then
                match protocol_constraints !! norm_or_self (default "" protocol_raw) with
                | Some constraints => (Some constraints, "protocols_raw")
                | None => (None, "missing")
                end
              else (None, "missing")
          end
      end
  end.

(** ** Stability experiment: distances between two score arrays *)

(** [np.abs] and [np.max] on numbers; [np.max] raises on an empty array. *)
Definition q_abs (x : Q) : Q := if Qle_bool 0 x then x else (- x)%Q.

Definition q_max (l : list Q) : res Q :=
  match l with
  | [] => Raise ValueError
  | x :: l' => Ok (fold_left (fun m y => if Qltb m y then y else m) l' x)
  end.

(** [np.unique]: the sorted values, one of each. *)
Fixpoint dedup_sorted (l : list Q) : list Q :=
  match l with
  | [] => []
  | x :: l' =>
      match l' with
      | [] => [x]
      | y :: _ => if Qeq_bool x y then dedup_sorted l' else x :: dedup_sorted l'
      end
  end.

Definition np_unique (l : list Q) : list Q := dedup_sorted (np_sort l).

(** The empirical distribution function of a sorted array at the points
    [points]: [np.searchsorted(a_sorted, points, side="right") / a_sorted.size]. *)
Definition cdf_at (a_sorted points : list Q) : list Q :=
  map (fun v => (inject_Z (Z.of_nat (searchsorted_right a_sorted v))
                 / inject_Z (Z.of_nat (length a_sorted)))%Q) points.

Definition ks_distance (values_a values_b : list Q) : res pfloat :=
  if (length values_a =? 0)%nat || (length values_b =? 0)%nat then Ok PNaN
  else
    let a_sorted := np_sort values_a in
    let b_sorted := np_sort values_b in
    let combined := np_sort (np_unique (a_sorted ++ b_sorted)) in
    let cdf_a := cdf_at a_sorted combined in
    let cdf_b := cdf_at b_sorted combined in
    res_bind (q_max (zip_with (fun x y => q_abs (x - y)) cdf_a cdf_b))
      (fun d => Ok (PNum d)).

(** [np.mean] of a non-empty array. *)
Definition q_mean (l : list Q) : Q := (Qsum l / inject_Z (Z.of_nat (length l)))%Q.

Definition wasserstein_distance (values_a values_b : list Q) : pfloat :=
  if (length values_a =? 0)%nat || (length values_b =? 0)%nat then PNaN
  else
    let n := Nat.min (length values_a) (length values_b) in
    let a_sorted := take n (np_sort values_a) in
    let b_sorted := take n (np_sort values_b) in
    PNum (q_mean (zip_with (fun x y => q_abs (x - y)) a_sorted b_sorted)).

(** ** The alias map *)

(** A document of the collection of structure aliases. *)
Record alias_doc : Type := {
  canonical : option string;
  aliases : option (list (option string));
}.

(** [alias_map[normalize_text(name)] = canonical] when the normalized name
    is not empty. *)
Definition alias_step (canonical : string) (alias_map : gmap string string)
    (name : option string) : gmap string string :=
  match normalize_text name with
  | Some name_norm =>
      if truthy (Some name_norm) then <[name_norm := canonical]> alias_map else alias_map
  | None => alias_map
  end.

Definition load_alias_doc (alias_map : gmap string string) (doc : alias_doc)
    : gmap string string :=
  if negb (truthy (canonical doc)) then alias_map
  else
    let canonical := default "" (canonical doc) in
    fold_left (alias_step canonical) (default [] (aliases doc))
      (alias_step canonical alias_map (Some canonical)).

(** [load_alias_map] on the documents of the cursor. *)
Definition load_alias_map (docs : list alias_doc) : gmap string string :=
  fold_left load_alias_doc docs ∅.

(** The names under which a document files its canonical name. *)
Definition doc_names (doc : alias_doc) : list (option string) :=
  canonical doc :: default [] (aliases doc).

(** An entry of the alias map is justified by a document: neither the key
    nor the value is empty, the value is the canonical name of a document,
    and the key is the normal form of one of the names of that document. *)
Definition alias_entry_ok (docs : list alias_doc) (k c : string) : Prop :=
  k <> "" /\ c <> ""
  /\ exists doc name,
       doc ∈ docs /\ canonical doc = Some c /\ name ∈ doc_names doc
       /\ normalize_text name = Some k.

Definition sample_alias_docs : list alias_doc :=
  [ {| canonical := Some "PTV_High"; aliases := Some [Some "ptv  HIGH"; None] |};
    {| canonical := None; aliases := Some [Some "heart"] |} ].

(** ** Step 1: the protocol of an evaluation *)

(** [normalize_protocol_name]: absent for [None] and for the empty string. *)
Definition normalize_protocol_name (name : option string) : option string :=
  if negb (truthy name) then None
  else Some (of_chars (normalize_chars (to_chars (default "" name)))).

(** [value.strip()] when [value] is a string with something but whitespace. *)
Definition stripped_name (value : pyval) : option string :=
  match value with
  | VStr s => if truthy (Some (py_strip s)) then Some (py_strip s) else None
  | _ => None
  end.

(** [resolve_protocol] on the two fields of the document it reads,
    [standard_protocol] and the protocol name; it returns the canonical
    protocol and the raw name. *)
Definition resolve_protocol (standard_protocol protocol_name : pyval)
    (protocol_map : gmap string string) : string * option string :=
  let raw :=
    match stripped_name standard_protocol with
    | Some s => Some s
    | None => stripped_name protocol_name
    end in
  let normalized := normalize_protocol_name raw in
  let canonical :=
    if truthy normalized then
      match protocol_map !! default "" normalized with
      | Some c => Some c
      | None => raw
      end
    else raw in
  (default "UNKNOWN" (py_or canonical (Some "UNKNOWN")), raw).

(** ** The plan score as a weighted mean *)

(** The weighted percentile that a plan entry contributes to the score. *)
Definition usable_score (dists : gmap string (list Q)) (dirs : gmap string string)
    (ws : gmap string Q) (kv : string * Q) : option Q :=
  match dists !! kv.1, dirs !! kv.1, ws !! kv.1 with
  | Some dist, Some direction, Some weight =>
      match compute_percentile kv.2 dist direction with
      | PNum p => Some (weight * p)%Q
      | PNaN => None
      end
  | _, _, _ => None
  end.

(** [v'] is at least as good as [v] for a constraint of direction [d]. *)
Definition at_least_as_good (d : string) (v v' : Q) : Prop :=
  if String.eqb d "lower" then (v' <= v)%Q else (v <= v')%Q.

(** The order on optional scores: absent scores compare only to absent
    ones, numbers by their value. *)
Definition score_le (s s' : option pfloat) : Prop :=
  match s, s' with
  | None, None => True
  | Some (PNum q), Some (PNum q') => (q <= q')%Q
  | _, _ => False
  end.

(** * Properties *)

(** ** Characters and runs *)

Lemma lower_char_idem (c : ascii) : lower_char (lower_char c) = lower_char c.
Proof. destruct c as [[] [] [] [] [] [] [] []]; reflexivity. Qed.

Lemma is_space_lower_char (c : ascii) : is_space (lower_char c) = is_space c.
Proof. destruct c as [[] [] [] [] [] [] [] []]; reflexivity. Qed.

Lemma is_space_space_only (c : ascii) :
  is_space c = true -> lower_char c = c.
Proof. destruct c as [[] [] [] [] [] [] [] []]; simpl; intros H; try reflexivity; discriminate H. Qed.

Lemma runs_cons_keep keep c l :
  keep c = true ->
  runs keep (c :: l) =
    match l with
    | [] => [[c]]
    | d :: _ =>
        if keep d then
          match runs keep l with
          | w :: ws => (c :: w) :: ws
          | [] => [[c]]
          end
        else [c] :: runs keep l
    end.
Proof. intros H. simpl. rewrite H. reflexivity. Qed.

Lemma runs_cons_drop keep c l : keep c = false -> runs keep (c :: l) = runs keep l.
Proof. intros H. simpl. rewrite H. reflexivity. Qed.

Lemma runs_head_keep keep c l : keep c = true -> runs keep (c :: l) <> [].
Proof.
  intros H. rewrite runs_cons_keep by assumption.
  destruct l as [|d l']; [discriminate|].
  destruct (keep d); [destruct (runs keep (d :: l'))|]; discriminate.
Qed.

(** Every run is non-empty and made of kept characters. *)
Lemma runs_pieces keep l :
  Forall (fun w => w <> [] /\ Forall (fun c => keep c = true) w) (runs keep l).
Proof.
  induction l as [|c l IH]; [constructor|].
  destruct (keep c) eqn:Hc; [|rewrite runs_cons_drop by assumption; exact IH].
  rewrite runs_cons_keep by assumption.
  destruct l as [|d l']; [repeat constructor; [discriminate|assumption]|].
  destruct (keep d) eqn:Hd.
  - destruct (runs keep (d :: l')) as [|w ws] eqn:Hr.
    + repeat constructor; [discriminate|assumption].
    + inversion IH as [|? ? [Hw Hall] Hws]; subst.
      constructor; [|assumption].
      split; [discriminate|constructor; assumption].
  - constructor; [|exact IH].
    split; [discriminate|repeat constructor; assumption].
Qed.

Lemma runs_map keep (f : ascii -> ascii) l :
  (forall c, keep (f c) = keep c) ->
  runs keep (map f l) = map (map f) (runs keep l).
Proof.
  intros Hf. induction l as [|c l IH]; [reflexivity|].
  cbn [map]. destruct (keep c) eqn:Hc.
  - rewrite (runs_cons_keep keep (f c)) by (rewrite Hf; assumption).
    rewrite (runs_cons_keep keep c) by assumption.
    destruct l as [|d l']; [reflexivity|].
    cbn [map] in *. rewrite Hf. destruct (keep d).
    + rewrite IH. destruct (runs keep (d :: l')); reflexivity.
    + rewrite IH. reflexivity.
  - rewrite (runs_cons_drop keep (f c)) by (rewrite Hf; assumption).
    rewrite (runs_cons_drop keep c) by assumption. exact IH.
Qed.

Lemma runs_skip_prefix keep sp l :
  Forall (fun c => keep c = false) sp -> runs keep (sp ++ l) = runs keep l.
Proof.
  induction 1 as [|c sp Hc _ IH]; [reflexivity|].
  cbn [app]. rewrite runs_cons_drop by assumption. exact IH.
Qed.

Lemma runs_skip_suffix keep sp l :
  Forall (fun c => keep c = false) sp -> runs keep (l ++ sp) = runs keep l.
Proof.
  intros Hsp. induction l as [|c l IH].
  - cbn [app]. rewrite <- (app_nil_r sp). apply (runs_skip_prefix keep sp []). assumption.
  - cbn [app]. destruct (keep c) eqn:Hc.
    + rewrite !runs_cons_keep by assumption.
      destruct l as [|d l'].
      * cbn [app]. destruct sp as [|s sp']; [reflexivity|].
        inversion Hsp as [|? ? Hs Hsp']; subst. rewrite Hs.
        cbn [app] in IH. rewrite IH. reflexivity.
      * cbn [app] in *. rewrite IH. reflexivity.
    + rewrite !runs_cons_drop by assumption. exact IH.
Qed.

(** ** Stripping *)

Lemma lstrip_split l :
  exists sp, l = sp ++ lstrip l /\ Forall (fun c => is_space c = true) sp.
Proof.
  induction l as [|c l [sp [Hl Hsp]]]; [exists []; split; [reflexivity|constructor]|].
  simpl. destruct (is_space c) eqn:Hc.
  - exists (c :: sp). split; [cbn [app]; congruence|constructor; assumption].
  - exists []. split; [reflexivity|constructor].
Qed.

Lemma rstrip_split l :
  exists sp, l = rstrip l ++ sp /\ Forall (fun c => is_space c = true) sp.
Proof.
  destruct (lstrip_split (rev l)) as [sp [Hl Hsp]].
  exists (rev sp). split.
  - unfold rstrip. rewrite <- rev_app_distr, <- Hl, rev_involutive. reflexivity.
  - apply List.Forall_rev. assumption.
Qed.

Lemma lstrip_head_nonspace c l : is_space c = false -> lstrip (c :: l) = c :: l.
Proof. intros H. simpl. rewrite H. reflexivity. Qed.

Lemma rstrip_last_nonspace c l : is_space c = false -> rstrip (l ++ [c]) = l ++ [c].
Proof.
  intros H. unfold rstrip. rewrite rev_app_distr. cbn [rev app].
  rewrite lstrip_head_nonspace by assumption.
  cbn [rev]. rewrite rev_involutive. reflexivity.
Qed.

Definition no_space (w : chars) : Prop := Forall (fun c => is_space c = false) w.

Lemma negb_space_false c : negb (is_space c) = false -> is_space c = true.
Proof. destruct (is_space c); [reflexivity|discriminate]. Qed.

Lemma split_ws_strip l : split_ws (strip l) = split_ws l.
Proof.
  unfold split_ws, strip.
  destruct (lstrip_split l) as [sp1 [H1 Hsp1]].
  destruct (rstrip_split (lstrip l)) as [sp2 [H2 Hsp2]].
  rewrite H1 at 2. rewrite runs_skip_prefix.
  2:{ eapply List.Forall_impl; [|exact Hsp1]. cbn. intros c Hc. rewrite Hc. reflexivity. }
  rewrite H2 at 2. rewrite runs_skip_suffix; [reflexivity|].
  eapply List.Forall_impl; [|exact Hsp2]. cbn. intros c Hc. rewrite Hc. reflexivity.
Qed.

Lemma split_ws_lower l : split_ws (lower l) = map lower (split_ws l).
Proof.
  unfold split_ws, lower. apply runs_map.
  intros c. rewrite is_space_lower_char. reflexivity.
Qed.

Lemma split_ws_words l : Forall (fun w => w <> [] /\ no_space w) (split_ws l).
Proof.
  eapply List.Forall_impl; [|apply runs_pieces].
  cbn. intros w [Hw Hall]. split; [assumption|].
  eapply List.Forall_impl; [|exact Hall].
  cbn. intros c Hc. destruct (is_space c); [discriminate|reflexivity].
Qed.

(** ** Joined words *)

Definition word_ok (w : chars) : Prop := w <> [] /\ no_space w.

Lemma join_cons2 sep w w' ws : join sep (w :: w' :: ws) = w ++ sep ++ join sep (w' :: ws).
Proof. reflexivity. Qed.

Lemma join_head ws :
  Forall word_ok ws -> ws <> [] ->
  exists c r, join [space] ws = c :: r /\ is_space c = false.
Proof.
  intros Hws Hne. destruct ws as [|w ws]; [congruence|].
  inversion Hws as [|? ? [Hw Hns] _]; subst.
  destruct w as [|c w]; [congruence|].
  inversion Hns; subst.
  destruct ws as [|w' ws]; [exists c, w; split; [reflexivity|assumption]|].
  rewrite join_cons2. cbn [app]. eauto.
Qed.

Lemma join_last ws :
  Forall word_ok ws -> ws <> [] ->
  exists r c, join [space] ws = r ++ [c] /\ is_space c = false.
Proof.
  induction ws as [|w ws IH]; [congruence|].
  intros Hws _. inversion Hws as [|? ? [Hw Hns] Hws']; subst.
  destruct ws as [|w' ws].
  - cbn [join]. destruct (exists_last Hw) as [r [c Hr]]. subst w.
    exists r, c. split; [reflexivity|].
    apply List.Forall_app in Hns. destruct Hns as [_ Hc]. inversion Hc; assumption.
  - destruct (IH Hws') as [r [c [Hr Hc]]]; [discriminate|].
    rewrite join_cons2, Hr. exists (w ++ [space] ++ r), c.
    split; [|assumption]. rewrite <- !app_assoc. reflexivity.
Qed.

Lemma collapsed_word w l : no_space w -> l <> [] -> collapsed (w ++ l) = collapsed l.
Proof.
  intros Hw Hl. induction Hw as [|c w Hc _ IH]; [reflexivity|].
  cbn [app collapsed]. rewrite IH, Hc.
  destruct (w ++ l); reflexivity.
Qed.

Lemma collapsed_single w : no_space w -> collapsed w = true.
Proof.
  induction 1 as [|c w Hc _ IH]; [reflexivity|].
  cbn [collapsed]. rewrite IH, Hc. destruct w; reflexivity.
Qed.

Lemma join_collapsed ws : Forall word_ok ws -> collapsed (join [space] ws) = true.
Proof.
  induction ws as [|w ws IH]; [reflexivity|].
  intros Hws. inversion Hws as [|? ? [Hw Hns] Hws']; subst.
  destruct ws as [|w' ws]; [apply collapsed_single; assumption|].
  rewrite join_cons2, collapsed_word by (assumption || discriminate).
  destruct (join_head (w' :: ws) Hws') as [c [r [Hr Hc]]]; [discriminate|].
  specialize (IH Hws'). rewrite Hr in *.
  change (collapsed ([space] ++ c :: r))
    with (negb (is_space space && is_space c) && collapsed (c :: r)).
  rewrite Hc, IH, andb_false_r. reflexivity.
Qed.

Lemma join_members ws c :
  In c (join [space] ws) -> c = space \/ exists w, In w ws /\ In c w.
Proof.
  induction ws as [|w ws IH]; [intros []|].
  destruct ws as [|w' ws].
  - cbn [join]. intros Hc. right. exists w. split; [left; reflexivity|assumption].
  - rewrite join_cons2. intros Hc.
    apply in_app_or in Hc. destruct Hc as [Hc|Hc].
    + right. exists w. split; [left; reflexivity|assumption].
    + cbn [app] in Hc. destruct Hc as [Hc|Hc]; [left; congruence|].
      destruct (IH Hc) as [?|[w0 [Hw0 Hc0]]]; [left; assumption|].
      right. exists w0. split; [right; assumption|assumption].
Qed.

(** ** C9: the normalizer *)

(** C9 (as the code has it): [normalize_text] is absent only for a missing
    input.  For every string it returns the words of the input, lower-cased
    and joined by single spaces: the result is trimmed, fixed by [lower], its
    only whitespace characters are single spaces that are never adjacent, and
    it is the empty string, not an absent value, when the input has no
    word (the empty string in particular). *)
Theorem normalize_text_canonical :
  normalize_text None = None /\
  forall s : string,
    exists r : chars,
      normalize_text (Some s) = Some (of_chars r) /\
      r = join [space] (map lower (split_ws (to_chars s))) /\
      lstrip r = r /\ rstrip r = r /\
      (forall c, In c r -> lower_char c = c) /\
      (forall c, In c r -> is_space c = true -> c = space) /\
      collapsed r = true /\
      (split_ws (to_chars s) = [] -> of_chars r = "").
Proof.
  split; [reflexivity|]. intros s.
  exists (normalize_chars (to_chars s)).
  assert (Heq : normalize_chars (to_chars s)
                = join [space] (map lower (split_ws (to_chars s)))).
  { unfold normalize_chars. rewrite split_ws_lower, split_ws_strip. reflexivity. }
  assert (Hws : Forall word_ok (map lower (split_ws (to_chars s)))).
  { rewrite <- split_ws_lower. apply split_ws_words. }
  split; [reflexivity|]. split; [exact Heq|]. rewrite Heq.
  set (ws := map lower (split_ws (to_chars s))) in *.
  assert (Hmem : forall c, In c (join [space] ws) ->
                 c = space \/ (is_space c = false /\ lower_char c = c)).
  { intros c Hc. destruct (join_members ws c Hc) as [?|[w [Hw Hcw]]]; [left; assumption|].
    right. split.
    - rewrite List.Forall_forall in Hws. destruct (Hws w Hw) as [_ Hns].
      unfold no_space in Hns. rewrite List.Forall_forall in Hns. apply Hns. assumption.
    - unfold ws in Hw. apply in_map_iff in Hw. destruct Hw as [w0 [Hw0 _]]. subst w.
      unfold lower in Hcw. apply in_map_iff in Hcw. destruct Hcw as [c0 [Hc0 _]].
      subst c. apply lower_char_idem. }
  repeat split.
  - destruct ws as [|w ws'] eqn:E; [reflexivity|].
    destruct (join_head (w :: ws') Hws) as [c [r [Hr Hc]]]; [discriminate|].
    rewrite Hr. apply lstrip_head_nonspace. assumption.
  - destruct ws as [|w ws'] eqn:E; [reflexivity|].
    destruct (join_last (w :: ws') Hws) as [r [c [Hr Hc]]]; [discriminate|].
    rewrite Hr. apply rstrip_last_nonspace. assumption.
  - intros c Hc. destruct (Hmem c Hc) as [->|[_ H]]; [reflexivity|assumption].
  - intros c Hc Hsp. destruct (Hmem c Hc) as [?|[H _]]; [assumption|congruence].
  - apply join_collapsed. assumption.
  - intros Hnil. unfold ws. rewrite Hnil. reflexivity.
Qed.

(** C9, as stated, fails on the empty string: the result is a string. *)
Lemma normalize_text_empty_not_absent :
  normalize_text (Some "") = Some "" /\ normalize_text (Some "") <> None.
Proof. split; [reflexivity|discriminate]. Qed.

(** ** C10: numeric parsing *)

Lemma parse_numeric_cases (float_of_string : string -> option Q) (value : pyval) :
  parse_numeric float_of_string value =
    match value with
    | VInt z =>
        if Z.abs z <? float_overflow_bound then Ok (Some (inject_Z z))
        else Raise OverflowError
    | VFloat x => Ok (Some x)
    | VStr s =>
        if String.eqb (py_strip s) "" then Ok None
        else Ok (float_of_string (py_strip s))
    | VNone | VBool _ | VOther => Ok None
    end.
Proof.
  destruct value; try reflexivity.
  unfold parse_numeric, float_of_int. destruct (Z.abs z <? float_overflow_bound); reflexivity.
Qed.


(** C10: on the integer [2^1024], a well-formed [int], [parse_numeric] does
    not return: [float(value)] raises [OverflowError], which no handler of
    the function catches.  Booleans do map to an absent value. *)
Theorem parse_numeric_overflow (float_of_string : string -> option Q) :
  parse_numeric float_of_string (VInt (2 ^ 1024)) = Raise OverflowError
  /\ forall b, parse_numeric float_of_string (VBool b) = Ok None.
Proof. split; [vm_compute; reflexivity|reflexivity]. Qed.

(** ** C1, C4: the percentile *)

Lemma Qltb_lt (x y : Q) : Qltb x y = true <-> (x < y)%Q.
Proof.
  unfold Qltb. rewrite negb_true_iff. split.
  - intros H. apply Qnot_le_lt. intros Hle. apply Qle_bool_iff in Hle. congruence.
  - intros H. destruct (Qle_bool y x) eqn:E; [|reflexivity].
    apply Qle_bool_iff in E. exfalso. apply (Qlt_not_le _ _ H). assumption.
Qed.

Lemma Qltb_ge (x y : Q) : Qltb x y = false <-> (y <= x)%Q.
Proof.
  unfold Qltb. rewrite negb_false_iff. apply Qle_bool_iff.
Qed.

Lemma sortedb_head (x : Q) (a : list Q) :
  sortedb (x :: a) = true -> Forall (Qle x) a /\ sortedb a = true.
Proof.
  revert x. induction a as [|y a IH]; intros x H; [split; [constructor|reflexivity]|].
  change (Qle_bool x y && sortedb (y :: a) = true) in H.
  apply andb_true_iff in H. destruct H as [Hxy Hs].
  apply Qle_bool_iff in Hxy.
  destruct (IH y Hs) as [Hall _].
  split; [|assumption].
  constructor; [assumption|].
  eapply List.Forall_impl; [|exact Hall].
  intros z Hz. cbn in *. eapply Qle_trans; eassumption.
Qed.

Lemma sorted_lookup (a : list Q) (i j : nat) (x y : Q) :
  sorted a -> (i <= j)%nat -> a !! i = Some x -> a !! j = Some y -> (x <= y)%Q.
Proof.
  unfold sorted. revert i j. induction a as [|h a IH]; intros i j Hs Hij Hi Hj.
  - discriminate.
  - destruct (sortedb_head h a Hs) as [Hall Hs'].
    destruct i as [|i], j as [|j]; cbn in Hi, Hj.
    + injection Hi as <-. injection Hj as <-. apply Qle_refl.
    + injection Hi as <-. rewrite List.Forall_forall in Hall.
      apply Hall. apply list_elem_of_In. eapply list_elem_of_lookup_2. eassumption.
    + lia.
    + apply (IH i j); [assumption|lia|assumption|assumption].
Qed.

Lemma nth_of_lookup (a : list Q) (i : nat) (x : Q) : a !! i = Some x -> nth i a 0%Q = x.
Proof. intros H. rewrite nth_lookup, H. reflexivity. Qed.

Lemma half_bounds (lo hi : nat) :
  (lo < hi)%nat ->
  (lo <= lo + (hi - lo) / 2)%nat /\ (lo + (hi - lo) / 2 < hi)%nat.
Proof.
  intros H. split; [lia|].
  assert ((hi - lo) / 2 < hi - lo)%nat by (apply Nat.div_lt; lia). lia.
Qed.

Lemma bisect_right_correct (fuel : nat) (a : list Q) (v : Q) (lo hi : nat) :
  sorted a ->
  (lo <= hi)%nat -> (hi <= length a)%nat -> (hi - lo <= fuel)%nat ->
  (forall j x, (j < lo)%nat -> a !! j = Some x -> (x <= v)%Q) ->
  (forall j x, (hi <= j)%nat -> a !! j = Some x -> (v < x)%Q) ->
  right_insertion_index a v (bisect_right fuel a v lo hi).
Proof.
  intros Hs. revert lo hi.
  induction fuel as [|fuel IH]; intros lo hi Hlh Hlen Hfuel Hlo Hhi.
  - cbn. assert (lo = hi) by lia. subst hi. repeat split; [lia|assumption|assumption].
  - cbn [bisect_right]. destruct (lo <? hi)%nat eqn:Hlt.
    + apply Nat.ltb_lt in Hlt.
      destruct (half_bounds lo hi Hlt) as [Hm1 Hm2].
      set (mid := (lo + (hi - lo) / 2)%nat) in *.
      destruct (lookup_lt_is_Some_2 a mid) as [m Hm]; [lia|].
      rewrite (nth_of_lookup a mid m Hm).
      destruct (Qltb v m) eqn:Hcmp.
      * apply Qltb_lt in Hcmp.
        apply IH; [lia|lia|lia|assumption|].
        intros j x Hj Hx. eapply Qlt_le_trans; [exact Hcmp|].
        apply (sorted_lookup a mid j); assumption.
      * apply Qltb_ge in Hcmp.
        apply IH; [lia|lia|lia| |assumption].
        intros j x Hj Hx. eapply Qle_trans; [|exact Hcmp].
        apply (sorted_lookup a j mid); [assumption|lia|assumption|assumption].
    + apply Nat.ltb_ge in Hlt. assert (lo = hi) by lia. subst hi.
      repeat split; [lia|assumption|assumption].
Qed.

Lemma searchsorted_right_correct (a : list Q) (v : Q) :
  sorted a -> right_insertion_index a v (searchsorted_right a v).
Proof.
  intros Hs. unfold searchsorted_right.
  apply bisect_right_correct; [assumption|lia|lia|lia| |].
  - intros j x Hj. lia.
  - intros j x Hj Hx. apply lookup_lt_Some in Hx. lia.
Qed.

(** The right-insertion index grows with the value. *)
Lemma right_insertion_index_mono (a : list Q) (v w : Q) (i j : nat) :
  right_insertion_index a v i -> right_insertion_index a w j ->
  (v <= w)%Q -> (i <= j)%nat.
Proof.
  intros [Hi [Hlo _]] [Hj [_ Hhi]] Hvw.
  destruct (le_lt_dec i j) as [|Hlt]; [assumption|exfalso].
  destruct (lookup_lt_is_Some_2 a j) as [x Hx]; [lia|].
  specialize (Hlo j x Hlt Hx). specialize (Hhi j x (Nat.le_refl j) Hx).
  apply (Qlt_not_le _ _ Hhi). eapply Qle_trans; eassumption.
Qed.

Lemma compute_percentile_unfold (v : Q) (a : list Q) (d : string) :
  a <> [] ->
  compute_percentile v a d =
    PNum (directed d (percentile_base (Z.of_nat (length a))
                        (Z.of_nat (searchsorted_right a v)))).
Proof.
  intros Ha. unfold compute_percentile, directed, percentile_base, clamp.
  destruct (Z.of_nat (length a) =? 0) eqn:E0.
  { apply Z.eqb_eq in E0. destruct a; [congruence|cbn in E0; lia]. }
  destruct (Z.of_nat (length a) =? 1) eqn:E1.
  { destruct (String.eqb d "lower"); reflexivity. }
  set (n := Z.of_nat (length a)) in *.
  set (r := Z.of_nat (searchsorted_right a v)).
  assert (Hclamp : (if n <? (if r <? 1 then 1 else r) then n
                    else if r <? 1 then 1 else r) = Z.min n (Z.max 1 r)).
  { apply Z.eqb_neq in E0, E1.
    assert (1 < n) by (unfold n in *; lia).
    destruct (r <? 1) eqn:Er; [apply Z.ltb_lt in Er|apply Z.ltb_ge in Er].
    - destruct (n <? 1) eqn:En; [apply Z.ltb_lt in En|apply Z.ltb_ge in En]; lia.
    - destruct (n <? r) eqn:En; [apply Z.ltb_lt in En|apply Z.ltb_ge in En]; lia. }
  rewrite Hclamp. destruct (String.eqb d "lower"); reflexivity.
Qed.

Lemma right_insertion_index_unique (a : list Q) (v : Q) (i j : nat) :
  right_insertion_index a v i -> right_insertion_index a v j -> i = j.
Proof.
  intros Hi Hj.
  pose proof (right_insertion_index_mono a v v i j Hi Hj (Qle_refl v)).
  pose proof (right_insertion_index_mono a v v j i Hj Hi (Qle_refl v)).
  lia.
Qed.

(** C1: on a non-empty ascending array of size [n] the right-insertion index
    of [v] exists and is unique, and for that rank [compute_percentile]
    returns [1 - base] for the direction [lower] and [base] for [higher],
    where [base] is [1] when [n = 1] and
    [(clamp 1 n rank - 1) / (n - 1)] otherwise. *)
Theorem compute_percentile_spec (v : Q) (a : list Q) (d : string) :
  a <> [] -> sorted a -> d = "lower" \/ d = "higher" ->
  let n := Z.of_nat (length a) in
  (exists rank, right_insertion_index a v rank)
  /\ forall rank,
       right_insertion_index a v rank ->
       let base :=
         if n =? 1 then 1%Q
         else (inject_Z (clamp 1 n (Z.of_nat rank) - 1) / inject_Z (n - 1))%Q in
       compute_percentile v a d
       = PNum (if String.eqb d "lower" then (1 - base)%Q else base).
Proof.
  intros Ha Hs _ n.
  pose proof (searchsorted_right_correct a v Hs) as Hr.
  split; [eexists; exact Hr|].
  intros rank Hrank.
  rewrite (right_insertion_index_unique a v _ _ Hrank Hr).
  rewrite compute_percentile_unfold by assumption.
  reflexivity.
Qed.

(** The example of the specification: [{10, 20, 30}], lower is better, query
    [20]: rank [2], percentile [1 - (2 - 1) / (3 - 1) = 0.5]. *)
Lemma compute_percentile_example :
  right_insertion_index [10; 20; 30]%Q 20%Q 2
  /\ compute_percentile 20%Q [10; 20; 30]%Q "lower"
     = PNum (1 - inject_Z (2 - 1) / inject_Z (3 - 1))%Q
  /\ (1 - inject_Z (2 - 1) / inject_Z (3 - 1) == 1 # 2)%Q.
Proof.
  assert (Hrank : right_insertion_index [10; 20; 30]%Q 20%Q 2)
    by exact (searchsorted_right_correct [10; 20; 30]%Q 20%Q eq_refl).
  split; [exact Hrank|]. split.
  - exact (proj2 (compute_percentile_spec 20%Q [10; 20; 30]%Q "lower"
                    ltac:(discriminate) eq_refl (or_introl eq_refl)) 2%nat Hrank).
  - reflexivity.
Defined.

Lemma Qdiv_le_mono_Z (x y c : Z) :
  x <= y -> 0 < c -> (inject_Z x / inject_Z c <= inject_Z y / inject_Z c)%Q.
Proof.
  intros Hxy Hc. unfold Qdiv. apply Qmult_le_compat_r.
  - rewrite <- Zle_Qle. assumption.
  - apply Qinv_le_0_compat. change 0%Q with (inject_Z 0). rewrite <- Zle_Qle. lia.
Qed.

Lemma percentile_base_mono (n r1 r2 : Z) :
  0 < n -> r1 <= r2 -> (percentile_base n r1 <= percentile_base n r2)%Q.
Proof.
  intros Hn Hr. unfold percentile_base, clamp.
  destruct (n =? 1) eqn:E; [apply Qle_refl|].
  apply Z.eqb_neq in E. apply Qdiv_le_mono_Z; lia.
Qed.

Lemma percentile_base_bounds (n r : Z) :
  0 < n -> (0 <= percentile_base n r <= 1)%Q.
Proof.
  intros Hn. unfold percentile_base, clamp.
  destruct (n =? 1) eqn:E; [split; discriminate|].
  apply Z.eqb_neq in E.
  assert (H0 : (inject_Z 0 / inject_Z (n - 1) == 0)%Q) by reflexivity.
  assert (H1 : (inject_Z (n - 1) / inject_Z (n - 1) == 1)%Q).
  { apply Qmult_inv_r. change 0%Q with (inject_Z 0). rewrite inject_Z_injective. lia. }
  split.
  - rewrite <- H0. apply Qdiv_le_mono_Z; lia.
  - rewrite <- H1. apply Qdiv_le_mono_Z; lia.
Qed.

(** C4: for a fixed non-empty ascending array and the direction [lower],
    a smaller achieved value never gets a smaller percentile. *)
Theorem compute_percentile_monotone (a : list Q) (va vb : Q) :
  a <> [] -> sorted a -> (va < vb)%Q ->
  exists pa pb,
    compute_percentile va a "lower" = PNum pa
    /\ compute_percentile vb a "lower" = PNum pb
    /\ (pb <= pa)%Q.
Proof.
  intros Ha Hs Hlt.
  rewrite !compute_percentile_unfold by assumption.
  do 2 eexists. split; [reflexivity|]. split; [reflexivity|].
  pose proof (right_insertion_index_mono a va vb _ _
                (searchsorted_right_correct a va Hs)
                (searchsorted_right_correct a vb Hs) (Qlt_le_weak _ _ Hlt)) as Hrank.
  assert (Hn : 0 < Z.of_nat (length a)) by (destruct a; [congruence|cbn; lia]).
  pose proof (percentile_base_mono (Z.of_nat (length a))
                (Z.of_nat (searchsorted_right a va))
                (Z.of_nat (searchsorted_right a vb)) Hn ltac:(lia)) as Hb.
  unfold directed. change (String.eqb "lower" "lower") with true. cbn iota.
  set (ba := percentile_base _ (Z.of_nat (searchsorted_right a va))) in *.
  set (bb := percentile_base _ (Z.of_nat (searchsorted_right a vb))) in *.
  clearbody ba bb. lra.
Qed.

Lemma compute_percentile_monotone_example :
  exists pa pb,
    compute_percentile 10%Q [10; 20; 30]%Q "lower" = PNum pa
    /\ compute_percentile 30%Q [10; 20; 30]%Q "lower" = PNum pb
    /\ (pb <= pa)%Q.
Proof.
  apply (compute_percentile_monotone [10; 20; 30]%Q 10%Q 30%Q);
    [discriminate|reflexivity|reflexivity].
Defined.

(** ** C2, C3: the plan score *)

Lemma compute_percentile_bounds (v : Q) (a : list Q) (d : string) :
  a <> [] -> exists p, compute_percentile v a d = PNum p /\ (0 <= p <= 1)%Q.
Proof.
  intros Ha. rewrite compute_percentile_unfold by assumption.
  eexists. split; [reflexivity|].
  assert (Hn : 0 < Z.of_nat (length a)) by (destruct a; [congruence|cbn; lia]).
  pose proof (percentile_base_bounds (Z.of_nat (length a))
                (Z.of_nat (searchsorted_right a v)) Hn) as Hb.
  set (b := percentile_base _ _) in *. clearbody b.
  unfold directed. destruct (String.eqb d "lower"); lra.
Qed.

Lemma score_step_weight dists dirs ws acc kv :
  (score_step dists dirs ws acc kv).1 =
    match usable_weight dists dirs ws kv with
    | Some weight => (acc.1 + weight)%Q
    | None => acc.1
    end.
Proof.
  unfold score_step, usable_weight.
  destruct (dists !! kv.1), (dirs !! kv.1), (ws !! kv.1); reflexivity.
Qed.

Lemma omap_cons {A B : Type} (f : A -> option B) (x : A) (l : list A) :
  omap f (x :: l) = match f x with Some y => y :: omap f l | None => omap f l end.
Proof. reflexivity. Qed.

Lemma score_loop_weight dists dirs ws items acc :
  ((fold_left (score_step dists dirs ws) items acc).1
   == acc.1 + Qsum (omap (usable_weight dists dirs ws) items))%Q.
Proof.
  revert acc. induction items as [|kv items IH]; intros acc.
  - cbn. lra.
  - cbn [fold_left]. rewrite IH, score_step_weight, omap_cons.
    destruct (usable_weight dists dirs ws kv) as [weight|]; [|reflexivity].
    unfold Qsum. cbn [fold_right].
    set (rest := fold_right Qplus 0%Q _). clearbody rest. lra.
Qed.

Lemma score_loop_bounds dists dirs ws items w0 s0 :
  reference_wf dists ws -> (0 <= s0 <= w0)%Q ->
  exists w s,
    fold_left (score_step dists dirs ws) items (w0, PNum s0) = (w, PNum s)
    /\ (0 <= s <= w)%Q.
Proof.
  intros [Hd Hw]. revert w0 s0.
  induction items as [|kv items IH]; intros w0 s0 H0; [eauto|].
  cbn [fold_left]. unfold score_step at 2.
  destruct (dists !! kv.1) as [dist|] eqn:Edist; [|apply IH; assumption].
  destruct (dirs !! kv.1) as [direction|]; [|apply IH; assumption].
  destruct (ws !! kv.1) as [weight|] eqn:Ew; [|apply IH; assumption].
  destruct (compute_percentile_bounds kv.2 dist direction (Hd _ _ Edist)) as [p [Hp Hb]].
  rewrite Hp. cbn. apply IH.
  pose proof (Hw _ _ Ew). nra.
Qed.

Lemma score_in_unit_interval plan dists dirs ws score :
  reference_wf dists ws ->
  compute_plan_score plan dists dirs ws = Some score ->
  exists q, score = PNum q /\ (0 <= q <= 1)%Q.
Proof.
  intros Hwf. unfold compute_plan_score, score_loop.
  pose proof (score_loop_weight dists dirs ws (map_to_list plan) (0%Q, PNum 0%Q)) as Hsum.
  destruct (score_loop_bounds dists dirs ws (map_to_list plan) 0%Q 0%Q Hwf)
    as [w [s [Hfold Hb]]]; [lra|].
  rewrite Hfold in *. cbn in Hsum.
  destruct (Qeq_bool w 0) eqn:E; [discriminate|].
  intros [= <-]. cbn. eexists. split; [reflexivity|].
  apply Qeq_bool_neq in E.
  assert (Hpos : (0 < w)%Q) by (destruct Hb; apply Qle_lt_or_eq in H0; lra).
  split.
  - apply Qle_shift_div_l; [assumption|lra].
  - apply Qle_shift_div_r; [assumption|lra].
Qed.

Lemma np_sort_length (l : list Q) : length (np_sort l) = length l.
Proof.
  assert (Hins : forall x l', length (insert_sorted x l') = S (length l')).
  { intros x l'. induction l' as [|y l' IH]; [reflexivity|].
    cbn. destruct (Qle_bool x y); cbn; [reflexivity|]. rewrite IH. reflexivity. }
  induction l as [|x l IH]; [reflexivity|].
  cbn. rewrite Hins. f_equal. exact IH.
Qed.

Lemma Qle_bool_false (x y : Q) : Qle_bool x y = false -> (y <= x)%Q.
Proof.
  intros H. apply Qlt_le_weak, Qnot_le_lt. intros Hle.
  apply Qle_bool_iff in Hle. congruence.
Qed.

Lemma sortedb_cons (x : Q) (l : list Q) :
  Forall (Qle x) l -> sortedb l = true -> sortedb (x :: l) = true.
Proof.
  intros Hall Hs. destruct l as [|y l]; [reflexivity|].
  change (Qle_bool x y && sortedb (y :: l) = true).
  inversion Hall as [|? ? Hxy _]; subst. apply Qle_bool_iff in Hxy.
  rewrite Hxy, Hs. reflexivity.
Qed.

Lemma insert_sorted_Forall (P : Q -> Prop) (x : Q) (l : list Q) :
  P x -> Forall P l -> Forall P (insert_sorted x l).
Proof.
  intros Hx Hl. induction Hl as [|y l Hy Hl IH]; cbn [insert_sorted].
  - repeat constructor. assumption.
  - destruct (Qle_bool x y); repeat constructor; assumption.
Qed.

Lemma insert_sorted_sorted (x : Q) (l : list Q) :
  sortedb l = true -> sortedb (insert_sorted x l) = true.
Proof.
  induction l as [|y l IH]; intros Hs; [reflexivity|].
  cbn [insert_sorted]. destruct (sortedb_head y l Hs) as [Hall Hs'].
  destruct (Qle_bool x y) eqn:E.
  - apply Qle_bool_iff in E. apply sortedb_cons; [|assumption].
    constructor; [assumption|].
    eapply List.Forall_impl; [|exact Hall].
    intros z Hz. cbn in *. eapply Qle_trans; eassumption.
  - apply Qle_bool_false in E. apply sortedb_cons; [|apply IH; assumption].
    apply insert_sorted_Forall; assumption.
Qed.

(** [np_sort] returns an ascending array. *)
Lemma np_sort_sorted (l : list Q) : sorted (np_sort l).
Proof.
  unfold sorted, np_sort. induction l as [|x l IH]; [reflexivity|].
  cbn [fold_right]. apply insert_sorted_sorted. exact IH.
Qed.

(** The distributions of a built reference are ascending and non-empty, which
    is what [compute_percentile] is specified on. *)
Lemma build_reference_distributions (column : list (option plan_vector))
    (constraint_lookup : gmap string meta) (dirs : gmap string string)
    (ws : gmap string Q) (k : string) (values : list Q) :
  distributions (build_reference_from_plan_constraints column constraint_lookup dirs ws)
    !! k = Some values ->
  values <> [] /\ sorted values.
Proof.
  unfold build_reference_from_plan_constraints. cbn [distributions].
  rewrite lookup_omap.
  destruct (pool_column column _ !! k) as [vs|]; [|discriminate].
  cbn. destruct vs as [|x vs]; [discriminate|].
  intros [= <-]. split; [|exact (np_sort_sorted (x :: vs))].
  intros Hnil. change (np_sort (x :: vs) = []) in Hnil.
  pose proof (np_sort_length (x :: vs)) as Hlen.
  rewrite Hnil in Hlen. discriminate Hlen.
Qed.

Lemma res_fold_raise {A B : Type} (f : res A -> B -> res A) (l : list B) (e : exn) :
  (forall x, f (Raise e) x = Raise e) -> fold_left f l (Raise e) = Raise e.
Proof.
  intros Hf. induction l as [|x l IH]; [reflexivity|].
  cbn [fold_left]. rewrite Hf. exact IH.
Qed.

Lemma float_of_int_positive (z : Z) (x : Q) :
  0 < z -> float_of_int z = Ok x -> (0 < 1 / x)%Q.
Proof.
  unfold float_of_int. intros Hz.
  destruct (Z.abs z <? float_overflow_bound); [|discriminate].
  intros [= <-]. apply Qlt_shift_div_l.
  - change 0%Q with (inject_Z 0). rewrite <- Zlt_Qlt. assumption.
  - lra.
Qed.

(** The loop of [build_constraint_context] stores positive weights only. *)
Lemma context_fold_positive (items : list (string * meta))
    (acc dw : gmap string string * gmap string Q) :
  (forall k w, acc.2 !! k = Some w -> (0 < w)%Q) ->
  fold_left context_step items (Ok acc) = Ok dw ->
  forall k w, dw.2 !! k = Some w -> (0 < w)%Q.
Proof.
  revert acc. induction items as [|item items IH]; intros acc Hacc; cbn [fold_left].
  - intros [= <-]. exact Hacc.
  - unfold context_step at 2. cbn [res_bind].
    destruct (direction_from_operator (m_goal_operator item.2)) as [direction|];
      [|apply IH; assumption].
    destruct (m_priority item.2) as [priority|]; [|apply IH; assumption].
    destruct (0 <? priority) eqn:Ep; [|apply IH; assumption].
    apply Z.ltb_lt in Ep.
    destruct (float_of_int priority) as [p|e] eqn:Ef; cbn [res_bind].
    + apply IH. cbn [snd]. intros k w Hk.
      destruct (decide (item.1 = k)) as [E|Hne].
      * subst k. rewrite lookup_insert_eq in Hk. injection Hk as <-.
        eapply float_of_int_positive; eassumption.
      * rewrite lookup_insert_ne in Hk by assumption. eapply Hacc. eassumption.
    + rewrite res_fold_raise by reflexivity. discriminate.
Qed.

(** The references that the builders produce satisfy the invariants. *)
Lemma protocol_reference_wf (int_of_string : string -> option Z) (float_str : Q -> string)
    (constraints : list constraint) (column : list (option plan_vector))
    (ref : reference) :
  protocol_reference int_of_string float_str constraints column = Ok ref ->
  reference_wf (distributions ref) (weights ref).
Proof.
  unfold protocol_reference, build_constraint_context.
  destruct (fold_left context_step _ _) as [dw|e] eqn:Efold; [|discriminate].
  cbn [res_bind fst snd]. intros [= <-].
  split.
  - intros k values Hk. eapply build_reference_distributions. exact Hk.
  - cbn [weights build_reference_from_plan_constraints].
    eapply context_fold_positive; [|exact Efold].
    intros k w Hk. cbn in Hk. rewrite lookup_empty in Hk. discriminate.
Qed.

(** C2: whenever [compute_plan_score] returns a score for a plan vector
    against a reference built from a protocol's constraints and a population
    of plan vectors, that score is a number in the closed interval [0, 1]. *)
Theorem plan_score_in_unit_interval (int_of_string : string -> option Z)
    (float_str : Q -> string) (constraints : list constraint)
    (column : list (option plan_vector)) (ref : reference)
    (plan : plan_vector) (score : pfloat) :
  protocol_reference int_of_string float_str constraints column = Ok ref ->
  compute_plan_score plan (distributions ref) (directions ref) (weights ref) = Some score ->
  exists q, score = PNum q /\ (0 <= q <= 1)%Q.
Proof.
  intros Href. apply score_in_unit_interval.
  eapply protocol_reference_wf. eassumption.
Qed.

Lemma total_usable_weight_disjoint plan dists dirs ws :
  (forall k v, plan !! k = Some v -> dists !! k = None) ->
  omap (usable_weight dists dirs ws) (map_to_list plan) = [].
Proof.
  intros Hdis.
  assert (H : forall items,
             Forall (fun kv => dists !! kv.1 = None) items ->
             omap (usable_weight dists dirs ws) items = []).
  { induction 1 as [|kv items Hkv _ IH]; [reflexivity|].
    cbn. unfold usable_weight at 1. rewrite Hkv. exact IH. }
  apply H. apply List.Forall_forall. intros [k v] Hin.
  apply list_elem_of_In, elem_of_map_to_list in Hin. cbn. eauto.
Qed.

Lemma score_absent_of_zero_weight plan dists dirs ws :
  (total_usable_weight plan dists dirs ws == 0)%Q ->
  compute_plan_score plan dists dirs ws = None.
Proof.
  intros Hzero. unfold compute_plan_score, score_loop.
  pose proof (score_loop_weight dists dirs ws (map_to_list plan) (0%Q, PNum 0%Q)) as Hsum.
  destruct (fold_left _ _ _) as [w s]. cbn in Hsum.
  fold (total_usable_weight plan dists dirs ws) in Hsum.
  assert (E : Qeq_bool w 0 = true) by (apply Qeq_bool_iff; lra).
  rewrite E. reflexivity.
Qed.

(** C3: when the plan vector shares no key with the distributions of the
    reference, and more generally when the total usable weight is zero,
    [compute_plan_score] returns the absent value, and so not the number 0. *)
Theorem compute_plan_score_absent (plan : plan_vector) (dists : gmap string (list Q))
    (dirs : gmap string string) (ws : gmap string Q) :
  (forall k v, plan !! k = Some v -> dists !! k = None)
  \/ (total_usable_weight plan dists dirs ws == 0)%Q ->
  compute_plan_score plan dists dirs ws = None
  /\ compute_plan_score plan dists dirs ws <> Some (PNum 0%Q).
Proof.
  intros H.
  assert (Hzero : (total_usable_weight plan dists dirs ws == 0)%Q).
  { destruct H as [Hdis|Hz]; [|assumption].
    unfold total_usable_weight. rewrite total_usable_weight_disjoint by assumption.
    reflexivity. }
  rewrite (score_absent_of_zero_weight plan dists dirs ws Hzero).
  split; [reflexivity|discriminate].
Qed.

(** The converse: an absent score means that the usable weight is zero. *)
Lemma compute_plan_score_absent_iff plan dists dirs ws :
  compute_plan_score plan dists dirs ws = None
  <-> (total_usable_weight plan dists dirs ws == 0)%Q.
Proof.
  split; [|apply score_absent_of_zero_weight].
  unfold compute_plan_score, score_loop, total_usable_weight.
  pose proof (score_loop_weight dists dirs ws (map_to_list plan) (0%Q, PNum 0%Q)) as Hsum.
  destruct (fold_left _ _ _) as [w s]. cbn in Hsum.
  destruct (Qeq_bool w 0) eqn:E; [|discriminate].
  intros _. apply Qeq_bool_iff in E. lra.
Qed.

Lemma plan_score_in_unit_interval_example :
  compute_plan_score sample_plan (distributions sample_reference)
    (directions sample_reference) (weights sample_reference) = Some (PNum (2 # 4))
  /\ exists q, PNum (2 # 4) = PNum q /\ (0 <= q <= 1)%Q.
Proof.
  split; [vm_compute; reflexivity|].
  apply (plan_score_in_unit_interval (fun _ => None) (fun _ => "") [sample_constraint]
           sample_column sample_reference sample_plan (PNum (2 # 4)));
    vm_compute; reflexivity.
Defined.

Lemma compute_plan_score_absent_example :
  compute_plan_score foreign_plan (distributions sample_reference)
    (directions sample_reference) (weights sample_reference) = None
  /\ compute_plan_score foreign_plan (distributions sample_reference)
       (directions sample_reference) (weights sample_reference) <> Some (PNum 0%Q).
Proof.
  apply compute_plan_score_absent. left.
  apply (bool_decide_unpack
           (map_Forall (fun k _ => distributions sample_reference !! k = None) foreign_plan)).
  vm_compute. exact I.
Defined.

(** ** C6: the structure resolver *)

Lemma truthy_Some (s : string) : truthy (Some s) = true <-> s <> "".
Proof.
  unfold truthy. rewrite negb_true_iff. split.
  - intros H ->. discriminate.
  - intros H. apply String.eqb_neq. assumption.
Qed.

Lemma truthy_inv (o : option string) :
  truthy o = true -> exists s, o = Some s /\ s <> "".
Proof.
  destruct o as [s|]; [|discriminate].
  intros H. exists s. split; [reflexivity|]. apply truthy_Some. assumption.
Qed.

Lemma ratio_nonneg (raw_tokens : gset string) (c : string) : (0 <= ratio raw_tokens c)%Q.
Proof.
  unfold ratio, Qdiv. apply Qmult_le_0_compat.
  - change 0%Q with (inject_Z 0). rewrite <- Zle_Qle. lia.
  - apply Qinv_le_0_compat. change 0%Q with (inject_Z 0). rewrite <- Zle_Qle. lia.
Qed.

Lemma ratio_no_tokens (raw_tokens : gset string) (c : string) :
  size (token_set c) = 0%nat -> (ratio raw_tokens c == 0)%Q.
Proof.
  intros H. apply size_empty_iff in H. apply leibniz_equiv in H.
  unfold ratio. rewrite H.
  assert (E : raw_tokens ∩ ∅ = (∅ : gset string)) by apply intersection_empty_r_L.
  rewrite E, size_empty. change (inject_Z (Z.of_nat 0)) with 0%Q. unfold Qdiv. lra.
Qed.

Lemma overlap_score_ratio (raw_tokens : gset string) (c : string) :
  size (token_set c) <> 0%nat ->
  overlap_score raw_tokens (token_set c) = Ok (ratio raw_tokens c).
Proof.
  intros H. unfold overlap_score, py_div, ratio.
  destruct (Z.max _ _ =? 0) eqn:E; [|reflexivity].
  apply Z.eqb_eq in E. lia.
Qed.

Lemma fuzzy_inv_score_nonneg raw_tokens seen best :
  fuzzy_inv raw_tokens seen best -> (0 <= best.2)%Q.
Proof.
  unfold fuzzy_inv. destruct best as [[c|] bs]; cbn.
  - intros (i & k & _ & _ & H & _). lra.
  - intros [-> _]. lra.
Qed.

(** A candidate that does not beat the best score keeps the invariant. *)
Lemma fuzzy_inv_keep raw_tokens seen best item :
  fuzzy_inv raw_tokens seen best ->
  (ratio raw_tokens item.2 <= best.2)%Q ->
  fuzzy_inv raw_tokens (seen ++ [item]) best.
Proof.
  unfold fuzzy_inv. destruct best as [[c|] bs]; cbn.
  - intros (i & k & Hi & Hbs & Hpos & Hmax & Hfirst) Hle.
    exists i, k. split; [|split; [assumption|split; [assumption|split]]].
    + rewrite lookup_app_l; [assumption|]. eapply lookup_lt_Some. eassumption.
    + intros j kc Hj. apply lookup_snoc_Some in Hj.
      destruct Hj as [[_ Hj]|[_ <-]]; [eapply Hmax; eassumption|assumption].
    + intros j kc Hji Hj. apply lookup_snoc_Some in Hj.
      destruct Hj as [[_ Hj]|[Hlen _]]; [eapply Hfirst; eassumption|].
      apply lookup_lt_Some in Hi. lia.
  - intros [-> Hall] Hle. split; [reflexivity|].
    intros j kc Hj. apply lookup_snoc_Some in Hj.
    destruct Hj as [[_ Hj]|[_ <-]]; [eapply Hall; eassumption|assumption].
Qed.

(** A candidate that beats the best score becomes the first maximum. *)
Lemma fuzzy_inv_take raw_tokens seen best item :
  fuzzy_inv raw_tokens seen best ->
  (best.2 < ratio raw_tokens item.2)%Q ->
  fuzzy_inv raw_tokens (seen ++ [item]) (Some item.2, ratio raw_tokens item.2).
Proof.
  intros Hinv Hlt.
  pose proof (fuzzy_inv_score_nonneg _ _ _ Hinv) as Hnn.
  assert (Hprev : forall j kc, seen !! j = Some kc -> (ratio raw_tokens kc.2 <= best.2)%Q).
  { unfold fuzzy_inv in Hinv. destruct best as [[c|] bs]; cbn in *.
    - destruct Hinv as (i & k & _ & _ & _ & Hmax & _). exact Hmax.
    - destruct Hinv as [-> Hall]. exact Hall. }
  unfold fuzzy_inv. cbn.
  exists (length seen), item.1. split; [|split; [reflexivity|split; [lra|split]]].
  - rewrite list_lookup_middle by reflexivity. destruct item; reflexivity.
  - intros j kc Hj. apply lookup_snoc_Some in Hj.
    destruct Hj as [[_ Hj]|[_ <-]]; [|lra].
    specialize (Hprev j kc Hj). lra.
  - intros j kc Hlen Hj. rewrite lookup_app_l in Hj by assumption.
    specialize (Hprev j kc Hj). lra.
Qed.

Lemma fuzzy_step_inv raw_tokens seen best item :
  fuzzy_inv raw_tokens seen best ->
  exists best',
    fuzzy_step raw_tokens (Ok best) item = Ok best'
    /\ fuzzy_inv raw_tokens (seen ++ [item]) best'.
Proof.
  intros Hinv. unfold fuzzy_step. cbn [res_bind].
  destruct (size (token_set item.2) =? 0)%nat eqn:E.
  - apply Nat.eqb_eq in E. exists best. split; [reflexivity|].
    apply fuzzy_inv_keep; [assumption|].
    rewrite (ratio_no_tokens raw_tokens item.2 E).
    exact (fuzzy_inv_score_nonneg _ _ _ Hinv).
  - apply Nat.eqb_neq in E. rewrite overlap_score_ratio by assumption. cbn [res_bind].
    destruct (Qltb best.2 (ratio raw_tokens item.2)) eqn:Hcmp.
    + apply Qltb_lt in Hcmp. eexists. split; [reflexivity|].
      apply (fuzzy_inv_take raw_tokens seen best); assumption.
    + apply Qltb_ge in Hcmp. exists best. split; [reflexivity|].
      apply fuzzy_inv_keep; assumption.
Qed.

Lemma fuzzy_fold_inv raw_tokens rest seen best :
  fuzzy_inv raw_tokens seen best ->
  exists best',
    fold_left (fuzzy_step raw_tokens) rest (Ok best) = Ok best'
    /\ fuzzy_inv raw_tokens (seen ++ rest) best'.
Proof.
  revert seen best. induction rest as [|item rest IH]; intros seen best Hinv.
  - exists best. rewrite app_nil_r. split; [reflexivity|assumption].
  - cbn [fold_left].
    destruct (fuzzy_step_inv raw_tokens seen best item Hinv) as [best1 [Hstep Hinv1]].
    rewrite Hstep. destruct (IH _ _ Hinv1) as [best' [Hfold Hinv']].
    exists best'. split; [assumption|]. rewrite <- app_assoc in Hinv'. exact Hinv'.
Qed.

Lemma fuzzy_loop_choice raw_tokens items :
  exists best,
    fuzzy_loop raw_tokens items = Ok best
    /\ fuzzy_choice raw_tokens items
         (if truthy best.1 && Qltb 0 best.2 then best.1 else None).
Proof.
  destruct (fuzzy_fold_inv raw_tokens items [] (None, 0%Q)) as [best [Hfold Hinv]].
  { split; [reflexivity|]. intros j kc Hj. discriminate. }
  exists best. split; [exact Hfold|]. cbn [app] in Hinv.
  unfold fuzzy_inv in Hinv. destruct best as [[c|] bs]; cbn in *.
  - destruct Hinv as (i & k & Hi & -> & Hpos & Hmax & Hfirst).
    assert (Hc : negb (String.eqb c "") = true).
    { apply negb_true_iff, String.eqb_neq. intros ->.
      rewrite (ratio_no_tokens raw_tokens "" eq_refl) in Hpos. lra. }
    rewrite Hc. apply Qltb_lt in Hpos as Hb. rewrite Hb. cbn.
    exists i, k. repeat split; assumption.
  - destruct Hinv as [_ Hall]. exact Hall.
Qed.

Lemma resolve_structure_returns (raw_name : option string)
    (alias_map : gmap string string) (protocol_structure_map : list (string * string)) :
  exists o, resolve_structure raw_name alias_map protocol_structure_map = Ok o.
Proof.
  unfold resolve_structure.
  destruct (negb (truthy raw_name)); [eauto|].
  destruct (negb (truthy (normalize_text raw_name))); [eauto|].
  destruct (truthy (normalize_text raw_name ≫= _)); [eauto|].
  destruct (truthy (normalize_text raw_name ≫= _)); [eauto|].
  destruct (size _ =? 0)%nat; [eauto|].
  destruct (fuzzy_loop_choice (token_set (default "" raw_name)) protocol_structure_map)
    as [best [Hloop _]].
  rewrite Hloop. cbn [res_bind]. destruct (truthy best.1 && Qltb 0 best.2); eauto.
Qed.

(** C6: [resolve_structure] returns for every label, alias table and
    vocabulary (it never raises), and what it returns is the outcome of the
    three steps in priority order: the non-empty alias of the normalized
    label, else the non-empty vocabulary entry of the normalized label, else
    the first candidate in iteration order whose token-overlap ratio is
    positive and highest; it is absent when no step succeeds. *)
Theorem resolve_structure_spec (raw_name : option string)
    (alias_map : gmap string string) (protocol_structure_map : list (string * string)) :
  exists o,
    resolve_structure raw_name alias_map protocol_structure_map = Ok o
    /\ resolution raw_name alias_map protocol_structure_map o.
Proof.
  unfold resolve_structure.
  destruct (truthy raw_name) eqn:Hraw; cbn [negb].
  2:{ exists None. split; [reflexivity|]. constructor. left. assumption. }
  destruct (truthy (normalize_text raw_name)) eqn:Hnorm; cbn [negb].
  2:{ exists None. split; [reflexivity|]. constructor. right. assumption. }
  destruct (truthy_inv _ Hraw) as [raw [-> Hrawne]].
  destruct (truthy_inv _ Hnorm) as [normalized [Hn Hnne]].
  rewrite Hn. cbn [mbind option_bind].
  destruct (truthy (alias_map !! normalized)) eqn:Halias.
  { destruct (truthy_inv _ Halias) as [alias [Ha Hane]].
    exists (Some alias). rewrite Ha. split; [reflexivity|].
    eapply resolution_alias; eassumption. }
  destruct (truthy (dict_get normalized protocol_structure_map)) eqn:Hdirect.
  { destruct (truthy_inv _ Hdirect) as [direct [Hd Hdne]].
    exists (Some direct). rewrite Hd. split; [reflexivity|].
    eapply resolution_direct; eassumption. }
  cbn [default from_option]. unfold id.
  destruct (size (token_set raw) =? 0)%nat eqn:Htok.
  - exists None. split; [reflexivity|].
    apply (resolution_fuzzy _ _ _ raw normalized None); try assumption; [reflexivity|].
    unfold fuzzy_choice. intros j kc _. apply Nat.eqb_eq, size_empty_iff, leibniz_equiv in Htok.
    unfold ratio. rewrite Htok.
    assert (E : ∅ ∩ token_set kc.2 = (∅ : gset string)) by apply intersection_empty_l_L.
    rewrite E, size_empty. change (inject_Z (Z.of_nat 0)) with 0%Q. unfold Qdiv. lra.
  - destruct (fuzzy_loop_choice (token_set raw) protocol_structure_map)
      as [best [Hloop Hchoice]].
    rewrite Hloop. cbn [res_bind].
    exists (if truthy best.1 && Qltb 0 best.2 then best.1 else None).
    split; [destruct (truthy best.1 && Qltb 0 best.2); reflexivity|].
    apply (resolution_fuzzy _ _ _ raw normalized); try assumption. reflexivity.
Qed.

(** The outcome of the three steps is unique: the resolver computes a
    function of its inputs. *)
Lemma fuzzy_choice_unique (raw_tokens : gset string) (items : list (string * string))
    (o o' : option string) :
  fuzzy_choice raw_tokens items o -> fuzzy_choice raw_tokens items o' -> o = o'.
Proof.
  assert (Hnone : forall c, fuzzy_choice raw_tokens items (Some c) ->
                            fuzzy_choice raw_tokens items None -> False).
  { intros c (i & k & Hi & Hpos & _) Hall.
    specialize (Hall i (k, c) Hi). cbn in Hall. lra. }
  destruct o as [c|], o' as [c'|]; intros H H'.
  - destruct H as (i & k & Hi & _ & Hmax & Hfirst).
    destruct H' as (i' & k' & Hi' & _ & Hmax' & Hfirst').
    destruct (lt_eq_lt_dec i i') as [[Hlt|Heq]|Hgt].
    + specialize (Hfirst' i (k, c) Hlt Hi). specialize (Hmax i' (k', c') Hi').
      cbn in *. lra.
    + subst i'. congruence.
    + specialize (Hfirst i' (k', c') Hgt Hi'). specialize (Hmax' i (k, c) Hi).
      cbn in *. lra.
  - exfalso. eauto.
  - exfalso. eauto.
  - reflexivity.
Qed.

Lemma resolution_unique (raw_name : option string) (alias_map : gmap string string)
    (protocol_structure_map : list (string * string)) (o o' : option string) :
  resolution raw_name alias_map protocol_structure_map o ->
  resolution raw_name alias_map protocol_structure_map o' -> o = o'.
Proof.
  assert (Htruthy : forall s, s <> "" -> truthy (Some s) = true)
    by (intros s Hs; apply truthy_Some; assumption).
  intros H H'.
  destruct H as [[Hr|Hn]|n a Hr Hn Hne Ha Hane|n d Hr Hn Hne Ha Hd Hdne
                 |raw n o Hr Hrne Hn Hne Ha Hd Hf];
    destruct H' as [[Hr'|Hn']|n' a' Hr' Hn' Hne' Ha' Hane'|n' d' Hr' Hn' Hne' Ha' Hd' Hdne'
                    |raw' n' o' Hr' Hrne' Hn' Hne' Ha' Hd' Hf'];
    try reflexivity;
    try (subst raw_name);
    try (rewrite Hn in *);
    try (match goal with
         | H1 : Some ?x = Some ?y |- _ => injection H1 as H1; subst
         end);
    try (match goal with
         | H1 : Some ?x = Some ?y |- _ => injection H1 as H1; subst
         end);
    try congruence;
    try (exfalso;
         match goal with
         | H1 : truthy (Some ?s) = false, H2 : ?s <> "" |- _ =>
             rewrite (Htruthy s H2) in H1; discriminate
         end);
    try (exfalso;
         match goal with
         | H1 : truthy ?x = false, H2 : ?x = Some ?s, H3 : ?s <> "" |- _ =>
             rewrite H2, (Htruthy s H3) in H1; discriminate
         end).
  eapply fuzzy_choice_unique; eassumption.
Qed.

(** ** C7: the plan constraint extractor *)

Section ExtractFacts.

Variable float_of_string : string -> option Q.
Variable int_of_string : string -> option Z.
Variable float_str : Q -> string.
Variable constraint_lookup : gmap string meta.
Variable alias_map : gmap string string.
Variable protocol_structure_map : list (string * string).









End ExtractFacts.

(** A missing [results] value gives the empty vector. *)
Lemma extract_plan_constraints_missing (float_of_string : string -> option Q)
    (int_of_string : string -> option Z) (float_str : Q -> string)
    (constraint_lookup : gmap string meta) (alias_map : gmap string string)
    (protocol_structure_map : list (string * string)) :
  extract_plan_constraints float_of_string int_of_string float_str None
    constraint_lookup alias_map protocol_structure_map = Ok ∅.
Proof. reflexivity. Qed.


(** ** C8: the bootstrap loop *)

Lemma iloc_rows {A : Type} (rows : list A) (idx : list nat) (sample : list A) :
  iloc rows idx = Ok sample -> Forall (fun row => row ∈ rows) sample.
Proof.
  revert sample. induction idx as [|i idx IH]; intros sample; cbn [iloc].
  - intros [= <-]. constructor.
  - destruct (rows !! i) as [row|] eqn:Ei; [|discriminate].
    destruct (iloc rows idx) as [rest|e]; [|discriminate].
    cbn [res_bind]. intros [= <-].
    constructor; [|apply IH; reflexivity].
    eapply list_elem_of_lookup_2. eassumption.
Qed.

Lemma iloc_returns {A : Type} (rows : list A) (idx : list nat) :
  Forall (fun i => (i < length rows)%nat) idx -> exists sample, iloc rows idx = Ok sample.
Proof.
  induction 1 as [|i idx Hi _ [rest IH]]; cbn [iloc]; [eauto|].
  destruct (lookup_lt_is_Some_2 rows i Hi) as [row Hrow].
  rewrite Hrow, IH. cbn [res_bind]. eauto.
Qed.

(** The mask of the code counts the jointly scoreable rows. *)
Lemma count_true_valid_mask (test_df : list plan_row) (ref : reference) :
  count_true
    (zip_with andb
       (map notna (score_plan_constraints_df (map row_constraints test_df) ref))
       (map notna (map row_score_full test_df)))
  = jointly_scoreable_count test_df ref.
Proof.
  unfold count_true, jointly_scoreable_count, score_plan_constraints_df.
  induction test_df as [|row rows IH]; [reflexivity|].
  cbn [map zip_with]. rewrite !filter_cons.
  change (match row_constraints row with
          | Some plan_constraints =>
              compute_plan_score plan_constraints (distributions ref)
                (directions ref) (weights ref)
          | None => None
          end) with (row_score ref row).
  change (notna (row_score ref row) && notna (row_score_full row))
    with (jointly_scoreable ref row).
  destruct (jointly_scoreable ref row) eqn:E.
  - rewrite !decide_True by reflexivity. cbn [length]. f_equal. exact IH.
  - rewrite !decide_False by discriminate. exact IH.
Qed.

Lemma jointly_scoreable_count_le (test_df : list plan_row) (ref : reference) :
  (jointly_scoreable_count test_df ref <= length test_df)%nat.
Proof. unfold jointly_scoreable_count. apply length_filter. Qed.

Section StabilityFacts.

Variable rng : Type.
Variable rng_integers : rng -> nat -> Z -> res (list nat * rng).
Variable M : Type.
Variable agreement_metrics : list Q -> list Q -> M.
Variables train_df test_df : list plan_row.
Variable constraint_lookup : gmap string meta.
Variable dirs : gmap string string.
Variable ws : gmap string Q.
Variable min_valid : Z.

Let draw := bootstrap_draw rng rng_integers M agreement_metrics train_df test_df
              constraint_lookup dirs ws min_valid.
Let ok := @record_ok M train_df test_df constraint_lookup dirs ws min_valid.

(** One draw either leaves the records as they are, when fewer than
    [min_valid] test rows are jointly scoreable, or appends one record that
    carries the count. *)
Lemma bootstrap_draw_outcome (sample_size bootstrap_id : Z)
    (state state' : rng * list (stability_record M)) :
  draw sample_size state bootstrap_id = Ok state' ->
  exists sample_df,
    Forall (fun row => row ∈ train_df) sample_df
    /\ let valid :=
         Z.of_nat (jointly_scoreable_count test_df
                     (build_reference_from_plan_constraints
                        (map row_constraints sample_df) constraint_lookup dirs ws)) in
       (valid < min_valid /\ state'.2 = state.2)
       \/ (min_valid <= valid
           /\ exists r, state'.2 = state.2 ++ [r]
                        /\ rec_N r = sample_size
                        /\ rec_bootstrap_id r = bootstrap_id
                        /\ rec_valid_plans r = valid
                        /\ rec_test_size r = Z.of_nat (length test_df)).
Proof.
  unfold draw, bootstrap_draw, valid_mask.
  destruct (rng_integers state.1 (length train_df) sample_size) as [drawn|e];
    [|discriminate].
  cbn [res_bind].
  destruct (iloc train_df drawn.1) as [sample_df|e] eqn:Eloc; [|discriminate].
  cbn [res_bind]. rewrite count_true_valid_mask.
  intros H. exists sample_df. split; [eapply iloc_rows; eassumption|].
  cbn zeta.
  destruct (Z.of_nat (jointly_scoreable_count test_df _) <? min_valid) eqn:E.
  - apply Z.ltb_lt in E. injection H as <-. left. split; [assumption|reflexivity].
  - apply Z.ltb_ge in E. injection H as <-. right. split; [assumption|].
    eexists. split; [reflexivity|]. cbn. repeat split.
Qed.

Lemma bootstrap_draw_ok (sample_size bootstrap_id : Z)
    (state state' : rng * list (stability_record M)) :
  draw sample_size state bootstrap_id = Ok state' ->
  exists new, state'.2 = state.2 ++ new /\ Forall ok new.
Proof.
  intros H. destruct (bootstrap_draw_outcome _ _ _ _ H) as [sample_df [Hrows Hcase]].
  cbn zeta in Hcase. destruct Hcase as [[_ Heq]|[Hge [r (Heq & _ & _ & Hv & Ht)]]].
  - exists []. rewrite app_nil_r. split; [assumption|constructor].
  - exists [r]. split; [assumption|]. constructor; [|constructor].
    exists sample_df. split; [assumption|]. split; [assumption|]. split; [assumption|].
    rewrite Hv, Ht. split; [assumption|].
    pose proof (jointly_scoreable_count_le test_df
                  (build_reference_from_plan_constraints
                     (map row_constraints sample_df) constraint_lookup dirs ws)).
    lia.
Qed.

Lemma bootstrap_runs_ok (bootstraps sample_size : Z)
    (acc : res (rng * list (stability_record M)))
    (state' : rng * list (stability_record M)) :
  bootstrap_runs rng rng_integers M agreement_metrics train_df test_df
    constraint_lookup dirs ws min_valid bootstraps sample_size acc = Ok state' ->
  exists state new, acc = Ok state /\ state'.2 = state.2 ++ new /\ Forall ok new.
Proof.
  unfold bootstrap_runs. fold draw.
  generalize (seqZ 0 bootstraps). intros ids. revert acc.
  induction ids as [|id ids IH]; intros acc; cbn [fold_left].
  - intros ->. exists state', []. rewrite app_nil_r.
    split; [reflexivity|split; [reflexivity|constructor]].
  - intros H. destruct (IH _ H) as (mid & new2 & Hmid & Heq2 & Hok2).
    destruct acc as [state|e]; [|discriminate].
    cbn [res_bind] in Hmid.
    destruct (bootstrap_draw_ok _ _ _ _ Hmid) as (new1 & Heq1 & Hok1).
    exists state, (new1 ++ new2). split; [reflexivity|].
    split; [rewrite Heq2, Heq1, app_assoc; reflexivity|].
    apply Forall_app; split; assumption.
Qed.

Lemma bootstrap_loop_ok (bootstraps : Z) (available_sizes : list Z)
    (state state' : rng * list (stability_record M)) :
  bootstrap_loop rng rng_integers M agreement_metrics train_df test_df
    constraint_lookup dirs ws min_valid bootstraps available_sizes state = Ok state' ->
  exists new, state'.2 = state.2 ++ new /\ Forall ok new.
Proof.
  unfold bootstrap_loop.
  assert (Hgen : forall sizes (acc : res (rng * list (stability_record M))),
    fold_left
      (fun acc sample_size =>
         bootstrap_runs rng rng_integers M agreement_metrics train_df test_df
           constraint_lookup dirs ws min_valid bootstraps sample_size acc)
      sizes acc = Ok state' ->
    exists st new, acc = Ok st /\ state'.2 = st.2 ++ new /\ Forall ok new).
  { induction sizes as [|size sizes IH]; intros acc; cbn [fold_left].
    - intros ->. exists state', []. rewrite app_nil_r.
      split; [reflexivity|split; [reflexivity|constructor]].
    - intros H. destruct (IH _ H) as (mid & new2 & Hmid & Heq2 & Hok2).
      destruct (bootstrap_runs_ok _ _ _ _ Hmid) as (st & new1 & Hst & Heq1 & Hok1).
      exists st, (new1 ++ new2). split; [assumption|].
      split; [rewrite Heq2, Heq1, app_assoc; reflexivity|].
      apply Forall_app; split; assumption. }
  intros H. destruct (Hgen _ _ H) as (st & new & [= <-] & Heq & Hok).
  exists new. split; assumption.
Qed.

(** With a generator that draws indices below [high], the loop returns. *)
Hypothesis rng_integers_in_range :
  forall g high size,
    exists idx g', rng_integers g high size = Ok (idx, g')
                   /\ Forall (fun i => (i < high)%nat) idx.

Lemma bootstrap_loop_returns (bootstraps : Z) (available_sizes : list Z)
    (state : rng * list (stability_record M)) :
  exists state',
    bootstrap_loop rng rng_integers M agreement_metrics train_df test_df
      constraint_lookup dirs ws min_valid bootstraps available_sizes state = Ok state'.
Proof.
  assert (Hdraw : forall size st id, exists st', draw size st id = Ok st').
  { intros size st id. unfold draw, bootstrap_draw.
    destruct (rng_integers_in_range st.1 (length train_df) size) as (idx & g' & Hg & Hidx).
    rewrite Hg. cbn [res_bind fst snd].
    destruct (iloc_returns train_df idx Hidx) as [sample Hs].
    rewrite Hs. cbn [res_bind].
    destruct (_ <? min_valid); eauto. }
  assert (Hruns : forall size st, exists st',
    bootstrap_runs rng rng_integers M agreement_metrics train_df test_df
      constraint_lookup dirs ws min_valid bootstraps size (Ok st) = Ok st').
  { intros size. unfold bootstrap_runs. fold draw.
    generalize (seqZ 0 bootstraps). intros ids.
    induction ids as [|id ids IH]; intros st; cbn [fold_left res_bind]; [eauto|].
    destruct (Hdraw size st id) as [st1 H1]. rewrite H1. apply IH. }
  unfold bootstrap_loop. revert state.
  induction available_sizes as [|size sizes IH]; intros state; cbn [fold_left]; [eauto|].
  destruct (Hruns size state) as [st1 H1]. rewrite H1. apply IH.
Qed.

End StabilityFacts.

(** C8: when the bootstrap loop returns, the records it has appended all
    satisfy [min_valid <= valid_plans <= test_size], where [valid_plans] is
    the number of test plans scoreable under both the sample reference and
    the full-population reference and [test_size] is the size of the test
    set; and a single draw with fewer than [min_valid] such plans appends no
    record. *)
Theorem bootstrap_records_valid (rng : Type)
    (rng_integers : rng -> nat -> Z -> res (list nat * rng)) (M : Type)
    (agreement_metrics : list Q -> list Q -> M) (train_df test_df : list plan_row)
    (constraint_lookup : gmap string meta) (dirs : gmap string string)
    (ws : gmap string Q) (min_valid bootstraps : Z) (available_sizes : list Z)
    (state state' : rng * list (stability_record M)) :
  bootstrap_loop rng rng_integers M agreement_metrics train_df test_df
    constraint_lookup dirs ws min_valid bootstraps available_sizes state = Ok state' ->
  (exists new,
     state'.2 = state.2 ++ new
     /\ Forall (fun r =>
                  min_valid <= rec_valid_plans r <= rec_test_size r
                  /\ rec_test_size r = Z.of_nat (length test_df)
                  /\ record_ok train_df test_df constraint_lookup dirs ws min_valid r)
               new)
  /\ forall sample_size bootstrap_id st st',
       bootstrap_draw rng rng_integers M agreement_metrics train_df test_df
         constraint_lookup dirs ws min_valid sample_size st bootstrap_id = Ok st' ->
       exists sample_df,
         Forall (fun row => row ∈ train_df) sample_df
         /\ let valid :=
              Z.of_nat (jointly_scoreable_count test_df
                          (build_reference_from_plan_constraints
                             (map row_constraints sample_df) constraint_lookup dirs ws)) in
            (valid < min_valid /\ st'.2 = st.2)
            \/ (min_valid <= valid
                /\ exists r, st'.2 = st.2 ++ [r]
                             /\ rec_N r = sample_size
                             /\ rec_bootstrap_id r = bootstrap_id
                             /\ rec_valid_plans r = valid
                             /\ rec_test_size r = Z.of_nat (length test_df)).
Proof.
  intros H. split.
  - destruct (bootstrap_loop_ok _ _ _ _ _ _ _ _ _ _ _ _ _ _ H) as (new & Heq & Hok).
    exists new. split; [assumption|].
    eapply List.Forall_impl; [|exact Hok].
    intros r Hr. pose proof Hr as (sample_df & _ & _ & Ht & Hb). auto.
  - intros sample_size bootstrap_id st st'. apply bootstrap_draw_outcome.
Qed.

Lemma bootstrap_records_valid_example :
  exists state',
    bootstrap_loop nat counter_integers unit (fun _ _ => tt) sample_rows sample_rows
      sample_lookup sample_directions sample_weights 1 3 [1] (0%nat, [])
    = Ok state'
    /\ map rec_valid_plans state'.2 = [2; 2]
    /\ Forall (fun r => 1 <= rec_valid_plans r <= rec_test_size r) state'.2.
Proof.
  eexists. split; [vm_compute; reflexivity|]. split; [reflexivity|].
  destruct (bootstrap_records_valid nat counter_integers unit (fun _ _ => tt)
              sample_rows sample_rows sample_lookup sample_directions
              sample_weights 1 3 [1] (0%nat, []) _ ltac:(vm_compute; reflexivity))
    as [(new & Heq & Hok) _].
  cbn [snd app] in Heq. rewrite Heq.
  eapply List.Forall_impl; [|exact Hok]. intros r (Hb & _). exact Hb.
Defined.

(** ** C5: the plateau estimate *)

Module PlateauFacts.

Import Plateau.
Local Open Scope float_scope.
#[local] Set Warnings "-inexact-float".

(** The example of the specification: intercept 0.10, slope 0.40, plateau
    fraction 0.05 over the sizes 10, 50, 100.  The predictions are about
    0.2265, 0.1566 and 0.14, the target is about 0.1063, no size meets it
    and the estimate is the last size, 100. *)
Lemma estimate_n_star_example :
  estimate_n_star [10; 50; 100] 0.10 0.40 0.05 = Ok 100%Z
  /\ (exists target,
        plateau_target [10; 50; 100] 0.10 0.40 0.05 = Ok target
        /\ none_meets [10; 50; 100] 0.10 0.40 target = true
        /\ PrimFloat.ltb 0.1063 target = true /\ PrimFloat.ltb target 0.1064 = true)
  /\ PrimFloat.ltb 0.2264 (predict 0.10 0.40 10) = true
  /\ PrimFloat.ltb (predict 0.10 0.40 10) 0.2265 = true
  /\ PrimFloat.ltb 0.1565 (predict 0.10 0.40 50) = true
  /\ PrimFloat.ltb (predict 0.10 0.40 50) 0.1566 = true
  /\ PrimFloat.eqb (predict 0.10 0.40 100) 0.14 = true.
Proof.
  split; [vm_compute; reflexivity|]. split.
  - eexists. split; [vm_compute; reflexivity|].
    repeat split; vm_compute; reflexivity.
  - repeat split; vm_compute; reflexivity.
Qed.


(** When some size meets the target, the search over the sizes in
    ascending order decides, whatever the order of the array. *)
Lemma estimate_n_star_meets :
  estimate_n_star [5000; 50; 100; 10; 4000] 0.10 0.40 0.05 = Ok 4000%Z
  /\ estimate_n_star [10; 50; 100; 4000; 5000] 0.10 0.40 0.05 = Ok 4000%Z.
Proof. split; vm_compute; reflexivity. Qed.

End PlateauFacts.

Lemma normalize_text_example :
  normalize_text (Some "  Hello   World ") = Some "hello world"
  /\ exists r : chars,
       normalize_text (Some "  Hello   World ") = Some (of_chars r)
       /\ r = join [space] (map lower (split_ws (to_chars "  Hello   World ")))
       /\ lstrip r = r /\ rstrip r = r
       /\ (forall c, In c r -> lower_char c = c)
       /\ (forall c, In c r -> is_space c = true -> c = space)
       /\ collapsed r = true
       /\ (split_ws (to_chars "  Hello   World ") = [] -> of_chars r = "").
Proof.
  split; [reflexivity|].
  exact (proj2 normalize_text_canonical "  Hello   World ").
Defined.

(** * Further properties *)

(** ** Splitting a joined sequence of words *)

Lemma runs_all_keep keep (w : chars) :
  w <> [] -> Forall (fun c => keep c = true) w -> runs keep w = [w].
Proof.
  induction w as [|c w IH]; [congruence|].
  intros _ Hall. inversion Hall as [|? ? Hc Hw]; subst.
  rewrite runs_cons_keep by assumption.
  destruct w as [|d w']; [reflexivity|].
  inversion Hw as [|? ? Hd _]; subst. rewrite Hd.
  rewrite IH by (assumption || discriminate). reflexivity.
Qed.

Lemma runs_word_then keep (w : chars) (c : ascii) (l : chars) :
  w <> [] -> Forall (fun x => keep x = true) w -> keep c = false ->
  runs keep (w ++ c :: l) = w :: runs keep l.
Proof.
  induction w as [|x w IH]; [congruence|].
  intros _ Hall Hc. inversion Hall as [|? ? Hx Hw]; subst.
  cbn [app]. rewrite runs_cons_keep by assumption.
  destruct w as [|y w'].
  - cbn [app]. rewrite Hc, runs_cons_drop by assumption. reflexivity.
  - inversion Hw as [|? ? Hy _]; subst. cbn [app] in *. rewrite Hy.
    rewrite IH by (assumption || discriminate). reflexivity.
Qed.

Lemma runs_join keep (sep : ascii) (ws : list chars) :
  keep sep = false ->
  Forall (fun w => w <> [] /\ Forall (fun c => keep c = true) w) ws ->
  runs keep (join [sep] ws) = ws.
Proof.
  intros Hsep. induction 1 as [|w ws [Hw Hall] Hws IH]; [reflexivity|].
  destruct ws as [|w' ws'].
  - cbn [join]. apply runs_all_keep; assumption.
  - rewrite join_cons2.
    change (runs keep (w ++ sep :: join [sep] (w' :: ws')) = w :: w' :: ws').
    rewrite runs_word_then by assumption. f_equal. exact IH.
Qed.

Lemma lower_idem (l : chars) : lower (lower l) = lower l.
Proof.
  unfold lower. rewrite map_map. apply map_ext. intros c. apply lower_char_idem.
Qed.

Lemma normalize_chars_words (l : chars) :
  normalize_chars l = join [space] (map lower (split_ws l)).
Proof. unfold normalize_chars. rewrite split_ws_lower, split_ws_strip. reflexivity. Qed.

Lemma split_ws_normalize (l : chars) :
  split_ws (normalize_chars l) = map lower (split_ws l).
Proof.
  rewrite normalize_chars_words. unfold split_ws at 1. apply runs_join; [reflexivity|].
  rewrite <- split_ws_lower.
  eapply List.Forall_impl; [|apply split_ws_words].
  cbn. intros w [Hw Hns]. split; [assumption|].
  eapply List.Forall_impl; [|exact Hns].
  cbn. intros c Hc. rewrite Hc. reflexivity.
Qed.

Lemma normalize_chars_idem (l : chars) :
  normalize_chars (normalize_chars l) = normalize_chars l.
Proof.
  rewrite (normalize_chars_words (normalize_chars l)), split_ws_normalize.
  rewrite map_map. rewrite (map_ext _ lower); [|intros w; apply lower_idem].
  symmetry. apply normalize_chars_words.
Qed.

(** X1: normalizing twice is the same as normalizing once, so a normalized
    name is its own lookup key. *)
Theorem normalize_text_idempotent (value : option string) :
  normalize_text (normalize_text value) = normalize_text value.
Proof.
  destruct value as [v|]; [|reflexivity].
  unfold normalize_text, to_chars, of_chars.
  rewrite list_ascii_of_string_of_list_ascii.
  fold (to_chars v). rewrite normalize_chars_idem. reflexivity.
Qed.

(** ** Tokens *)

Lemma is_alnum_lower_char (c : ascii) : is_alnum (lower_char c) = is_alnum c.
Proof. destruct c as [[] [] [] [] [] [] [] []]; reflexivity. Qed.

Lemma lower_alnum_char (c : ascii) :
  is_alnum c = true -> is_lower_alnum (lower_char c) = true.
Proof. destruct c as [[] [] [] [] [] [] [] []]; intros H; try reflexivity; discriminate H. Qed.

Lemma tokenize_runs (value : string) :
  tokenize value = map (fun w => of_chars (lower w)) (runs is_alnum (to_chars value)).
Proof.
  unfold tokenize. unfold lower at 1.
  rewrite runs_map by apply is_alnum_lower_char.
  rewrite map_map. reflexivity.
Qed.

(** X2: every token is non-empty and made of lower-case ASCII letters and
    digits, and [tokenize] does not depend on the case of its input. *)
Theorem tokenize_tokens (value : string) :
  Forall (fun token =>
            token <> ""
            /\ Forall (fun c => is_lower_alnum c = true) (to_chars token))
         (tokenize value)
  /\ tokenize (py_lower value) = tokenize value.
Proof.
  split.
  - rewrite tokenize_runs. apply List.Forall_forall. intros token Hin.
    apply in_map_iff in Hin. destruct Hin as [w [<- Hw]].
    pose proof (runs_pieces is_alnum (to_chars value)) as Hp.
    rewrite List.Forall_forall in Hp. destruct (Hp w Hw) as [Hne Hall].
    unfold to_chars, of_chars. rewrite list_ascii_of_string_of_list_ascii. split.
    + destruct w as [|c w]; [congruence|]. discriminate.
    + unfold lower. apply List.Forall_forall. intros c Hc.
      apply in_map_iff in Hc. destruct Hc as [c0 [<- Hc0]].
      apply lower_alnum_char. rewrite List.Forall_forall in Hall. apply Hall. assumption.
  - unfold tokenize, py_lower, to_chars, of_chars.
    rewrite list_ascii_of_string_of_list_ascii, lower_idem. reflexivity.
Qed.

(** ** Slugs *)

Lemma space_not_alnum (c : ascii) : is_space c = true -> is_alnum c = false.
Proof. destruct c as [[] [] [] [] [] [] [] []]; intros H; try reflexivity; discriminate H. Qed.

Lemma alnum_not_underscore (c : ascii) : is_alnum c = true -> is_underscore c = false.
Proof. destruct c as [[] [] [] [] [] [] [] []]; intros H; try reflexivity; discriminate H. Qed.

Lemma runs_alnum_strip (l : chars) : runs is_alnum (strip l) = runs is_alnum l.
Proof.
  unfold strip.
  destruct (lstrip_split l) as [sp1 [H1 Hsp1]].
  destruct (rstrip_split (lstrip l)) as [sp2 [H2 Hsp2]].
  rewrite H1 at 2. rewrite runs_skip_prefix.
  2:{ eapply List.Forall_impl; [|exact Hsp1]. apply space_not_alnum. }
  rewrite H2 at 2. rewrite runs_skip_suffix; [reflexivity|].
  eapply List.Forall_impl; [|exact Hsp2]. apply space_not_alnum.
Qed.

Lemma runs_nil_inv keep (l : chars) :
  runs keep l = [] -> Forall (fun c => keep c = false) l.
Proof.
  induction l as [|c l IH]; [constructor|].
  destruct (keep c) eqn:Hc.
  - intros H. exfalso. exact (runs_head_keep keep c l Hc H).
  - rewrite runs_cons_drop by assumption. intros H. constructor; auto.
Qed.

Lemma trail_mark_cons (c d : ascii) (l : chars) :
  trail_mark (c :: d :: l) = trail_mark (d :: l).
Proof. reflexivity. Qed.

Lemma trail_mark_none (l : chars) :
  l <> [] -> Forall (fun c => is_alnum c = false) l -> trail_mark l = [underscore].
Proof.
  induction l as [|c l IH]; [congruence|].
  intros _ Hall. inversion Hall as [|? ? Hc Hl]; subst.
  destruct l as [|d l']; [cbn; rewrite Hc; reflexivity|].
  rewrite trail_mark_cons. apply IH; [discriminate|assumption].
Qed.

Lemma join_cons_head (sep : chars) (c : ascii) (w : chars) (ws : list chars) :
  join sep ((c :: w) :: ws) = c :: join sep (w :: ws).
Proof. destruct ws; reflexivity. Qed.

(** The substituted text is the joined runs between the two marks. *)
Lemma sub_non_alnum_runs (l : chars) :
  sub_non_alnum l =
    match runs is_alnum l with
    | [] => match l with [] => [] | _ => [underscore] end
    | ws => lead_mark l ++ join [underscore] ws ++ trail_mark l
    end.
Proof.
  induction l as [|c l IH]; [reflexivity|].
  cbn [sub_non_alnum]. destruct (is_alnum c) eqn:Hc.
  - rewrite runs_cons_keep by assumption. cbn [lead_mark]. rewrite Hc. cbn [app].
    destruct l as [|d l'].
    + cbn. rewrite Hc. reflexivity.
    + rewrite trail_mark_cons. rewrite IH.
      destruct (is_alnum d) eqn:Hd.
      * pose proof (runs_head_keep is_alnum d l' Hd) as Hne.
        destruct (runs is_alnum (d :: l')) as [|w ws]; [congruence|].
        cbn [lead_mark]. rewrite Hd. cbn [app].
        rewrite join_cons_head. reflexivity.
      * destruct (runs is_alnum (d :: l')) as [|w ws] eqn:Er.
        -- rewrite trail_mark_none; [reflexivity|discriminate|].
           apply runs_nil_inv. assumption.
        -- cbn [lead_mark]. rewrite Hd. rewrite join_cons2. reflexivity.
  - rewrite runs_cons_drop by assumption. cbn [lead_mark]. rewrite Hc.
    destruct l as [|d l']; [reflexivity|].
    rewrite trail_mark_cons. destruct (is_alnum d) eqn:Hd.
    + rewrite IH.
      pose proof (runs_head_keep is_alnum d l' Hd) as Hne.
      destruct (runs is_alnum (d :: l')) as [|w ws]; [congruence|].
      cbn [lead_mark]. rewrite Hd. reflexivity.
    + rewrite IH. destruct (runs is_alnum (d :: l')) as [|w ws]; [reflexivity|].
      cbn [lead_mark]. rewrite Hd. reflexivity.
Qed.

Lemma mark_cases (m : chars) :
  m = [] \/ m = [underscore] -> Forall (fun c => is_underscore c = true) m.
Proof. intros [->| ->]; repeat constructor. Qed.

Lemma lead_mark_cases (l : chars) : lead_mark l = [] \/ lead_mark l = [underscore].
Proof. destruct l as [|c l]; [left; reflexivity|]. cbn. destruct (is_alnum c); auto. Qed.

Lemma trail_mark_cases (l : chars) : trail_mark l = [] \/ trail_mark l = [underscore].
Proof.
  induction l as [|c l IH]; [left; reflexivity|].
  destruct l as [|d l']; [cbn; destruct (is_alnum c); auto|].
  rewrite trail_mark_cons. exact IH.
Qed.

Lemma lstrip_by_skip (p : ascii -> bool) (pre : chars) (x : ascii) (r : chars) :
  Forall (fun c => p c = true) pre -> p x = false ->
  lstrip_by p (pre ++ x :: r) = x :: r.
Proof.
  intros Hpre Hx. induction Hpre as [|c pre Hc _ IH]; cbn [app lstrip_by].
  - rewrite Hx. reflexivity.
  - rewrite Hc. exact IH.
Qed.

Lemma strip_by_between (p : ascii -> bool) (pre post : chars) (x y : ascii) (mid : chars) :
  Forall (fun c => p c = true) pre -> Forall (fun c => p c = true) post ->
  p x = false -> p y = false ->
  strip_by p (pre ++ (x :: mid ++ [y]) ++ post) = x :: mid ++ [y].
Proof.
  intros Hpre Hpost Hx Hy. unfold strip_by.
  cbn [app]. rewrite lstrip_by_skip by assumption.
  replace (rev (x :: (mid ++ [y]) ++ post)) with (rev post ++ y :: rev (x :: mid)).
  2:{ cbn [rev]. rewrite !rev_app_distr. cbn [rev app].
      rewrite <- !app_assoc. reflexivity. }
  rewrite lstrip_by_skip; [|apply List.Forall_rev; assumption|assumption].
  cbn [rev]. rewrite rev_app_distr, rev_involutive. reflexivity.
Qed.

Lemma strip_by_single (p : ascii -> bool) (pre post : chars) (x : ascii) :
  Forall (fun c => p c = true) pre -> Forall (fun c => p c = true) post ->
  p x = false ->
  strip_by p (pre ++ [x] ++ post) = [x].
Proof.
  intros Hpre Hpost Hx. unfold strip_by.
  cbn [app]. rewrite lstrip_by_skip by assumption.
  replace (rev (x :: post)) with (rev post ++ x :: []) by reflexivity.
  rewrite lstrip_by_skip; [reflexivity|apply List.Forall_rev; assumption|assumption].
Qed.

(** A joined sequence of words starts and ends with a character of a word. *)
Lemma join_ends (P : ascii -> Prop) (sep : ascii) (ws : list chars) :
  Forall (fun w => w <> [] /\ Forall P w) ws -> ws <> [] ->
  (exists x, P x /\ join [sep] ws = [x])
  \/ (exists x mid y, P x /\ P y /\ join [sep] ws = x :: mid ++ [y]).
Proof.
  assert (Hword : forall w, w <> [] -> Forall P w ->
            (exists x, P x /\ w = [x])
            \/ (exists x mid y, P x /\ P y /\ w = x :: mid ++ [y])).
  { intros w Hw Hall. destruct w as [|x w]; [congruence|].
    inversion Hall as [|? ? Hx Hrest]; subst.
    destruct w as [|z w']; [left; eauto|]. right.
    destruct (exists_last (l := z :: w') ltac:(discriminate)) as [mid [y Hy]].
    rewrite Hy in *. apply List.Forall_app in Hrest. destruct Hrest as [_ Hylast].
    inversion Hylast; subst. exists x, mid, y. auto. }
  induction ws as [|w ws IH]; [congruence|].
  intros Hws _. inversion Hws as [|? ? [Hw Hall] Hws']; subst.
  destruct ws as [|w' ws']; [cbn [join]; apply Hword; assumption|].
  right. rewrite join_cons2.
  destruct w as [|x w]; [congruence|]. inversion Hall as [|? ? Hx _]; subst.
  destruct (IH Hws' ltac:(discriminate)) as [[y [Hy Hj]]|[a [mid [y [_ [Hy Hj]]]]]];
    rewrite Hj.
  - exists x, (w ++ [sep]), y. split; [assumption|]. split; [assumption|].
    cbn [app]. rewrite <- app_assoc. reflexivity.
  - exists x, (w ++ [sep] ++ a :: mid), y. split; [assumption|]. split; [assumption|].
    cbn [app]. rewrite <- !app_assoc. reflexivity.
Qed.

Lemma join_chars (P : ascii -> Prop) (sep : ascii) (ws : list chars) :
  P sep -> Forall (fun w => w <> [] /\ Forall P w) ws -> Forall P (join [sep] ws).
Proof.
  intros Hsep. induction 1 as [|w ws [_ Hall] Hws IH]; [constructor|].
  destruct ws as [|w' ws']; [exact Hall|].
  rewrite join_cons2. apply List.Forall_app. split; [assumption|].
  cbn [app]. constructor; assumption.
Qed.

Lemma slugify_runs (value : string) :
  slugify value =
    match runs is_alnum (to_chars value) with
    | [] => "UNKNOWN"
    | ws => of_chars (join [underscore] ws)
    end.
Proof.
  unfold slugify. rewrite sub_non_alnum_runs, runs_alnum_strip.
  pose proof (runs_pieces is_alnum (to_chars value)) as Hp.
  destruct (runs is_alnum (to_chars value)) as [|w ws] eqn:Er.
  - destruct (strip (to_chars value)); reflexivity.
  - pose proof (mark_cases _ (lead_mark_cases (strip (to_chars value)))) as Hlead.
    pose proof (mark_cases _ (trail_mark_cases (strip (to_chars value)))) as Htrail.
    assert (Hp' : Forall (fun w0 => w0 <> [] /\ Forall (fun c => is_underscore c = false) w0)
                    (w :: ws)).
    { eapply List.Forall_impl; [|exact Hp]. cbn. intros w0 [Hw0 Hall]. split; [assumption|].
      eapply List.Forall_impl; [|exact Hall]. apply alnum_not_underscore. }
    destruct (join_ends _ underscore (w :: ws) Hp' ltac:(discriminate))
      as [[x [Hx Hj]]|[x [mid [y [Hx [Hy Hj]]]]]]; rewrite Hj.
    + rewrite strip_by_single by assumption. reflexivity.
    + rewrite strip_by_between by assumption. reflexivity.
Qed.

(** X3: a slug is the runs of letters and digits of the name joined by single
    underscores, or ["UNKNOWN"] when the name has none.  It is never empty, it
    holds letters, digits and underscores only, and it starts and ends with a
    letter or a digit. *)
Theorem slugify_shape (value : string) :
  slugify value =
    match runs is_alnum (to_chars value) with
    | [] => "UNKNOWN"
    | ws => of_chars (join [underscore] ws)
    end
  /\ slugify value <> ""
  /\ Forall (fun c => is_alnum c || is_underscore c = true) (to_chars (slugify value))
  /\ (exists c r, to_chars (slugify value) = c :: r /\ is_alnum c = true)
  /\ (exists r c, to_chars (slugify value) = r ++ [c] /\ is_alnum c = true).
Proof.
  split; [apply slugify_runs|]. rewrite slugify_runs.
  pose proof (runs_pieces is_alnum (to_chars value)) as Hp.
  destruct (runs is_alnum (to_chars value)) as [|w ws] eqn:Er.
  - split; [discriminate|]. split; [repeat constructor|].
    split; [exists "U"%char, (to_chars "NKNOWN")|exists (to_chars "UNKNOW"), "N"%char];
      split; reflexivity.
  - unfold to_chars, of_chars. rewrite list_ascii_of_string_of_list_ascii.
    assert (Hends := join_ends _ underscore (w :: ws) Hp ltac:(discriminate)).
    split; [|split; [|split]].
    + destruct Hends as [[x [_ Hj]]|[x [mid [y [_ [_ Hj]]]]]]; rewrite Hj; discriminate.
    + apply (join_chars (fun c => is_alnum c || is_underscore c = true)); [reflexivity|].
      eapply List.Forall_impl; [|exact Hp]. cbn. intros w0 [Hw0 Hall]. split; [assumption|].
      eapply List.Forall_impl; [|exact Hall]. cbn. intros c Hc. rewrite Hc. reflexivity.
    + destruct Hends as [[x [Hx Hj]]|[x [mid [y [Hx [_ Hj]]]]]]; rewrite Hj; eauto.
    + destruct Hends as [[x [Hx Hj]]|[x [mid [y [_ [Hy Hj]]]]]]; rewrite Hj.
      * exists [], x. auto.
      * exists (x :: mid), y. auto.
Qed.

(** ** Ranks and percentiles *)

Lemma right_insertion_index_count (a : list Q) (v : Q) (i : nat) :
  right_insertion_index a v i -> count_le a v = i.
Proof.
  unfold count_le. revert i. induction a as [|x a IH]; intros i (Hlen & Hlo & Hhi).
  - cbn in *. lia.
  - cbn [List.filter]. destruct i as [|i].
    + assert (Hx : (v < x)%Q) by (apply (Hhi 0%nat x); [lia|reflexivity]).
      destruct (Qle_bool x v) eqn:E.
      { apply Qle_bool_iff in E. exfalso. exact (Qlt_not_le _ _ Hx E). }
      apply (IH 0%nat). split; [lia|]. split.
      * intros j y Hj. lia.
      * intros j y _ Hy. apply (Hhi (S j) y); [lia|exact Hy].
    + assert (Hx : (x <= v)%Q) by (apply (Hlo 0%nat x); [lia|reflexivity]).
      apply Qle_bool_iff in Hx. rewrite Hx. cbn [length]. f_equal.
      apply IH. split; [cbn in Hlen; lia|]. split.
      * intros j y Hj Hy. apply (Hlo (S j) y); [lia|exact Hy].
      * intros j y Hj Hy. apply (Hhi (S j) y); [lia|exact Hy].
Qed.

(** X4: on an ascending array the bisection returns the number of elements
    that are at most the value. *)
Theorem searchsorted_right_counts (a : list Q) (v : Q) :
  sorted a -> searchsorted_right a v = count_le a v.
Proof.
  intros Hs. symmetry. apply right_insertion_index_count.
  apply searchsorted_right_correct. assumption.
Qed.

Lemma searchsorted_right_counts_example :
  searchsorted_right [10; 20; 20; 30]%Q 20%Q = count_le [10; 20; 20; 30]%Q 20%Q
  /\ count_le [10; 20; 20; 30]%Q 20%Q = 3%nat.
Proof.
  split; [|reflexivity].
  apply (searchsorted_right_counts [10; 20; 20; 30]%Q 20%Q). reflexivity.
Defined.

Lemma count_le_all (a : list Q) (v : Q) :
  Forall (fun x => (x <= v)%Q) a -> count_le a v = length a.
Proof.
  unfold count_le. induction 1 as [|x a Hx _ IH]; [reflexivity|].
  cbn [List.filter]. apply Qle_bool_iff in Hx. rewrite Hx. cbn [length]. f_equal. exact IH.
Qed.

Lemma count_le_none (a : list Q) (v : Q) :
  Forall (fun x => (v < x)%Q) a -> count_le a v = 0%nat.
Proof.
  unfold count_le. induction 1 as [|x a Hx _ IH]; [reflexivity|].
  cbn [List.filter]. destruct (Qle_bool x v) eqn:E; [|exact IH].
  apply Qle_bool_iff in E. exfalso. exact (Qlt_not_le _ _ Hx E).
Qed.

Lemma percentile_base_top (n : Z) : 0 < n -> (percentile_base n n == 1)%Q.
Proof.
  intros Hn. unfold percentile_base, clamp.
  destruct (n =? 1) eqn:E; [reflexivity|]. apply Z.eqb_neq in E.
  replace (Z.min n (Z.max 1 n)) with n by lia.
  apply Qmult_inv_r. change 0%Q with (inject_Z 0). rewrite inject_Z_injective. lia.
Qed.

Lemma percentile_base_bottom (n : Z) : 1 < n -> (percentile_base n 0 == 0)%Q.
Proof.
  intros Hn. unfold percentile_base, clamp.
  destruct (n =? 1) eqn:E; [apply Z.eqb_eq in E; lia|].
  replace (Z.min n (Z.max 1 0) - 1) with 0 by lia. reflexivity.
Qed.

(** X5: the percentile of an empty array is NaN and that of a non-empty array
    is a number in [0, 1].  On an ascending array a value that no element
    exceeds is at the far end (0 for [lower], 1 for any other direction),
    also when the array has a single element, whatever the value; a value
    below every element of an array of at least two elements is at the near
    end (1 for [lower], 0 otherwise). *)
Theorem compute_percentile_range (v : Q) (a : list Q) (d : string) :
  sorted a ->
  (a = [] -> compute_percentile v a d = PNaN)
  /\ (a <> [] -> exists p, compute_percentile v a d = PNum p /\ (0 <= p <= 1)%Q)
  /\ (a <> [] -> (Forall (fun x => (x <= v)%Q) a \/ length a = 1%nat) ->
      is_num (compute_percentile v a "lower") 0
      /\ (d <> "lower" -> is_num (compute_percentile v a d) 1))
  /\ ((2 <= length a)%nat -> Forall (fun x => (v < x)%Q) a ->
      is_num (compute_percentile v a "lower") 1
      /\ (d <> "lower" -> is_num (compute_percentile v a d) 0)).
Proof.
  intros Hs.
  assert (Hdir : d <> "lower" -> String.eqb d "lower" = false)
    by (intros H; apply String.eqb_neq; assumption).
  split; [intros ->; reflexivity|].
  split; [apply compute_percentile_bounds|].
  split.
  - intros Ha Hcase.
    assert (Hn : 0 < Z.of_nat (length a)) by (destruct a; [congruence|cbn; lia]).
    assert (Hbase : (percentile_base (Z.of_nat (length a))
                       (Z.of_nat (searchsorted_right a v)) == 1)%Q).
    { destruct Hcase as [Hall|Hone].
      - rewrite (searchsorted_right_counts a v Hs), (count_le_all a v Hall).
        apply percentile_base_top. assumption.
      - unfold percentile_base. rewrite Hone. reflexivity. }
    rewrite !compute_percentile_unfold by assumption. unfold is_num, directed.
    split.
    + eexists. split; [reflexivity|].
      change (String.eqb "lower" "lower") with true. cbn iota.
      set (b := percentile_base _ _) in *. clearbody b. lra.
    + intros Hd. eexists. split; [reflexivity|]. rewrite (Hdir Hd). exact Hbase.
  - intros Hlen Hall.
    assert (Ha : a <> []) by (destruct a; [cbn in Hlen; lia|discriminate]).
    assert (Hbase : (percentile_base (Z.of_nat (length a))
                       (Z.of_nat (searchsorted_right a v)) == 0)%Q).
    { rewrite (searchsorted_right_counts a v Hs), (count_le_none a v Hall).
      apply percentile_base_bottom. lia. }
    rewrite !compute_percentile_unfold by assumption. unfold is_num, directed.
    split.
    + eexists. split; [reflexivity|].
      change (String.eqb "lower" "lower") with true. cbn iota.
      set (b := percentile_base _ _) in *. clearbody b. lra.
    + intros Hd. eexists. split; [reflexivity|]. rewrite (Hdir Hd). exact Hbase.
Qed.

Lemma compute_percentile_range_example :
  is_num (compute_percentile 5%Q [10; 20; 30]%Q "lower") 1
  /\ is_num (compute_percentile 30%Q [10; 20; 30]%Q "lower") 0
  /\ is_num (compute_percentile 5%Q [10]%Q "lower") 0.
Proof.
  split; [|split].
  - apply (proj2 (proj2 (proj2 (compute_percentile_range 5%Q [10; 20; 30]%Q "higher"
                                  eq_refl)))).
    + cbn. lia.
    + repeat constructor.
  - apply (proj1 (proj2 (proj2 (compute_percentile_range 30%Q [10; 20; 30]%Q "higher"
                                  eq_refl)))); [discriminate|].
    left. repeat constructor; discriminate.
  - apply (proj1 (proj2 (proj2 (compute_percentile_range 5%Q [10]%Q "higher" eq_refl))));
      [discriminate|]. right. reflexivity.
Defined.

(** ** Dictionaries in which the first entry of a key wins *)

Section FirstWins.

Context {C A : Type} (key : C -> string) (val : C -> A).

Lemma first_at_here (c : C) (cs : list C) (v : A) :
  first_at key val (c :: cs) (key c) v <-> v = val c.
Proof.
  split.
  - intros ([|i] & c0 & Hi & Hk & Hv & Hfirst).
    + cbn in Hi. injection Hi as <-. congruence.
    + exfalso. apply (Hfirst 0%nat c); [lia|reflexivity|reflexivity].
  - intros ->. exists 0%nat, c. repeat split. intros j c' Hj. lia.
Qed.

Lemma first_at_later (c : C) (cs : list C) (k : string) (v : A) :
  key c <> k -> first_at key val (c :: cs) k v <-> first_at key val cs k v.
Proof.
  intros Hne. split.
  - intros ([|i] & c0 & Hi & Hk & Hv & Hfirst).
    + cbn in Hi. injection Hi as <-. congruence.
    + exists i, c0. repeat split; try assumption.
      intros j c' Hj Hc'. apply (Hfirst (S j) c'); [lia|exact Hc'].
  - intros (i & c0 & Hi & Hk & Hv & Hfirst).
    exists (S i), c0. repeat split; try assumption.
    intros [|j] c' Hj Hc'.
    + cbn in Hc'. injection Hc' as <-. assumption.
    + apply (Hfirst j c'); [lia|exact Hc'].
Qed.

Lemma put_first_fold (cs : list C) (m0 : gmap string A) (k : string) (v : A) :
  fold_left (put_first key val) cs m0 !! k = Some v
  <-> m0 !! k = Some v \/ (m0 !! k = None /\ first_at key val cs k v).
Proof.
  revert m0. induction cs as [|c cs IH]; intros m0; cbn [fold_left].
  - split; [auto|]. intros [H|[_ (i & c & Hi & _)]]; [assumption|discriminate].
  - rewrite IH. unfold put_first at 1 2.
    destruct (decide (key c = k)) as [<-|Hne].
    + rewrite first_at_here. destruct (m0 !! key c) as [v0|] eqn:E0.
      * rewrite E0. split; [intros [H|[H _]]; [auto|discriminate]|].
        intros [H|[H _]]; [auto|discriminate].
      * rewrite lookup_insert_eq. split.
        -- intros [[= <-]|[H _]]; [auto|discriminate].
        -- intros [H|[_ ->]]; [discriminate|auto].
    + rewrite (first_at_later c cs k v Hne).
      destruct (m0 !! key c) as [v0|]; [reflexivity|].
      rewrite lookup_insert_ne by assumption. reflexivity.
Qed.

Lemma put_first_size (cs : list C) (m0 : gmap string A) :
  (size (fold_left (put_first key val) cs m0) <= size m0 + length cs)%nat.
Proof.
  revert m0. induction cs as [|c cs IH]; intros m0; cbn [fold_left length]; [lia|].
  specialize (IH (put_first key val m0 c)).
  assert (size (put_first key val m0 c) <= S (size m0))%nat; [|lia].
  unfold put_first. destruct (m0 !! key c) eqn:E; [lia|].
  rewrite map_size_insert_None by assumption. lia.
Qed.

Lemma put_first_keeps (cs : list C) (m0 : gmap string A) (k : string) :
  is_Some (m0 !! k) -> is_Some (fold_left (put_first key val) cs m0 !! k).
Proof.
  intros [v Hv]. exists v. apply put_first_fold. left. assumption.
Qed.

Lemma put_first_member (cs : list C) (m0 : gmap string A) (c : C) :
  c ∈ cs -> is_Some (fold_left (put_first key val) cs m0 !! key c).
Proof.
  revert m0. induction cs as [|c0 cs IH]; intros m0 Hc.
  - apply elem_of_nil in Hc. contradiction.
  - cbn [fold_left]. apply elem_of_cons in Hc. destruct Hc as [->|Hc]; [|apply IH; assumption].
    apply put_first_keeps. unfold put_first.
    destruct (m0 !! key c0) as [v|] eqn:E; [rewrite E; eauto|].
    rewrite lookup_insert_eq. eauto.
Qed.

End FirstWins.

(** X6: the constraint dictionary keeps, for every key, the metadata of the
    first constraint with that key; every constraint's key is in the
    dictionary, and the dictionary has at most as many entries as there are
    constraints. *)
Theorem build_constraint_lookup_first_wins (int_of_string : string -> option Z)
    (float_str : Q -> string) (constraints : list constraint) :
  let lookup := build_constraint_lookup int_of_string float_str constraints in
  (forall k m,
     lookup !! k = Some m
     <-> exists i c,
           constraints !! i = Some c
           /\ constraint_key_str int_of_string float_str c = k
           /\ constraint_meta_of int_of_string c = m
           /\ forall j c', (j < i)%nat -> constraints !! j = Some c' ->
                           constraint_key_str int_of_string float_str c' <> k)
  /\ (forall c, c ∈ constraints ->
                is_Some (lookup !! constraint_key_str int_of_string float_str c))
  /\ (size lookup <= length constraints)%nat.
Proof.
  intros lookup.
  assert (Hfold : lookup = fold_left (put_first (constraint_key_str int_of_string float_str)
                                        (constraint_meta_of int_of_string))
                             constraints ∅) by reflexivity.
  assert (Hchar : forall k m,
     lookup !! k = Some m
     <-> first_at (constraint_key_str int_of_string float_str)
           (constraint_meta_of int_of_string) constraints k m).
  { intros k m. rewrite Hfold, put_first_fold, lookup_empty. split.
    - intros [H|[_ H]]; [discriminate|assumption].
    - intros H. right. split; [reflexivity|assumption]. }
  split; [exact Hchar|]. split.
  - intros c Hc. rewrite Hfold. apply put_first_member. assumption.
  - rewrite Hfold. etransitivity; [apply put_first_size|]. rewrite map_size_empty. lia.
Qed.

(** ** The constraint context *)


Lemma float_of_int_value (z : Z) (x : Q) : float_of_int z = Ok x -> x = inject_Z z.
Proof.
  unfold float_of_int. destruct (Z.abs z <? float_overflow_bound); [|discriminate].
  intros [= <-]. reflexivity.
Qed.

Lemma context_step_raise (e : exn) (item : string * meta) :
  context_step (Raise e) item = Raise e.
Proof. reflexivity. Qed.

Lemma context_fold_lookup (items : list (string * meta))
    (d0 d : gmap string string) (w0 w : gmap string Q) :
  NoDup items.*1 ->
  fold_left context_step items (Ok (d0, w0)) = Ok (d, w) ->
  forall k,
    d !! k = match (list_to_map items : gmap string meta) !! k ≫= entry_direction with
             | Some x => Some x
             | None => d0 !! k
             end
    /\ w !! k = match (list_to_map items : gmap string meta) !! k ≫= entry_weight with
                | Some x => Some x
                | None => w0 !! k
                end.
Proof.
  revert d0 w0. induction items as [|[k1 m1] items IH]; intros d0 w0 Hnd Hfold k.
  - cbn in Hfold. injection Hfold as <- <-.
    change (list_to_map []) with (∅ : gmap string meta). rewrite lookup_empty. cbn. auto.
  - cbn [fmap list_fmap fst] in Hnd. apply NoDup_cons in Hnd. destruct Hnd as [Hk1 Hnd].
    assert (Hrest : (list_to_map items : gmap string meta) !! k1 = None)
      by (apply not_elem_of_list_to_map_1; assumption).
    cbn [list_to_map foldr fst snd]. fold (list_to_map (M := gmap string meta) items).
    cbn [fold_left] in Hfold. unfold context_step at 2 in Hfold. cbn [res_bind fst snd] in Hfold.
    unfold entry_weight. unfold entry_direction at 1 2.
    destruct (direction_from_operator (m_goal_operator m1)) as [dir|] eqn:Edir.
    + destruct (m_priority m1) as [p|] eqn:Ep.
      * destruct (0 <? p) eqn:Epos.
        -- destruct (float_of_int p) as [x|e] eqn:Ex; cbn [res_bind] in Hfold.
           2:{ rewrite res_fold_raise in Hfold by apply context_step_raise. discriminate. }
           apply float_of_int_value in Ex. subst x.
           destruct (IH _ _ Hnd Hfold k) as [Hd Hw]. rewrite Hd, Hw.
           destruct (decide (k1 = k)) as [<-|Hne].
           ++ rewrite !lookup_insert_eq, Hrest. cbn.
              unfold entry_direction. rewrite Edir, Ep, Epos. auto.
           ++ rewrite !lookup_insert_ne by assumption. auto.
        -- destruct (IH _ _ Hnd Hfold k) as [Hd Hw]. rewrite Hd, Hw.
           destruct (decide (k1 = k)) as [<-|Hne].
           ++ rewrite !lookup_insert_eq, Hrest. cbn.
              unfold entry_direction. rewrite Edir, Ep, Epos. auto.
           ++ rewrite !lookup_insert_ne by assumption. auto.
      * destruct (IH _ _ Hnd Hfold k) as [Hd Hw]. rewrite Hd, Hw.
        destruct (decide (k1 = k)) as [<-|Hne].
        -- rewrite !lookup_insert_eq, Hrest. cbn.
           unfold entry_direction. rewrite Edir, Ep. auto.
        -- rewrite !lookup_insert_ne by assumption. auto.
    + destruct (IH _ _ Hnd Hfold k) as [Hd Hw]. rewrite Hd, Hw.
      destruct (decide (k1 = k)) as [<-|Hne].
      * rewrite !lookup_insert_eq, Hrest. cbn. unfold entry_direction. rewrite Edir. auto.
      * rewrite !lookup_insert_ne by assumption. auto.
Qed.

Lemma context_fold_maps (lookup : gmap string meta)
    (d : gmap string string) (w : gmap string Q) :
  fold_left context_step (map_to_list lookup) (Ok (∅, ∅)) = Ok (d, w) ->
  d = omap entry_direction lookup /\ w = omap entry_weight lookup.
Proof.
  intros Hfold.
  pose proof (context_fold_lookup _ _ _ _ _ (NoDup_fst_map_to_list lookup) Hfold) as H.
  rewrite list_to_map_to_list in H.
  split; apply map_eq; intros k; rewrite lookup_omap; destruct (H k) as [Hd Hw].
  - rewrite Hd. destruct (lookup !! k ≫= entry_direction); [reflexivity|apply lookup_empty].
  - rewrite Hw. destruct (lookup !! k ≫= entry_weight); [reflexivity|apply lookup_empty].
Qed.





(** ** The structure vocabulary *)

Lemma dict_get_set {A : Type} (k k' : string) (v : A) (d : list (string * A)) :
  dict_get k (dict_set k' v d) = if String.eqb k k' then Some v else dict_get k d.
Proof.
  induction d as [|[k0 v0] d IH]; cbn [dict_set dict_get]; [reflexivity|].
  destruct (String.eqb_spec k' k0) as [->|Hne]; cbn [dict_get].
  - destruct (String.eqb k k0); reflexivity.
  - rewrite IH. destruct (String.eqb_spec k k0) as [->|Hne'].
    + destruct (String.eqb_spec k0 k') as [->|_]; [congruence|reflexivity].
    + reflexivity.
Qed.

Lemma dict_set_keys {A : Type} (k : string) (v : A) (d : list (string * A)) (x : string) :
  x ∈ (dict_set k v d).*1 <-> x = k \/ x ∈ d.*1.
Proof.
  induction d as [|[k0 v0] d IH]; cbn [dict_set].
  - cbn. rewrite list_elem_of_singleton. split; [auto|].
    intros [->|H]; [reflexivity|]. apply elem_of_nil in H. contradiction.
  - destruct (String.eqb_spec k k0) as [->|Hne]; cbn [fmap list_fmap fst].
    + rewrite !elem_of_cons. tauto.
    + rewrite !elem_of_cons, IH. tauto.
Qed.

Lemma dict_set_NoDup {A : Type} (k : string) (v : A) (d : list (string * A)) :
  NoDup d.*1 -> NoDup (dict_set k v d).*1.
Proof.
  induction d as [|[k0 v0] d IH]; cbn [dict_set]; intros Hnd.
  - cbn. apply NoDup_singleton.
  - cbn [fmap list_fmap fst] in Hnd. apply NoDup_cons in Hnd. destruct Hnd as [Hk0 Hnd].
    destruct (String.eqb_spec k k0) as [->|Hne]; cbn [fmap list_fmap fst].
    + apply NoDup_cons. split; assumption.
    + apply NoDup_cons. split; [|apply IH; assumption].
      rewrite dict_set_keys. intros [->|H]; [congruence|contradiction].
Qed.

Lemma dict_get_elem {A : Type} (k : string) (v : A) (d : list (string * A)) :
  NoDup d.*1 -> ((k, v) ∈ d <-> dict_get k d = Some v).
Proof.
  induction d as [|[k0 v0] d IH]; intros Hnd; cbn [dict_get].
  - split; [intros H; apply elem_of_nil in H; contradiction|discriminate].
  - cbn [fmap list_fmap fst] in Hnd. apply NoDup_cons in Hnd. destruct Hnd as [Hk0 Hnd].
    rewrite elem_of_cons, (IH Hnd).
    destruct (String.eqb_spec k k0) as [->|Hne].
    + split.
      * intros [[= <-]|H]; [reflexivity|].
        exfalso. apply Hk0. apply (IH Hnd) in H.
        apply list_elem_of_fmap. exists (k0, v). auto.
      * intros [= <-]. auto.
    + split; [intros [[= ? ?]|H]; [congruence|assumption]|auto].
Qed.

Lemma build_protocol_structure_map_fold (constraints : list constraint) :
  build_protocol_structure_map constraints
  = fold_left (fun d c => match spelling c with
                          | Some (norm, structure) => dict_set norm structure d
                          | None => d
                          end) constraints [].
Proof.
  unfold build_protocol_structure_map.
  generalize (@nil (string * string)).
  induction constraints as [|c cs IH]; intros d; [reflexivity|].
  cbn [fold_left]. rewrite IH. f_equal. unfold spelling.
  destruct (normalize_text (c_structure c)) as [norm|]; [|reflexivity].
  destruct (c_structure c) as [structure|]; [|reflexivity].
  destruct (String.eqb norm ""); reflexivity.
Qed.

Lemma vocabulary_fold_get (constraints : list constraint) (d : list (string * string))
    (k : string) :
  dict_get k (fold_left (fun d c => match spelling c with
                                    | Some (norm, structure) => dict_set norm structure d
                                    | None => d
                                    end) constraints d)
  = match last_spelling constraints k with
    | Some v => Some v
    | None => dict_get k d
    end.
Proof.
  revert d. induction constraints as [|c cs IH]; intros d; [reflexivity|].
  cbn [fold_left last_spelling]. rewrite IH.
  destruct (last_spelling cs k); [reflexivity|].
  destruct (spelling c) as [[norm structure]|]; [|reflexivity].
  rewrite dict_get_set. destruct (String.eqb k norm); reflexivity.
Qed.

Lemma vocabulary_fold_NoDup (constraints : list constraint) (d : list (string * string)) :
  NoDup d.*1 ->
  NoDup (fold_left (fun d c => match spelling c with
                               | Some (norm, structure) => dict_set norm structure d
                               | None => d
                               end) constraints d).*1.
Proof.
  revert d. induction constraints as [|c cs IH]; intros d Hnd; [exact Hnd|].
  cbn [fold_left]. apply IH.
  destruct (spelling c) as [[norm structure]|]; [apply dict_set_NoDup|]; assumption.
Qed.

Lemma spelling_inv (c : constraint) (norm structure : string) :
  spelling c = Some (norm, structure)
  <-> c_structure c = Some structure
      /\ normalize_text (Some structure) = Some norm /\ norm <> "".
Proof.
  unfold spelling. destruct (c_structure c) as [s|] eqn:Es; cbn [normalize_text].
  - destruct (String.eqb_spec (of_chars (normalize_chars (to_chars s))) "") as [E|E].
    + split; [discriminate|]. intros ([= <-] & [= <-] & H). congruence.
    + split.
      * intros [= <- <-]. auto.
      * intros ([= <-] & [= <-] & _). reflexivity.
  - split; [discriminate|]. intros (H & _). discriminate.
Qed.

Lemma last_spelling_none (constraints : list constraint) (k : string) :
  last_spelling constraints k = None
  <-> forall j c' v', constraints !! j = Some c' -> spelling c' <> Some (k, v').
Proof.
  induction constraints as [|c cs IH]; cbn [last_spelling].
  - split; [|reflexivity]. intros _ j c' v' Hj. discriminate.
  - destruct (last_spelling cs k) as [v0|].
    + split; [discriminate|]. intros Hall. exfalso.
      assert (Hsome : Some v0 = None); [|discriminate].
      apply IH. intros j c' v' Hj. apply (Hall (S j) c' v' Hj).
    + destruct IH as [IH _]. specialize (IH eq_refl). split.
      * intros Hc [|j] c' v' Hj.
        -- injection Hj as <-. intros Hs. rewrite Hs, String.eqb_refl in Hc. discriminate.
        -- apply (IH j c' v' Hj).
      * intros Hall. destruct (spelling c) as [[norm structure]|] eqn:Es; [|reflexivity].
        destruct (String.eqb_spec k norm) as [->|_]; [|reflexivity].
        exfalso. apply (Hall 0%nat c structure eq_refl Es).
Qed.

Lemma last_spelling_spec (constraints : list constraint) (k v : string) :
  last_spelling constraints k = Some v
  <-> exists i c,
        constraints !! i = Some c /\ spelling c = Some (k, v)
        /\ forall j c' v', (i < j)%nat -> constraints !! j = Some c' ->
                           spelling c' <> Some (k, v').
Proof.
  induction constraints as [|c cs IH]; cbn [last_spelling].
  - split; [discriminate|]. intros (i & c & Hi & _). discriminate.
  - destruct (last_spelling cs k) as [v0|] eqn:Elast.
    + split.
      * intros Hv. destruct (proj1 IH Hv) as (i & c0 & Hi & Hs & Hlast).
        exists (S i), c0. split; [exact Hi|]. split; [exact Hs|].
        intros [|j] c' v' Hj Hc'; [lia|]. apply (Hlast j c' v'); [lia|exact Hc'].
      * intros ([|i] & c0 & Hi & Hs & Hlast).
        -- exfalso. assert (Hnone : last_spelling cs k = None); [|congruence].
           apply last_spelling_none. intros j c' v' Hj.
           apply (Hlast (S j) c' v'); [lia|exact Hj].
        -- apply IH. exists i, c0. split; [exact Hi|]. split; [exact Hs|].
           intros j c' v' Hj Hc'. apply (Hlast (S j) c' v'); [lia|exact Hc'].
    + pose proof (proj1 (last_spelling_none cs k) Elast) as Hnone. split.
      * intros Hc. exists 0%nat, c. split; [reflexivity|]. split.
        -- destruct (spelling c) as [[norm structure]|]; [|discriminate].
           destruct (String.eqb_spec k norm) as [->|_]; [|discriminate].
           congruence.
        -- intros [|j] c' v' Hj Hc'; [lia|]. apply (Hnone j c' v' Hc').
      * intros ([|i] & c0 & Hi & Hs & _).
        -- injection Hi as <-. rewrite Hs, String.eqb_refl. reflexivity.
        -- exfalso. apply (Hnone i c0 v Hi Hs).
Qed.

(** X8. [build_protocol_structure_map] (lines 246-253) builds a vocabulary
    whose keys are pairwise distinct and never empty; a key is bound to the
    spelling of the LAST constraint whose structure normalizes to it, and
    that spelling normalizes to the key. *)
Theorem build_protocol_structure_map_last_wins (constraints : list constraint) :
  let vocabulary := build_protocol_structure_map constraints in
  NoDup vocabulary.*1
  /\ (forall k v, (k, v) ∈ vocabulary <-> dict_get k vocabulary = Some v)
  /\ (forall k v,
        dict_get k vocabulary = Some v
        <-> exists i c,
              constraints !! i = Some c
              /\ c_structure c = Some v
              /\ normalize_text (Some v) = Some k /\ k <> ""
              /\ forall j c' v', (i < j)%nat -> constraints !! j = Some c' ->
                                 c_structure c' = Some v' ->
                                 normalize_text (Some v') <> Some k).
Proof.
  cbv zeta. rewrite build_protocol_structure_map_fold.
  assert (Hnd : NoDup (fold_left (fun d c => match spelling c with
                               | Some (norm, structure) => dict_set norm structure d
                               | None => d
                               end) constraints []).*1).
  { apply vocabulary_fold_NoDup. apply NoDup_nil_2. }
  split; [exact Hnd|]. split.
  - intros k v. apply dict_get_elem. exact Hnd.
  - intros k v. rewrite vocabulary_fold_get. cbn [dict_get].
    assert (Hget : match last_spelling constraints k with
                   | Some v0 => Some v0 | None => None end = Some v
                   <-> last_spelling constraints k = Some v).
    { destruct (last_spelling constraints k); tauto. }
    rewrite Hget, last_spelling_spec. split.
    + intros (i & c & Hi & Hs & Hlast). apply spelling_inv in Hs.
      destruct Hs as (Hs & Hn & Hk).
      exists i, c. repeat split; try assumption.
      intros j c' v' Hj Hc' Hs' Hn'. apply (Hlast j c' v' Hj Hc').
      apply spelling_inv. auto.
    + intros (i & c & Hi & Hs & Hn & Hk & Hlast).
      exists i, c. split; [exact Hi|]. split; [apply spelling_inv; auto|].
      intros j c' v' Hj Hc' Hs'. apply spelling_inv in Hs'.
      destruct Hs' as (Hs' & Hn' & _). apply (Hlast j c' v' Hj Hc' Hs' Hn').
Qed.

Lemma normalize_text_nonempty (s k : string) :
  normalize_text (Some s) = Some k -> k <> "" -> s <> "".
Proof.
  intros Hn Hk ->. apply Hk. cbn in Hn. injection Hn as <-. reflexivity.
Qed.

(** X9. Composition of [build_protocol_structure_map] (lines 246-253) with
    [resolve_structure] (lines 260-293): a structure name spelled as in any
    constraint of the protocol, with a non-empty normal form that has no
    (non-empty) alias, resolves by the direct lookup, without raising, to a
    spelling of the protocol's constraints with the same normal form. *)
Theorem resolve_structure_vocabulary (constraints : list constraint)
    (alias_map : gmap string string) (c : constraint) (s k : string) :
  c ∈ constraints ->
  c_structure c = Some s ->
  normalize_text (Some s) = Some k ->
  k <> "" ->
  truthy (alias_map !! k) = false ->
  exists v c',
    resolve_structure (Some s) alias_map (build_protocol_structure_map constraints)
      = Ok (Some v)
    /\ normalize_text (Some v) = Some k
    /\ c' ∈ constraints /\ c_structure c' = Some v.
Proof.
  intros Hc Hs Hn Hk Halias.
  assert (Hspell : spelling c = Some (k, s)) by (apply spelling_inv; auto).
  destruct (last_spelling constraints k) as [v|] eqn:Elast.
  - destruct (proj1 (last_spelling_spec constraints k v) Elast)
      as (i & c' & Hi & Hs' & _).
    apply spelling_inv in Hs'. destruct Hs' as (Hcs' & Hn' & _).
    exists v, c'. split; [|split; [exact Hn'|split; [|exact Hcs']]].
    + unfold resolve_structure.
      assert (Hraw : truthy (Some s) = true).
      { cbn. apply negb_true_iff. apply String.eqb_neq.
        apply (normalize_text_nonempty s k Hn Hk). }
      rewrite Hraw, Hn. cbn [negb].
      assert (Hnorm : truthy (Some k) = true).
      { cbn. apply negb_true_iff. apply String.eqb_neq. exact Hk. }
      rewrite Hnorm. cbn [negb mbind option_bind]. rewrite Halias.
      rewrite build_protocol_structure_map_fold, vocabulary_fold_get, Elast.
      assert (Hv : truthy (Some v) = true).
      { cbn. apply negb_true_iff. apply String.eqb_neq.
        apply (normalize_text_nonempty v k Hn' Hk). }
      rewrite Hv. reflexivity.
    + apply list_elem_of_lookup_2 with i. exact Hi.
  - exfalso. apply list_elem_of_lookup_1 in Hc. destruct Hc as [i Hi].
    apply (proj1 (last_spelling_none constraints k) Elast i c s Hi Hspell).
Qed.

Lemma resolve_structure_vocabulary_example :
  exists v c',
    resolve_structure (Some "PTV") ∅ (build_protocol_structure_map [sample_constraint])
      = Ok (Some v)
    /\ normalize_text (Some v) = Some "ptv"
    /\ c' ∈ [sample_constraint] /\ c_structure c' = Some v.
Proof.
  apply (resolve_structure_vocabulary [sample_constraint] ∅ sample_constraint "PTV" "ptv").
  - apply list_elem_of_here.
  - reflexivity.
  - reflexivity.
  - discriminate.
  - reflexivity.
Defined.

(** ** The population reference *)

Lemma insert_sorted_perm (x : Q) (l : list Q) : insert_sorted x l ≡ₚ x :: l.
Proof.
  induction l as [|y l IH]; [reflexivity|].
  cbn [insert_sorted]. destruct (Qle_bool x y); [reflexivity|].
  rewrite IH. apply Permutation_swap.
Qed.

Lemma np_sort_perm (l : list Q) : np_sort l ≡ₚ l.
Proof.
  unfold np_sort. induction l as [|x l IH]; [reflexivity|].
  cbn [fold_right]. rewrite insert_sorted_perm, IH. reflexivity.
Qed.

Lemma pool_fold_lookup (items : list (string * Q)) (d : gmap string (list Q)) (k : string) :
  NoDup items.*1 ->
  fold_left (fun d (kv : string * Q) =>
               match d !! kv.1 with
               | Some values => <[kv.1 := values ++ [kv.2]]> d
               | None => d
               end) items d !! k
  = match d !! k with
    | Some values =>
        Some (values ++ match (list_to_map items : gmap string Q) !! k with
                        | Some v => [v]
                        | None => []
                        end)
    | None => None
    end.
Proof.
  revert d. induction items as [|[k1 v1] items IH]; intros d Hnd.
  - cbn [fold_left]. change (list_to_map []) with (∅ : gmap string Q).
    rewrite lookup_empty. destruct (d !! k); [rewrite app_nil_r|]; reflexivity.
  - cbn [fmap list_fmap fst] in Hnd. apply NoDup_cons in Hnd. destruct Hnd as [Hk1 Hnd].
    assert (Hrest : (list_to_map items : gmap string Q) !! k1 = None)
      by (apply not_elem_of_list_to_map_1; assumption).
    cbn [fold_left fst snd]. rewrite (IH _ Hnd).
    cbn [list_to_map foldr fst snd]. fold (list_to_map (M := gmap string Q) items).
    destruct (decide (k1 = k)) as [<-|Hne].
    + rewrite lookup_insert_eq, Hrest.
      destruct (d !! k1) as [values|] eqn:Ed.
      * rewrite lookup_insert_eq, app_nil_r. reflexivity.
      * rewrite Ed. reflexivity.
    + rewrite (lookup_insert_ne _ k1 k) by assumption.
      destruct (d !! k1) as [values1|]; [|reflexivity].
      rewrite lookup_insert_ne by assumption. reflexivity.
Qed.

Lemma pool_plan_lookup (d : gmap string (list Q)) (plan : plan_vector) (k : string) :
  pool_plan d plan !! k
  = match d !! k with
    | Some values =>
        Some (values ++ match plan !! k with Some v => [v] | None => [] end)
    | None => None
    end.
Proof.
  unfold pool_plan. rewrite pool_fold_lookup by apply NoDup_fst_map_to_list.
  rewrite list_to_map_to_list. reflexivity.
Qed.

Lemma pool_column_lookup (column : list (option plan_vector))
    (d : gmap string (list Q)) (k : string) :
  pool_column column d !! k
  = match d !! k with
    | Some values => Some (values ++ column_values column k)
    | None => None
    end.
Proof.
  unfold pool_column. revert d.
  induction column as [|cell column IH]; intros d; cbn [fold_left].
  - destruct (d !! k); [rewrite app_nil_r|]; reflexivity.
  - rewrite IH. unfold column_values. cbn [omap list_omap].
    fold (column_values column k).
    destruct cell as [plan|]; cbn [mbind option_bind].
    + rewrite pool_plan_lookup. destruct (d !! k) as [values|]; [|reflexivity].
      destruct (plan !! k); rewrite <- app_assoc; reflexivity.
    + reflexivity.
Qed.

Lemma build_reference_lookup (column : list (option plan_vector))
    (constraint_lookup : gmap string meta) (dirs : gmap string string)
    (ws : gmap string Q) (k : string) :
  distributions (build_reference_from_plan_constraints column constraint_lookup dirs ws) !! k
  = match constraint_lookup !! k with
    | Some _ =>
        match column_values column k with
        | [] => None
        | _ => Some (np_sort (column_values column k))
        end
    | None => None
    end.
Proof.
  unfold build_reference_from_plan_constraints. cbn [distributions].
  rewrite lookup_omap, pool_column_lookup, lookup_fmap.
  destruct (constraint_lookup !! k); cbn; [|reflexivity].
  destruct (column_values column k); reflexivity.
Qed.

(** X10. [build_reference_from_plan_constraints] (lines 373-398): the
    distribution of a key is present exactly when the key is one of the
    constraint dictionary and some plan of the column has a value for it; it
    is then the ascending rearrangement of all the values the plans of the
    column give to that key, one per plan that has it.  Values under keys
    that are not in the dictionary are dropped. *)
Theorem build_reference_pools_column (column : list (option plan_vector))
    (constraint_lookup : gmap string meta) (dirs : gmap string string)
    (ws : gmap string Q) (k : string) :
  let ref := build_reference_from_plan_constraints column constraint_lookup dirs ws in
  (is_Some (distributions ref !! k)
   <-> is_Some (constraint_lookup !! k) /\ column_values column k <> [])
  /\ (forall values, distributions ref !! k = Some values ->
        values = np_sort (column_values column k)
        /\ values ≡ₚ column_values column k
        /\ sorted values
        /\ length values = length (column_values column k))
  /\ constraint_meta ref = constraint_lookup
  /\ directions ref = dirs /\ weights ref = ws.
Proof.
  cbv zeta. rewrite build_reference_lookup. split; [|split; [|auto]].
  - destruct (constraint_lookup !! k) as [m|].
    + destruct (column_values column k) as [|x vs].
      * split; [intros [? H]; discriminate|intros [_ H]; congruence].
      * split; [intros _; split; [eauto|discriminate]|eauto].
    + split; [intros [? H]; discriminate|intros [[? H] _]; discriminate].
  - intros values. destruct (constraint_lookup !! k); [|discriminate].
    destruct (column_values column k) as [|x vs]; [discriminate|].
    intros [= <-]. split; [reflexivity|]. split; [exact (np_sort_perm (x :: vs))|].
    split; [exact (np_sort_sorted (x :: vs))|exact (np_sort_length (x :: vs))].
Qed.

Lemma protocol_reference_inv (int_of_string : string -> option Z) (float_str : Q -> string)
    (constraints : list constraint) (column : list (option plan_vector)) (ref : reference) :
  protocol_reference int_of_string float_str constraints column = Ok ref ->
  let lookup := build_constraint_lookup int_of_string float_str constraints in
  ref = build_reference_from_plan_constraints column lookup
          (omap entry_direction lookup) (omap entry_weight lookup).
Proof.
  unfold protocol_reference, build_constraint_context.
  destruct (fold_left context_step _ _) as [[d w]|e] eqn:Efold; [|discriminate].
  cbn [res_bind fst snd]. intros [= <-].
  destruct (context_fold_maps _ _ _ Efold) as [-> ->]. reflexivity.
Qed.

Lemma Qsum_nonneg (l : list Q) : Forall (fun x => (0 < x)%Q) l -> (0 <= Qsum l)%Q.
Proof.
  unfold Qsum. induction 1 as [|x l Hx _ IH]; cbn [fold_right]; [lra|].
  set (rest := fold_right Qplus 0%Q l) in *. clearbody rest. lra.
Qed.

Lemma Qsum_positive (l : list Q) (w : Q) :
  Forall (fun x => (0 < x)%Q) l -> w ∈ l -> (0 < Qsum l)%Q.
Proof.
  intros Hall Hw. induction Hall as [|x l Hx Hall IH].
  - apply elem_of_nil in Hw. contradiction.
  - pose proof (Qsum_nonneg l Hall) as Hrest. unfold Qsum in *. cbn [fold_right].
    set (rest := fold_right Qplus 0%Q l) in *. clearbody rest. lra.
Qed.

Lemma usable_weights_positive (plan : plan_vector) (dists : gmap string (list Q))
    (dirs : gmap string string) (ws : gmap string Q) :
  (forall k w, ws !! k = Some w -> (0 < w)%Q) ->
  Forall (fun x => (0 < x)%Q) (omap (usable_weight dists dirs ws) (map_to_list plan)).
Proof.
  intros Hw. apply Forall_forall. intros x Hx.
  apply list_elem_of_omap in Hx. destruct Hx as ([k v] & _ & Hx).
  unfold usable_weight in Hx. cbn [fst] in Hx.
  destruct (dists !! k); [|discriminate]. destruct (dirs !! k); [|discriminate].
  destruct (ws !! k) as [w|] eqn:Ew; [|discriminate].
  injection Hx as <-. apply (Hw k w Ew).
Qed.

Lemma usable_weights_none (items : list (string * Q)) (dists : gmap string (list Q))
    (dirs : gmap string string) (ws : gmap string Q) :
  (forall kv, kv ∈ items -> ws !! kv.1 = None) ->
  omap (usable_weight dists dirs ws) items = [].
Proof.
  induction items as [|kv items IH]; intros Hnone; [reflexivity|].
  rewrite omap_cons. unfold usable_weight at 1.
  rewrite (Hnone kv) by apply list_elem_of_here.
  destruct (dists !! kv.1); [destruct (dirs !! kv.1)|];
    apply IH; intros kv' Hkv'; apply Hnone; apply list_elem_of_further; exact Hkv'.
Qed.

Lemma column_values_member (column : list (option plan_vector)) (plan : plan_vector)
    (k : string) (v : Q) :
  Some plan ∈ column -> plan !! k = Some v -> v ∈ column_values column k.
Proof.
  intros Hplan Hk. unfold column_values. apply list_elem_of_omap.
  exists (Some plan). split; [assumption|]. cbn. exact Hk.
Qed.

(** X11. [build_reference_from_plan_constraints] (lines 373-398) followed by
    [score_plan_constraints_df] / [compute_plan_score] (lines 401-415 and
    485-504), as [build_population_reference] chains them: a plan of the
    population is left without a score by the reference built from that
    population exactly when none of its keys has a weight, that is when none
    is a constraint with a known direction and a positive priority. *)
Theorem population_plan_unscored_iff (int_of_string : string -> option Z)
    (float_str : Q -> string) (constraints : list constraint)
    (column : list (option plan_vector)) (ref : reference) (plan : plan_vector) :
  protocol_reference int_of_string float_str constraints column = Ok ref ->
  Some plan ∈ column ->
  compute_plan_score plan (distributions ref) (directions ref) (weights ref) = None
  <-> forall k, is_Some (plan !! k) -> weights ref !! k = None.
Proof.
  intros Href Hplan.
  pose proof (protocol_reference_wf _ _ _ _ _ Href) as [_ Hpos].
  apply protocol_reference_inv in Href. cbv zeta in Href.
  set (lookup := build_constraint_lookup int_of_string float_str constraints) in *.
  rewrite compute_plan_score_absent_iff. unfold total_usable_weight. split.
  - intros Hzero k [v Hk].
    destruct (weights ref !! k) as [w|] eqn:Ew; [exfalso|reflexivity].
    assert (Hin : w ∈ omap (usable_weight (distributions ref) (directions ref)
                              (weights ref)) (map_to_list plan)).
    { apply list_elem_of_omap. exists (k, v). split; [apply elem_of_map_to_list; exact Hk|].
      unfold usable_weight. cbn [fst]. rewrite Ew.
      subst ref. rewrite build_reference_lookup.
      cbn [directions weights build_reference_from_plan_constraints] in Ew |- *.
      rewrite lookup_omap in Ew. rewrite lookup_omap.
      destruct (lookup !! k) as [m|]; [|discriminate]. cbn in Ew |- *.
      pose proof (column_values_member column plan k v Hplan Hk) as Hv.
      destruct (column_values column k) as [|x vs];
        [apply elem_of_nil in Hv; contradiction|].
      unfold entry_weight in Ew.
      destruct (entry_direction m); [reflexivity|discriminate]. }
    pose proof (Qsum_positive _ w (usable_weights_positive plan _ _ _ Hpos) Hin). lra.
  - intros Hnone.
    replace (omap (usable_weight (distributions ref) (directions ref) (weights ref))
               (map_to_list plan)) with (@nil Q); [reflexivity|].
    symmetry. apply usable_weights_none. intros [k v] Hkv. cbn [fst].
    apply elem_of_map_to_list in Hkv. apply Hnone. eauto.
Qed.
Lemma population_plan_unscored_example :
  compute_plan_score sample_plan (distributions sample_reference)
    (directions sample_reference) (weights sample_reference) = None
  <-> forall k, is_Some (sample_plan !! k) -> weights sample_reference !! k = None.
Proof.
  apply (population_plan_unscored_iff (fun _ => None) (fun _ => "")
           [sample_constraint] sample_column sample_reference sample_plan).
  - vm_compute. reflexivity.
  - unfold sample_column. do 3 apply list_elem_of_further. apply list_elem_of_here.
Defined.

(** ** The plan constraint extractor *)

Section ExtractBounds.

Variable float_of_string : string -> option Q.
Variable int_of_string : string -> option Z.
Variable float_str : Q -> string.
Variable constraint_lookup : gmap string meta.
Variable alias_map : gmap string string.
Variable protocol_structure_map : list (string * string).

Lemma extract_step_raise (e : exn) (r : result) :
  extract_step float_of_string int_of_string float_str constraint_lookup alias_map
    protocol_structure_map (Raise e) r = Raise e.
Proof. reflexivity. Qed.

Lemma extract_step_cases (matched matched' : plan_vector) (r : result) :
  extract_step float_of_string int_of_string float_str constraint_lookup alias_map
    protocol_structure_map (Ok matched) r = Ok matched' ->
  matched' = matched
  \/ exists k v, is_Some (constraint_lookup !! k) /\ matched !! k = None
                 /\ matched' = <[k := v]> matched.
Proof.
  unfold extract_step. cbn [res_bind].
  destruct (result_key_str _ _ _ _ _ r) as [k|e]; [|discriminate]. cbn [res_bind].
  destruct (constraint_lookup !! k) as [m|] eqn:Ek; [|intros [= <-]; auto].
  destruct (parse_numeric float_of_string (achieved_raw r)) as [[v|]|e];
    cbn [res_bind]; [|intros [= <-]; auto|discriminate].
  destruct (matched !! k) eqn:Em; intros [= <-]; [auto|].
  right. exists k, v. rewrite Ek. eauto.
Qed.

Lemma extract_fold_bounds (rs : list result) (matched matched' : plan_vector) :
  fold_left (extract_step float_of_string int_of_string float_str constraint_lookup
               alias_map protocol_structure_map) rs (Ok matched) = Ok matched' ->
  matched ⊆ matched'
  /\ (forall k, is_Some (matched' !! k) ->
                is_Some (matched !! k) \/ is_Some (constraint_lookup !! k))
  /\ (size matched' <= size matched + length rs)%nat.
Proof.
  revert matched. induction rs as [|r rs IH]; intros matched; cbn [fold_left].
  - intros [= <-]. split; [reflexivity|]. split; [auto|]. cbn. lia.
  - destruct (extract_step _ _ _ _ _ _ (Ok matched) r) as [m1|e] eqn:Estep.
    2:{ rewrite res_fold_raise by apply extract_step_raise. discriminate. }
    intros Hfold. destruct (IH m1 Hfold) as (Hsub & Hkeys & Hsize).
    apply extract_step_cases in Estep.
    destruct Estep as [->|(k & v & Hk & Hfresh & ->)].
    + split; [exact Hsub|]. split; [exact Hkeys|]. cbn [length]. lia.
    + split; [|split].
      * etransitivity; [|exact Hsub]. apply insert_subseteq. exact Hfresh.
      * intros k' Hk'. destruct (Hkeys k' Hk') as [Hin|Hin]; [|auto].
        destruct (decide (k = k')) as [<-|Hne]; [auto|].
        rewrite lookup_insert_ne in Hin by assumption. auto.
      * rewrite map_size_insert_None in Hsize by assumption. cbn [length]. lia.
Qed.

Lemma extract_result_keys (results : option (list result)) (matched : plan_vector) :
  extract_plan_constraints float_of_string int_of_string float_str results
    constraint_lookup alias_map protocol_structure_map = Ok matched ->
  (forall k, is_Some (matched !! k) -> is_Some (constraint_lookup !! k))
  /\ (size matched <= length (default [] results))%nat.
Proof.
  unfold extract_plan_constraints. intros Hres. destruct results as [rs|].
  - apply extract_fold_bounds in Hres. destruct Hres as (_ & Hkeys & Hsize). split.
    + intros k Hk. destruct (Hkeys k Hk) as [[? H]|H]; [|exact H].
      rewrite lookup_empty in H. discriminate.
    + rewrite map_size_empty in Hsize. exact Hsize.
  - injection Hres as <-. split.
    + intros k [? H]. rewrite lookup_empty in H. discriminate.
    + rewrite map_size_empty. lia.
Qed.

Lemma keys_size_le {A B : Type} (m1 : gmap string A) (m2 : gmap string B) :
  (forall k, is_Some (m1 !! k) -> is_Some (m2 !! k)) -> (size m1 <= size m2)%nat.
Proof.
  intros Hkeys.
  rewrite <- (size_dom (D := gset string) m1), <- (size_dom (D := gset string) m2).
  apply subseteq_size. intros k Hk. apply elem_of_dom in Hk. apply elem_of_dom.
  apply Hkeys. exact Hk.
Qed.

(** X12. [extract_plan_constraints] (lines 418-464), whatever the records
    are: when it returns, every key of the vector is a key of the constraint
    dictionary, and the vector has no more entries than there are records,
    nor than there are constraints. *)
Theorem extract_plan_constraints_keys (results : option (list result))
    (matched : plan_vector) :
  extract_plan_constraints float_of_string int_of_string float_str results
    constraint_lookup alias_map protocol_structure_map = Ok matched ->
  (forall k, is_Some (matched !! k) -> is_Some (constraint_lookup !! k))
  /\ (size matched <= length (default [] results))%nat
  /\ (size matched <= size constraint_lookup)%nat.
Proof.
  intros Hres. destruct (extract_result_keys results matched Hres) as [Hkeys Hsize].
  split; [exact Hkeys|]. split; [exact Hsize|].
  apply keys_size_le. exact Hkeys.
Qed.

End ExtractBounds.

Lemma extract_plan_constraints_keys_example :
  (forall k, is_Some (({[ sample_key := 50%Q ]} : plan_vector) !! k) ->
             is_Some (sample_lookup !! k))
  /\ (size ({[ sample_key := 50%Q ]} : plan_vector) <= length (default [] (Some sample_results)))%nat
  /\ (size ({[ sample_key := 50%Q ]} : plan_vector) <= size sample_lookup)%nat.
Proof.
  apply (extract_plan_constraints_keys (fun _ => None) (fun _ => None) (fun _ => "")
           sample_lookup ∅ sample_vocabulary (Some sample_results)).
  vm_compute. reflexivity.
Defined.

Lemma parse_numeric_raise (float_of_string : string -> option Q) (v : pyval) (e : exn) :
  parse_numeric float_of_string v = Raise e -> e = OverflowError /\ overflows v.
Proof.
  rewrite parse_numeric_cases. destruct v as [|b|z|x|s|]; try discriminate.
  - destruct (Z.abs z <? float_overflow_bound) eqn:E; [discriminate|].
    intros [= <-]. split; [reflexivity|]. exists z. split; [reflexivity|].
    apply Z.ltb_ge. exact E.
  - destruct (String.eqb (py_strip s) ""); discriminate.
Qed.


Section ExtractRaises.

Variable float_of_string : string -> option Q.
Variable int_of_string : string -> option Z.
Variable float_str : Q -> string.
Variable constraint_lookup : gmap string meta.
Variable alias_map : gmap string string.
Variable protocol_structure_map : list (string * string).

Lemma result_key_str_raise (r : result) (e : exn) :
  result_key_str float_of_string int_of_string float_str alias_map
    protocol_structure_map r = Raise e ->
  e = OverflowError /\ (overflows (goal_value r) \/ overflows (variation_value r)).
Proof.
  unfold result_key_str.
  destruct (resolve_structure_returns
              (py_or (r_structure_tg263 r) (r_structure r)) alias_map
              protocol_structure_map) as [o ->].
  cbn [res_bind].
  destruct (parse_numeric float_of_string (b_value (default empty_bound (r_goal r))))
    as [g|e1] eqn:Eg; cbn [res_bind].
  - destruct (parse_numeric float_of_string
                (b_value (default empty_bound (r_variation r)))) as [v|e2] eqn:Ev;
      cbn [res_bind]; [discriminate|].
    intros [= <-]. apply parse_numeric_raise in Ev. destruct Ev as [-> Hv]. auto.
  - intros [= <-]. apply parse_numeric_raise in Eg. destruct Eg as [-> Hg]. auto.
Qed.


Lemma extract_step_raises (matched : plan_vector) (r : result) (e : exn) :
  extract_step float_of_string int_of_string float_str constraint_lookup alias_map
    protocol_structure_map (Ok matched) r = Raise e ->
  e = OverflowError
  /\ (overflows (goal_value r) \/ overflows (variation_value r)
      \/ overflows (achieved_raw r)).
Proof.
  unfold extract_step. cbn [res_bind].
  destruct (result_key_str _ _ _ _ _ r) as [k|e1] eqn:Ek; cbn [res_bind].
  - destruct (constraint_lookup !! k); [|discriminate].
    destruct (parse_numeric float_of_string (achieved_raw r)) as [[v|]|e2] eqn:Ea;
      cbn [res_bind]; [destruct (matched !! k); discriminate|discriminate|].
    intros [= <-]. apply parse_numeric_raise in Ea. destruct Ea as [-> Ha]. auto.
  - intros [= <-]. apply result_key_str_raise in Ek. destruct Ek as [-> Hk]. tauto.
Qed.

Lemma extract_fold_raises (rs : list result) (matched : plan_vector) (e : exn) :
  fold_left (extract_step float_of_string int_of_string float_str constraint_lookup
               alias_map protocol_structure_map) rs (Ok matched) = Raise e ->
  e = OverflowError
  /\ exists i r, rs !! i = Some r
                 /\ (overflows (goal_value r) \/ overflows (variation_value r)
                     \/ overflows (achieved_raw r)).
Proof.
  revert matched. induction rs as [|r rs IH]; intros matched; cbn [fold_left];
    [discriminate|].
  destruct (extract_step _ _ _ _ _ _ (Ok matched) r) as [m1|e1] eqn:Estep.
  - intros Hfold. destruct (IH m1 Hfold) as (-> & i & r' & Hi & Hr').
    split; [reflexivity|]. exists (S i), r'. auto.
  - rewrite res_fold_raise by apply extract_step_raise. intros [= <-].
    apply extract_step_raises in Estep. destruct Estep as [-> Hr].
    split; [reflexivity|]. exists 0%nat, r. auto.
Qed.


End ExtractRaises.

(** ** Operators and keys *)

Lemma lower_char_comparison (c : ascii) :
  is_comparison_char (lower_char c) = true -> lower_char c = c.
Proof. destruct c as [[] [] [] [] [] [] [] []]; cbn; first [reflexivity|discriminate]. Qed.

Lemma lower_comparison (l : chars) :
  forallb is_comparison_char (lower l) = true -> lower l = l.
Proof.
  induction l as [|c l IH]; [reflexivity|].
  cbn [lower map forallb]. intros H. apply andb_true_iff in H. destruct H as [Hc Hl].
  rewrite (lower_char_comparison c Hc). f_equal. apply IH. exact Hl.
Qed.

Lemma lstrip_lower (l : chars) : lstrip (lower l) = lower (lstrip l).
Proof.
  induction l as [|c l IH]; [reflexivity|].
  cbn [lower map lstrip]. rewrite is_space_lower_char.
  destruct (is_space c); [exact IH|reflexivity].
Qed.

Lemma rev_lower (l : chars) : rev (lower l) = lower (rev l).
Proof. unfold lower. symmetry. apply List.map_rev. Qed.

Lemma strip_lower (l : chars) : strip (lower l) = lower (strip l).
Proof.
  unfold strip, rstrip.
  rewrite lstrip_lower, rev_lower, lstrip_lower, rev_lower. reflexivity.
Qed.

Lemma lstrip_head (l : chars) :
  match lstrip l with [] => True | c :: _ => is_space c = false end.
Proof.
  induction l as [|c l IH]; [exact I|].
  cbn [lstrip]. destruct (is_space c) eqn:E; [exact IH|exact E].
Qed.

Lemma lstrip_fixed (c : ascii) (l : chars) :
  is_space c = false -> lstrip (c :: l) = c :: l.
Proof. intros H. cbn [lstrip]. rewrite H. reflexivity. Qed.

Lemma lstrip_idem (l : chars) : lstrip (lstrip l) = lstrip l.
Proof.
  pose proof (lstrip_head l) as H. destruct (lstrip l) as [|c m]; [reflexivity|].
  apply lstrip_fixed. exact H.
Qed.

Lemma lstrip_snoc (l : chars) (c : ascii) :
  is_space c = false -> exists m, lstrip (l ++ [c]) = m ++ [c].
Proof.
  intros Hc. induction l as [|a l IH].
  - exists []. cbn. rewrite Hc. reflexivity.
  - cbn [app lstrip]. destruct (is_space a); [exact IH|].
    exists (a :: l). reflexivity.
Qed.

Lemma strip_idem (l : chars) : strip (strip l) = strip l.
Proof.
  unfold strip. pose proof (lstrip_head l) as H.
  destruct (lstrip l) as [|c m]; [reflexivity|].
  assert (Hr : exists y, rstrip (c :: m) = c :: y).
  { unfold rstrip. cbn [rev]. destruct (lstrip_snoc (rev m) c H) as [x ->].
    rewrite rev_app_distr. cbn. eauto. }
  destruct Hr as [y Hr]. rewrite Hr, (lstrip_fixed c y H), <- Hr.
  unfold rstrip. rewrite rev_involutive, lstrip_idem. reflexivity.
Qed.

Lemma comparison_op_cases (s : string) :
  str_in s comparison_ops = true -> s = "<=" \/ s = "<" \/ s = ">=" \/ s = ">".
Proof.
  unfold str_in, comparison_ops. cbn [existsb]. rewrite !orb_true_iff, !String.eqb_eq.
  intuition congruence.
Qed.

Lemma comparison_op_shape (s : string) :
  str_in s comparison_ops = true ->
  py_strip s = s /\ s <> "" /\ forallb is_comparison_char (to_chars s) = true.
Proof.
  intros H. apply comparison_op_cases in H.
  destruct H as [-> | [-> | [-> | ->]]]; (split; [reflexivity|split; [discriminate|reflexivity]]).
Qed.

Lemma py_lower_comparison (s : string) :
  str_in (py_lower s) comparison_ops = true -> py_lower s = s.
Proof.
  intros H. apply comparison_op_shape in H. destruct H as (_ & _ & H).
  unfold py_lower, to_chars, of_chars in *.
  rewrite list_ascii_of_string_of_list_ascii in H.
  apply lower_comparison in H. unfold to_chars in H. rewrite H.
  apply string_of_list_ascii_of_string.
Qed.

Lemma py_strip_idem (s : string) : py_strip (py_strip s) = py_strip s.
Proof.
  unfold py_strip, to_chars, of_chars.
  rewrite list_ascii_of_string_of_list_ascii, strip_idem. reflexivity.
Qed.

Lemma py_strip_lower (s : string) : py_strip (py_lower s) = py_lower (py_strip s).
Proof.
  unfold py_strip, py_lower, to_chars, of_chars.
  rewrite !list_ascii_of_string_of_list_ascii, strip_lower. reflexivity.
Qed.

Lemma py_lower_idem (s : string) : py_lower (py_lower s) = py_lower s.
Proof.
  unfold py_lower, to_chars, of_chars.
  rewrite list_ascii_of_string_of_list_ascii, lower_idem. reflexivity.
Qed.

Lemma normalize_operator_idem (value : option string) :
  normalize_operator (normalize_operator value) = normalize_operator value.
Proof.
  destruct value as [v|]; [|reflexivity]. cbn [normalize_operator].
  destruct (str_in (py_strip v) comparison_ops) eqn:E; cbn [normalize_operator].
  - rewrite py_strip_idem, E. reflexivity.
  - rewrite py_strip_lower, py_strip_idem.
    destruct (str_in (py_lower (py_strip v)) comparison_ops); [reflexivity|].
    rewrite py_lower_idem. reflexivity.
Qed.

(** X14. [normalize_operator] (lines 62-68) followed by
    [direction_from_operator] (lines 71-78), as the constraint dictionary
    and the context compose them: the direction of an operator depends only
    on the operator stripped of surrounding whitespace; it is [lower] for
    [<=] and [<], [higher] for [>=] and [>], and absent for anything else,
    the empty and the missing operator included. *)
Theorem direction_of_normalized_operator (operator : option string) :
  direction_from_operator (normalize_operator operator)
  = match operator with
    | None => None
    | Some v =>
        if str_in (py_strip v) LOWER_BETTER_OPS then Some "lower"
        else if str_in (py_strip v) HIGHER_BETTER_OPS then Some "higher"
        else None
    end.
Proof.
  destruct operator as [v|]; [|reflexivity]. cbn [normalize_operator].
  set (s := py_strip v).
  destruct (str_in s comparison_ops) eqn:E.
  - unfold direction_from_operator.
    destruct (comparison_op_shape s E) as (_ & Hne & _).
    replace (truthy (Some s)) with true; [reflexivity|].
    symmetry. cbn. apply negb_true_iff, String.eqb_neq. exact Hne.
  - assert (Hlow : str_in (py_lower s) comparison_ops = false).
    { destruct (str_in (py_lower s) comparison_ops) eqn:E'; [|reflexivity].
      rewrite (py_lower_comparison s E') in E'. congruence. }
    assert (Hsub : forall t, str_in t comparison_ops = false ->
                     str_in t LOWER_BETTER_OPS = false
                     /\ str_in t HIGHER_BETTER_OPS = false).
    { intros t. unfold str_in, comparison_ops, LOWER_BETTER_OPS, HIGHER_BETTER_OPS.
      cbn [existsb]. rewrite !orb_false_iff. tauto. }
    destruct (Hsub s E) as [-> ->]. destruct (Hsub _ Hlow) as [Hl Hh].
    unfold direction_from_operator. rewrite Hl, Hh.
    destruct (negb (truthy (Some (py_lower s)))); reflexivity.
Qed.

(** X15. [normalize_operator] (lines 62-68) and [constraint_key] (lines
    81-98): normalizing an operator twice changes nothing, so the key of
    already normalized components is the same key; a constraint and the
    metadata stored for it (which keeps the normalized operators) have the
    same operators in their keys. *)
Theorem constraint_key_canonical
    (structure metric_display goal_operator : option string) (goal_value : option Q)
    (variation_operator : option string) (variation_value : option Q)
    (priority : option Z) :
  normalize_operator (normalize_operator goal_operator) = normalize_operator goal_operator
  /\ constraint_key (normalize_text structure) (normalize_text metric_display)
       (normalize_operator goal_operator) goal_value
       (normalize_operator variation_operator) variation_value priority
     = constraint_key structure metric_display goal_operator goal_value
         variation_operator variation_value priority.
Proof.
  split; [apply normalize_operator_idem|].
  unfold constraint_key. rewrite !normalize_operator_idem.
  assert (Hn : forall t, normalize_text (normalize_text t) = normalize_text t).
  { intros [t|]; [|reflexivity]. cbn [normalize_text]. f_equal.
    unfold to_chars, of_chars. rewrite list_ascii_of_string_of_list_ascii.
    f_equal. apply normalize_chars_idem. }
  rewrite !Hn. reflexivity.
Qed.

(** ** The plateau estimate *)

Module PlateauCases.

Import Plateau.
Local Open Scope float_scope.
#[local] Set Warnings "-inexact-float".

Lemma insert_by_key_member (p x : float * float) (l : list (float * float)) :
  In x (insert_by_key p l) -> x = p \/ In x l.
Proof.
  induction l as [|q l IH]; cbn [insert_by_key].
  - intros [<-|[]]. auto.
  - destruct (PrimFloat.ltb q.1 p.1).
    + intros [<-|H]; [right; left; reflexivity|].
      destruct (IH H) as [->|Hl]; [auto|right; right; exact Hl].
    + intros [<-|H]; [auto|right; exact H].
Qed.

Lemma sorted_by_key_member (x : float * float) (l : list (float * float)) :
  In x (sorted_by_key l) -> In x l.
Proof.
  unfold sorted_by_key. induction l as [|p l IH]; cbn [fold_right]; [auto|].
  intros H. apply insert_by_key_member in H. destruct H as [->|H]; [left; reflexivity|].
  right. apply IH. exact H.
Qed.

Lemma combine_map_member {A B : Type} (f : A -> B) (l : list A) (p : A * B) :
  In p (combine l (map f l)) -> In p.1 l /\ p.2 = f p.1.
Proof.
  induction l as [|a l IH]; cbn [map combine]; [intros []|].
  intros [<-|H]; [split; [left|]; reflexivity|].
  destruct (IH H) as [Hin Hf]. split; [right; exact Hin|exact Hf].
Qed.

Lemma none_meets_find (n_values : list float) (intercept slope target : float) :
  none_meets n_values intercept slope target = true ->
  List.find (fun p : float * float => PrimFloat.leb p.2 target)
    (sorted_by_key (combine n_values (map (predict intercept slope) n_values))) = None.
Proof.
  intros Hnone. unfold none_meets in Hnone. rewrite forallb_forall in Hnone.
  destruct (List.find _ _) as [p|] eqn:Efind; [|reflexivity].
  apply List.find_some in Efind. destruct Efind as [Hin Hle].
  apply sorted_by_key_member, combine_map_member in Hin. destruct Hin as [Hin Hp].
  specialize (Hnone _ Hin). cbn beta in Hnone. rewrite Hp in Hle.
  rewrite Hle in Hnone. discriminate.
Qed.

Lemma some_meets_find (n_values : list float) (intercept slope target : float) :
  none_meets n_values intercept slope target = false ->
  exists p,
    List.find (fun p : float * float => PrimFloat.leb p.2 target)
      (sorted_by_key (combine n_values (map (predict intercept slope) n_values))) = Some p
    /\ In p.1 n_values /\ PrimFloat.leb (predict intercept slope p.1) target = true.
Proof.
  intros Hsome.
  destruct (List.find _ _) as [p|] eqn:Efind.
  - exists p. split; [reflexivity|].
    apply List.find_some in Efind. destruct Efind as [Hin Hle].
    apply sorted_by_key_member, combine_map_member in Hin. destruct Hin as [Hin Hp].
    rewrite <- Hp. auto.
  - exfalso. assert (Hall : none_meets n_values intercept slope target = true);
      [|congruence].
    unfold none_meets. apply forallb_forall. intros n Hn.
    assert (Hin : In (n, predict intercept slope n)
                    (sorted_by_key (combine n_values
                                      (map (predict intercept slope) n_values)))).
    { clear Efind Hsome. unfold sorted_by_key.
      induction n_values as [|a l IH]; [destruct Hn|].
      cbn [map combine fold_right].
      assert (Hback : forall p x l', x = p \/ In x l' -> In x (insert_by_key p l')).
      { intros p x l'. induction l' as [|q l' IH']; cbn [insert_by_key].
        - intros [->|[]]. left. reflexivity.
        - destruct (PrimFloat.ltb q.1 p.1).
          + intros [->|[->|H]]; [right; apply IH'; auto|left; reflexivity|
                                 right; apply IH'; auto].
          + intros [->|H]; [left; reflexivity|right; exact H]. }
      apply Hback. destruct Hn as [->|Hn]; [left; reflexivity|right; apply IH; exact Hn]. }
    pose proof (List.find_none _ _ Efind _ Hin) as Hf. cbn [snd] in Hf. rewrite Hf. reflexivity.
Qed.

(** X16. [estimate_n_star] (lines 86-98) on any array of sizes: on an empty
    array it raises (from [np.max]); otherwise, when no sampled size has a
    prediction at or below the target, the result is [int] of the LAST
    element of the array as given, and when some size has one, the result is
    [int] of a sampled size whose prediction is at or below the target. *)
Theorem estimate_n_star_cases (n_values : list float)
    (intercept slope plateau_fraction : float) :
  (n_values = [] ->
   estimate_n_star n_values intercept slope plateau_fraction = Raise ValueError)
  /\ (forall target,
        plateau_target n_values intercept slope plateau_fraction = Ok target ->
        if none_meets n_values intercept slope target
        then estimate_n_star n_values intercept slope plateau_fraction
             = match last n_values with
               | Some n => int_of_prim n
               | None => Raise IndexError
               end
        else exists n,
               In n n_values
               /\ PrimFloat.leb (predict intercept slope n) target = true
               /\ estimate_n_star n_values intercept slope plateau_fraction
                  = int_of_prim n).
Proof.
  split; [intros ->; reflexivity|].
  intros target. unfold plateau_target, estimate_n_star.
  destruct (np_max (map (predict intercept slope) n_values)) as [max_pred|e];
    [|discriminate].
  cbn [res_bind]. intros [= <-].
  set (target := intercept + plateau_fraction * (max_pred - intercept)).
  destruct (none_meets n_values intercept slope target) eqn:E.
  - rewrite (none_meets_find _ _ _ _ E). reflexivity.
  - destruct (some_meets_find _ _ _ _ E) as (p & -> & Hin & Hle).
    exists p.1. auto.
Qed.

Lemma estimate_n_star_cases_example :
  estimate_n_star [100; 10; 50] 0.10 0.40 0.05 = int_of_prim 50.
Proof.
  destruct (estimate_n_star_cases [100; 10; 50] 0.10 0.40 0.05) as [_ H].
  specialize (H (0.10 + 0.05 * (predict 0.10 0.40 10 - 0.10)) ltac:(vm_compute; reflexivity)).
  exact H.
Defined.

End PlateauCases.

(** ** The train/test split *)

Lemma fold_min_le (sizes : list Z) (size : Z) :
  fold_left Z.min sizes size <= size
  /\ Forall (fun s => fold_left Z.min sizes size <= s) sizes
  /\ (fold_left Z.min sizes size = size \/ In (fold_left Z.min sizes size) sizes).
Proof.
  revert size. induction sizes as [|a sizes IH]; intros size; cbn [fold_left].
  - split; [lia|]. split; [constructor|auto].
  - destruct (IH (Z.min size a)) as (Hle & Hall & Hin). split; [lia|]. split.
    + constructor; [lia|exact Hall].
    + destruct Hin as [Hin|Hin]; [|right; right; exact Hin].
      rewrite Hin. destruct (Z.min_spec size a) as [[_ ->]|[_ ->]]; [auto|].
      right. left. reflexivity.
Qed.

Lemma min_train_member (sample_sizes : list Z) :
  sample_sizes <> [] ->
  In (min_train sample_sizes) sample_sizes
  /\ Forall (fun s => min_train sample_sizes <= s) sample_sizes.
Proof.
  destruct sample_sizes as [|size sizes]; [congruence|]. intros _.
  unfold min_train. destruct (fold_min_le sizes size) as (Hle & Hall & Hin). split.
  - destruct Hin as [->|Hin]; [left; reflexivity|right; exact Hin].
  - constructor; assumption.
Qed.

(** X17. The train/test split of [main] (lines 237-283): when a protocol is
    split, the test and the training rows partition the eligible plans, the
    test set is not empty, the sizes kept are exactly the configured sizes
    that fit the training set, and the smallest configured size is among
    them.  The reason [insufficient_train_plans] is given only when no sample
    size is configured at all; with a configured size, a protocol that
    passes the two earlier checks is always split. *)
Theorem split_plans_spec (sample_sizes : list Z) (test_min rounded : Z)
    (eligible_count : nat) :
  match split_plans sample_sizes test_min rounded eligible_count with
  | Split test_size train_size available_sizes =>
      (test_size + train_size = eligible_count)%nat
      /\ (1 <= test_size)%nat
      /\ available_sizes
         = List.filter (fun size => size <=? Z.of_nat train_size) sample_sizes
      /\ In (min_train sample_sizes) available_sizes
      /\ (0 <= min_train sample_sizes ->
          Z.of_nat test_size
          = Z.min (Z.max test_min rounded)
                  (Z.of_nat eligible_count - min_train sample_sizes))
  | Skipped reason =>
      (reason = "insufficient_train_plans" -> sample_sizes = [])
      /\ (reason = "insufficient_plans_for_split" ->
          Z.of_nat eligible_count <= min_train sample_sizes)
      /\ (reason = "invalid_test_size" -> test_min <= 0 /\ rounded <= 0)
      /\ (reason = "no_scored_plans" -> eligible_count = 0%nat)
  end.
Proof.
  unfold split_plans.
  destruct (Nat.eqb_spec eligible_count 0) as [->|Hpos].
  { repeat split; try discriminate. }
  set (m := min_train sample_sizes).
  destruct (Z.eqb_spec (Z.max (Z.of_nat eligible_count - m) 0) 0) as [Hmax|Hmax].
  { repeat split; try discriminate. lia. }
  destruct (Z.leb_spec (Z.min (Z.max test_min rounded)
                          (Z.max (Z.of_nat eligible_count - m) 0)) 0) as [Htest|Htest].
  { repeat split; try discriminate; lia. }
  set (test_len := Nat.min _ eligible_count).
  set (train_len := (eligible_count - test_len)%nat).
  assert (Hm : sample_sizes <> [] -> m <= Z.of_nat train_len).
  { intros _. subst train_len test_len. lia. }
  destruct (List.filter _ sample_sizes) as [|a avail] eqn:Efilter.
  - repeat split; try discriminate. intros _.
    destruct (decide (sample_sizes = [])) as [Hnil|Hne]; [exact Hnil|exfalso].
    destruct (min_train_member sample_sizes Hne) as [Hin _]. fold m in Hin.
    assert (Hf : In m (List.filter (fun size => size <=? Z.of_nat train_len) sample_sizes)).
    { apply filter_In. split; [exact Hin|]. apply Z.leb_le. apply Hm. exact Hne. }
    rewrite Efilter in Hf. destruct Hf.
  - assert (Hne : sample_sizes <> []).
    { intros ->. discriminate Efilter. }
    split; [subst train_len test_len; lia|]. split; [subst test_len; lia|].
    split; [symmetry; exact Efilter|]. split.
    + rewrite <- Efilter. apply filter_In.
      split; [apply (min_train_member sample_sizes Hne)|].
      apply Z.leb_le. apply Hm. exact Hne.
    + intros Hm0. subst test_len. lia.
Qed.

(** ** The order of the bootstrap records *)

Section StabilityOrder.

Variable rng : Type.
Variable rng_integers : rng -> nat -> Z -> res (list nat * rng).
Variable M : Type.
Variable agreement_metrics : list Q -> list Q -> M.
Variables train_df test_df : list plan_row.
Variable constraint_lookup : gmap string meta.
Variable dirs : gmap string string.
Variable ws : gmap string Q.
Variable min_valid : Z.

Lemma bootstrap_draw_records (sample_size bootstrap_id : Z)
    (state state' : rng * list (stability_record M)) :
  bootstrap_draw rng rng_integers M agreement_metrics train_df test_df
    constraint_lookup dirs ws min_valid sample_size state bootstrap_id = Ok state' ->
  exists new,
    state'.2 = state.2 ++ new
    /\ sublist (record_key <$> new) [(sample_size, bootstrap_id)]
    /\ Forall (fun r => rec_train_size r = Z.of_nat (length train_df)) new.
Proof.
  unfold bootstrap_draw.
  destruct (rng_integers state.1 (length train_df) sample_size) as [drawn|e];
    [|discriminate].
  cbn [res_bind]. destruct (iloc train_df drawn.1) as [sample_df|e]; [|discriminate].
  cbn [res_bind]. destruct (_ <? min_valid).
  - intros [= <-]. exists []. cbn [snd]. rewrite app_nil_r.
    split; [reflexivity|]. split; [apply sublist_nil_l|constructor].
  - intros [= <-]. eexists. cbn [snd]. split; [reflexivity|]. split.
    + cbn. reflexivity.
    + repeat constructor.
Qed.

Lemma bootstrap_runs_records (sample_size : Z) (ids : list Z)
    (state state' : rng * list (stability_record M)) :
  fold_left
    (fun acc bootstrap_id =>
       res_bind acc (fun st =>
         bootstrap_draw rng rng_integers M agreement_metrics train_df test_df
           constraint_lookup dirs ws min_valid sample_size st bootstrap_id))
    ids (Ok state) = Ok state' ->
  exists new,
    state'.2 = state.2 ++ new
    /\ sublist (record_key <$> new) ((fun id => (sample_size, id)) <$> ids)
    /\ Forall (fun r => rec_train_size r = Z.of_nat (length train_df)) new.
Proof.
  revert state. induction ids as [|id ids IH]; intros state; cbn [fold_left res_bind].
  - intros [= <-]. exists []. rewrite app_nil_r.
    split; [reflexivity|]. split; [apply sublist_nil_l|constructor].
  - destruct (bootstrap_draw _ _ _ _ _ _ _ _ _ _ _ state id) as [st1|e] eqn:Edraw.
    2:{ rewrite res_fold_raise by reflexivity. discriminate. }
    intros Hfold.
    destruct (bootstrap_draw_records _ _ _ _ Edraw) as (new1 & H1 & Hs1 & Ht1).
    destruct (IH st1 Hfold) as (new2 & H2 & Hs2 & Ht2).
    exists (new1 ++ new2). split; [rewrite H2, H1, app_assoc; reflexivity|]. split.
    + rewrite fmap_app, fmap_cons.
      change ((sample_size, id) :: ((fun id => (sample_size, id)) <$> ids))
        with ([(sample_size, id)] ++ ((fun id => (sample_size, id)) <$> ids)).
      apply sublist_app; assumption.
    + apply Forall_app. split; assumption.
Qed.

Lemma bootstrap_loop_records (bootstraps : Z) (available_sizes : list Z)
    (state state' : rng * list (stability_record M)) :
  bootstrap_loop rng rng_integers M agreement_metrics train_df test_df
    constraint_lookup dirs ws min_valid bootstraps available_sizes state = Ok state' ->
  exists new,
    state'.2 = state.2 ++ new
    /\ sublist (record_key <$> new) (loop_grid available_sizes bootstraps)
    /\ Forall (fun r => rec_train_size r = Z.of_nat (length train_df)) new.
Proof.
  unfold bootstrap_loop. revert state.
  induction available_sizes as [|size sizes IH]; intros state; cbn [fold_left].
  - intros [= <-]. exists []. rewrite app_nil_r.
    split; [reflexivity|]. split; [apply sublist_nil_l|constructor].
  - destruct (bootstrap_runs _ _ _ _ _ _ _ _ _ _ _ size (Ok state)) as [st1|e] eqn:Eruns.
    2:{ assert (Hraise : forall sizes',
          fold_left (fun acc sample_size =>
                       bootstrap_runs rng rng_integers M agreement_metrics train_df
                         test_df constraint_lookup dirs ws min_valid bootstraps
                         sample_size acc) sizes' (Raise e) = Raise e).
        { intros sizes'. apply res_fold_raise. intros s. unfold bootstrap_runs.
          apply res_fold_raise. reflexivity. }
        rewrite Hraise. discriminate. }
    intros Hfold. unfold bootstrap_runs in Eruns.
    destruct (bootstrap_runs_records _ _ _ _ Eruns) as (new1 & H1 & Hs1 & Ht1).
    destruct (IH st1 Hfold) as (new2 & H2 & Hs2 & Ht2).
    exists (new1 ++ new2). split; [rewrite H2, H1, app_assoc; reflexivity|]. split.
    + rewrite fmap_app. unfold loop_grid. cbn [mbind list_bind].
      apply sublist_app; assumption.
    + apply Forall_app. split; assumption.
Qed.

Lemma loop_grid_length (available_sizes : list Z) (bootstraps : Z) :
  length (loop_grid available_sizes bootstraps)
  = (length available_sizes * Z.to_nat bootstraps)%nat.
Proof.
  unfold loop_grid. induction available_sizes as [|size sizes IH]; [reflexivity|].
  cbn [mbind list_bind length]. rewrite length_app, length_fmap, length_seqZ.
  unfold loop_grid in IH. cbn [mbind] in IH. rewrite IH. lia.
Qed.

(** X18. The two nested loops of the stability experiment (lines 294-333):
    the records added for one protocol come in the order of the loops, by
    sample size in the order of [available_sizes] and by ascending bootstrap
    id within a size, at most one per pair; so there are at most
    [len(available_sizes) * bootstraps] of them, each with a kept sample
    size, a bootstrap id in [range(bootstraps)] and the size of the training
    set. *)
Theorem bootstrap_records_ordered (bootstraps : Z) (available_sizes : list Z)
    (state state' : rng * list (stability_record M)) :
  bootstrap_loop rng rng_integers M agreement_metrics train_df test_df
    constraint_lookup dirs ws min_valid bootstraps available_sizes state = Ok state' ->
  exists new,
    state'.2 = state.2 ++ new
    /\ sublist (record_key <$> new) (loop_grid available_sizes bootstraps)
    /\ (length new <= length available_sizes * Z.to_nat bootstraps)%nat
    /\ Forall (fun r => In (rec_N r) available_sizes
                        /\ 0 <= rec_bootstrap_id r < bootstraps
                        /\ rec_train_size r = Z.of_nat (length train_df)) new.
Proof.
  intros Hloop. destruct (bootstrap_loop_records _ _ _ _ Hloop) as (new & Heq & Hsub & Ht).
  exists new. split; [exact Heq|]. split; [exact Hsub|]. split.
  - rewrite <- loop_grid_length, <- (length_fmap record_key new).
    apply sublist_length. exact Hsub.
  - apply Forall_forall. intros r Hr.
    assert (Hin : record_key r ∈ loop_grid available_sizes bootstraps).
    { eapply elem_of_sublist; [|exact Hsub]. apply list_elem_of_fmap. eauto. }
    unfold loop_grid in Hin. apply list_elem_of_bind in Hin.
    destruct Hin as (size & Hin & Hsize).
    apply list_elem_of_fmap in Hin. destruct Hin as (id & Hkey & Hid).
    unfold record_key in Hkey. injection Hkey as HN Hb.
    apply elem_of_seqZ in Hid.
    split; [rewrite HN; apply list_elem_of_In; exact Hsize|].
    split; [lia|]. rewrite Forall_forall in Ht. apply Ht. exact Hr.
Qed.

End StabilityOrder.

Lemma bootstrap_records_ordered_example :
  exists (state' : nat * list (stability_record unit)) new,
    bootstrap_loop nat counter_integers unit (fun _ _ => tt) sample_rows sample_rows
      sample_lookup sample_directions sample_weights 1 3 [1] (0%nat, []) = Ok state'
    /\ state'.2 = [] ++ new
    /\ sublist (record_key <$> new) (loop_grid [1] 3)
    /\ (length new <= length [1] * Z.to_nat 3)%nat
    /\ Forall (fun r => In (rec_N r) [1]
                        /\ 0 <= rec_bootstrap_id r < 3
                        /\ rec_train_size r = Z.of_nat (length sample_rows)) new.
Proof.
  destruct (bootstrap_loop nat counter_integers unit (fun _ _ => tt) sample_rows
              sample_rows sample_lookup sample_directions sample_weights 1 3 [1]
              (0%nat, [])) as [state'|e] eqn:E; [|vm_compute in E; discriminate E].
  destruct (bootstrap_records_ordered nat counter_integers unit (fun _ _ => tt)
              sample_rows sample_rows sample_lookup sample_directions sample_weights 1
              3 [1] (0%nat, []) state' E) as (new & Heq & H).
  exists state', new. split; [reflexivity|]. split; [exact Heq|exact H].
Defined.

(** ** The population reference in one function and step by step *)

Section PopulationFacts.

Variable float_of_string : string -> option Q.
Variable int_of_string : string -> option Z.
Variable float_str : Q -> string.
Variable constraint_lookup : gmap string meta.
Variable alias_map : gmap string string.
Variable protocol_structure_map : list (string * string).

Lemma population_fold (plans : list (option (list result)))
    (dists : gmap string (list Q)) (rows : list plan_constraints_row) :
  fold_left (population_step float_of_string int_of_string float_str constraint_lookup
               alias_map protocol_structure_map) plans (Ok (dists, rows))
  = res_bind
      (fold_left
         (fun acc results =>
            res_bind acc (fun rows =>
            res_bind (extract_plan_constraints float_of_string int_of_string float_str
                        results constraint_lookup alias_map protocol_structure_map)
              (fun pc =>
                 Ok (rows ++ [ {| matched_constraints := size pc;
                                  plan_constraints := pc |} ]))))
         plans (Ok rows))
      (fun rows' =>
         Ok (pool_column
               (map (fun row => Some (plan_constraints row)) (drop (length rows) rows'))
               dists,
             rows')).
Proof.
  revert dists rows. induction plans as [|results plans IH]; intros dists rows.
  - cbn [fold_left res_bind]. rewrite drop_all. reflexivity.
  - cbn [fold_left]. unfold population_step at 2. cbn [res_bind fst snd].
    destruct (extract_plan_constraints _ _ _ results _ _ _) as [pc|e]; cbn [res_bind].
    + rewrite IH. 
      destruct (fold_left _ plans (Ok (rows ++ _))) as [rows'|e] eqn:Efold;
        cbn [res_bind]; [|reflexivity].
      f_equal. f_equal.
      assert (Hpre : exists more,
                rows' = (rows ++ [ {| matched_constraints := size pc;
                                      plan_constraints := pc |} ]) ++ more).
      { clear IH. revert Efold. generalize (rows ++ [ {| matched_constraints := size pc;
                                      plan_constraints := pc |} ]).
        induction plans as [|r ps IHp]; intros acc; cbn [fold_left res_bind].
        - intros [= <-]. exists []. rewrite app_nil_r. reflexivity.
        - destruct (extract_plan_constraints _ _ _ r _ _ _) as [pc'|e']; cbn [res_bind].
          + intros H. destruct (IHp _ H) as [more ->].
            eexists. rewrite <- app_assoc. reflexivity.
          + rewrite res_fold_raise by reflexivity. discriminate. }
      destruct Hpre as [more ->].
      rewrite drop_app_length. rewrite <- app_assoc. rewrite drop_app_length.
      cbn [app map]. unfold pool_column. cbn [fold_left plan_constraints]. reflexivity.
    + rewrite !res_fold_raise by reflexivity. reflexivity.
Qed.

End PopulationFacts.

Lemma score_rows_combine (rows : list plan_constraints_row) (ref : reference) :
  map (fun row => (row, compute_plan_score (plan_constraints row) (distributions ref)
                          (directions ref) (weights ref))) rows
  = combine rows
      (score_plan_constraints_df (map (fun row => Some (plan_constraints row)) rows) ref).
Proof.
  unfold score_plan_constraints_df.
  induction rows as [|row rows IH]; [reflexivity|].
  cbn [map combine]. rewrite IH. reflexivity.
Qed.

(** X19. [build_population_reference] (lines 507-565), which the reference
    builder of step 2 calls, computes the same reference and the same plan
    scores, and raises in the same cases, as the four calls of the stability
    experiment: [build_constraint_context] (328-343),
    [build_plan_constraints_df] (346-370),
    [build_reference_from_plan_constraints] (373-398) and
    [score_plan_constraints_df] (401-415). *)
Theorem build_population_reference_stepwise (float_of_string : string -> option Q)
    (int_of_string : string -> option Z) (float_str : Q -> string)
    (plans : list (option (list result))) (constraints : list constraint)
    (alias_map : gmap string string) :
  build_population_reference float_of_string int_of_string float_str plans constraints
    alias_map
  = reference_full float_of_string int_of_string float_str plans constraints alias_map.
Proof.
  unfold build_population_reference, reference_full, build_constraint_context.
  cbv zeta.
  destruct (fold_left context_step _ _) as [dw|e]; cbn [res_bind fst snd];
    [|reflexivity].
  rewrite population_fold. unfold build_plan_constraints_df.
  destruct (fold_left _ plans (Ok [])) as [rows|e]; cbn [res_bind fst snd];
    [|reflexivity].
  rewrite drop_0.
  rewrite <- (score_rows_combine rows
                (build_reference_from_plan_constraints
                   (map (fun row => Some (plan_constraints row)) rows)
                   (build_constraint_lookup int_of_string float_str constraints)
                   dw.1 dw.2)).
  reflexivity.
Qed.

Section PlanConstraintsFrame.

Variable float_of_string : string -> option Q.
Variable int_of_string : string -> option Z.
Variable float_str : Q -> string.
Variable constraint_lookup : gmap string meta.
Variable alias_map : gmap string string.
Variable protocol_structure_map : list (string * string).

Lemma extract_plan_constraints_raises (results : option (list result)) (e : exn) :
  extract_plan_constraints float_of_string int_of_string float_str results
    constraint_lookup alias_map protocol_structure_map = Raise e ->
  e = OverflowError.
Proof.
  unfold extract_plan_constraints. destruct results as [rs|]; [|discriminate].
  intros H. apply extract_fold_raises in H. apply H.
Qed.

Lemma plan_constraints_fold (plans : list (option (list result)))
    (rows0 : list plan_constraints_row) :
  match fold_left
          (fun acc results =>
             res_bind acc (fun rows =>
             res_bind (extract_plan_constraints float_of_string int_of_string float_str
                         results constraint_lookup alias_map protocol_structure_map)
               (fun pc =>
                  Ok (rows ++ [ {| matched_constraints := size pc;
                                   plan_constraints := pc |} ]))))
          plans (Ok rows0) with
  | Ok rows =>
      exists more,
        rows = rows0 ++ more
        /\ Forall2 (fun results row =>
                      extract_plan_constraints float_of_string int_of_string float_str
                        results constraint_lookup alias_map protocol_structure_map
                      = Ok (plan_constraints row)
                      /\ matched_constraints row = size (plan_constraints row))
                   plans more
  | Raise e =>
      e = OverflowError
      /\ exists results,
           results ∈ plans
           /\ extract_plan_constraints float_of_string int_of_string float_str
                results constraint_lookup alias_map protocol_structure_map
              = Raise OverflowError
  end.
Proof.
  revert rows0. induction plans as [|results plans IH]; intros rows0.
  - cbn [fold_left]. exists []. rewrite app_nil_r. split; [reflexivity|constructor].
  - cbn [fold_left res_bind].
    destruct (extract_plan_constraints _ _ _ results _ _ _) as [pc|e] eqn:E;
      cbn [res_bind].
    + specialize (IH (rows0 ++ [ {| matched_constraints := size pc;
                                    plan_constraints := pc |} ])).
      destruct (fold_left _ plans _) as [rows|e'].
      * destruct IH as (more & -> & Hall). eexists. rewrite <- app_assoc.
        split; [reflexivity|]. constructor; [|exact Hall]. cbn. auto.
      * destruct IH as (-> & r & Hr & Hraise). split; [reflexivity|].
        exists r. split; [apply list_elem_of_further; exact Hr|exact Hraise].
    + rewrite res_fold_raise by reflexivity.
      pose proof (extract_plan_constraints_raises _ _ E) as ->.
      split; [reflexivity|]. exists results. split; [apply list_elem_of_here|exact E].
Qed.

(** X20. [build_plan_constraints_df] (lines 346-370): when it returns, the
    frame has one row per plan, in the order of the plans; the row of a plan
    holds the vector that [extract_plan_constraints] returns on the results
    of that plan, and [matched_constraints] is its number of entries, at
    most the number of constraints.  It raises exactly when the extraction
    raises on some plan, and then the frame of the whole protocol is lost. *)
Theorem build_plan_constraints_df_rows (plans : list (option (list result))) :
  match build_plan_constraints_df float_of_string int_of_string float_str plans
          constraint_lookup alias_map protocol_structure_map with
  | Ok rows =>
      length rows = length plans
      /\ forall i results,
           plans !! i = Some results ->
           exists row,
             rows !! i = Some row
             /\ extract_plan_constraints float_of_string int_of_string float_str
                  results constraint_lookup alias_map protocol_structure_map
                = Ok (plan_constraints row)
             /\ matched_constraints row = size (plan_constraints row)
             /\ (matched_constraints row <= size constraint_lookup)%nat
  | Raise e =>
      e = OverflowError
      /\ exists results,
           results ∈ plans
           /\ extract_plan_constraints float_of_string int_of_string float_str
                results constraint_lookup alias_map protocol_structure_map
              = Raise OverflowError
  end.
Proof.
  unfold build_plan_constraints_df.
  pose proof (plan_constraints_fold plans []) as H.
  destruct (fold_left _ plans (Ok [])) as [rows|e]; [|exact H].
  destruct H as (more & -> & Hall). cbn [app]. split.
  - symmetry. eapply Forall2_length. exact Hall.
  - intros i results Hi.
    destruct (Forall2_lookup_l _ _ _ _ _ Hall Hi) as (row & Hrow & Hex & Hm).
    exists row. split; [exact Hrow|]. split; [exact Hex|]. split; [exact Hm|].
    rewrite Hm. apply keys_size_le.
    apply (extract_result_keys _ _ _ _ _ _ _ _ Hex).
Qed.

End PlanConstraintsFrame.

(** ** Choosing the constraints of a protocol *)

Lemma select_by_reference_sound (candidate_names : list string)
    (by_name by_id : gmap string (list constraint))
    (standard_ref_map : gmap string standard_ref)
    (constraints : list constraint) (source : string) :
  select_by_reference candidate_names by_name by_id standard_ref_map
  = Some (constraints, source) ->
  exists candidate ref,
    In candidate candidate_names
    /\ standard_ref_map !! norm_or_self candidate = Some ref
    /\ ((source = "standard_protocols_id"
         /\ exists id, standard_id ref = Some id /\ id <> ""
                       /\ by_id !! id = Some constraints)
        \/ (source = "standard_protocols_ref_name"
            /\ exists name, standard_name ref = Some name /\ name <> ""
                            /\ by_name !! norm_or_self name = Some constraints)).
Proof.
  induction candidate_names as [|candidate candidates IH]; cbn [select_by_reference];
    [discriminate|].
  assert (Hcont : select_by_reference candidates by_name by_id standard_ref_map
                  = Some (constraints, source) ->
                  exists candidate0 ref,
                    In candidate0 (candidate :: candidates)
                    /\ standard_ref_map !! norm_or_self candidate0 = Some ref
                    /\ ((source = "standard_protocols_id"
                         /\ exists id, standard_id ref = Some id /\ id <> ""
                                       /\ by_id !! id = Some constraints)
                        \/ (source = "standard_protocols_ref_name"
                            /\ exists name, standard_name ref = Some name /\ name <> ""
                                 /\ by_name !! norm_or_self name = Some constraints))).
  { intros H. destruct (IH H) as (c & r & Hin & Hrest). exists c, r.
    split; [right; exact Hin|exact Hrest]. }
  destruct (standard_ref_map !! norm_or_self candidate) as [ref|] eqn:Eref;
    [|exact Hcont].
  destruct (truthy (standard_id ref)) eqn:Eid.
  - destruct (standard_id ref) as [id|] eqn:Esid; [|discriminate Eid].
    cbn [mbind option_bind].
    destruct (by_id !! id) as [cs|] eqn:Ebyid.
    + intros [= <- <-]. exists candidate, ref. split; [left; reflexivity|].
      split; [exact Eref|]. left. split; [reflexivity|]. exists id.
      split; [exact Esid|]. split; [|exact Ebyid].
      intros ->. discriminate Eid.
    + destruct (truthy (standard_name ref)) eqn:Ename; [|exact Hcont].
      destruct (standard_name ref) as [name|] eqn:Esn; [|discriminate Ename].
      cbn [mbind option_bind].
      destruct (by_name !! norm_or_self name) as [cs|] eqn:Ebyname; [|exact Hcont].
      intros [= <- <-]. exists candidate, ref. split; [left; reflexivity|].
      split; [exact Eref|]. right. split; [reflexivity|]. exists name.
      split; [exact Esn|]. split; [|exact Ebyname].
      intros ->. discriminate Ename.
  - destruct (truthy (standard_name ref)) eqn:Ename; [|exact Hcont].
    destruct (standard_name ref) as [name|] eqn:Esn; [|discriminate Ename].
    cbn [mbind option_bind].
    destruct (by_name !! norm_or_self name) as [cs|] eqn:Ebyname; [|exact Hcont].
    intros [= <- <-]. exists candidate, ref. split; [left; reflexivity|].
    split; [exact Eref|]. right. split; [reflexivity|]. exists name.
    split; [exact Esn|]. split; [|exact Ebyname].
    intros ->. discriminate Ename.
Qed.

(** X21. [select_protocol_constraints] (lines 568-604): the constraints are
    absent exactly when the source is [missing]; otherwise the source names
    the dictionary the list was taken from.  A list under the protocol's own
    normalized name among the standard protocols wins over every other
    source, also when that list is empty; the source [protocols_raw] is used
    only for a raw name whose normal form differs from the protocol's. *)
Theorem select_protocol_constraints_sound (protocol : string)
    (protocol_raw : option string)
    (by_name by_id protocol_constraints : gmap string (list constraint))
    (standard_ref_map : gmap string standard_ref) :
  let selected :=
    select_protocol_constraints protocol protocol_raw by_name by_id
      protocol_constraints standard_ref_map in
  (selected.1 = None <-> selected.2 = "missing")
  /\ (forall constraints, by_name !! norm_or_self protocol = Some constraints ->
        selected = (Some constraints, "standard_protocols_name"))
  /\ (forall constraints, selected.1 = Some constraints ->
        (selected.2 = "standard_protocols_name"
         /\ by_name !! norm_or_self protocol = Some constraints)
        \/ (selected.2 = "protocols"
            /\ protocol_constraints !! norm_or_self protocol = Some constraints)
        \/ (selected.2 = "standard_protocols_id"
            /\ exists id, id <> "" /\ by_id !! id = Some constraints)
        \/ (selected.2 = "standard_protocols_ref_name"
            /\ exists name, name <> ""
                            /\ by_name !! norm_or_self name = Some constraints)
        \/ (selected.2 = "protocols_raw"
            /\ exists raw, protocol_raw = Some raw /\ raw <> ""
                           /\ norm_or_self raw <> norm_or_self protocol
                           /\ protocol_constraints !! norm_or_self raw
                              = Some constraints)).
Proof.
  cbv zeta. unfold select_protocol_constraints.
  destruct (by_name !! norm_or_self protocol) as [cs|] eqn:Ename.
  { cbn [fst snd]. split; [split; discriminate|]. split.
    - intros constraints [= <-]. reflexivity.
    - intros constraints [= <-]. left. auto. }
  destruct (protocol_constraints !! norm_or_self protocol) as [cs|] eqn:Eproto.
  { cbn [fst snd]. split; [split; discriminate|]. split; [discriminate|].
    intros constraints [= <-]. right. left. auto. }
  destruct (select_by_reference _ by_name by_id standard_ref_map) as [[cs source]|]
    eqn:Eref.
  { cbn [fst snd].
    destruct (select_by_reference_sound _ _ _ _ _ _ Eref)
      as (candidate & ref & _ & _ & [(-> & id & _ & Hid & Hby)|(-> & name & _ & Hn & Hby)]).
    - split; [split; discriminate|]. split; [discriminate|].
      intros constraints [= <-]. right. right. left. eauto.
    - split; [split; discriminate|]. split; [discriminate|].
      intros constraints [= <-]. right. right. right. left. eauto. }
  destruct (truthy protocol_raw) eqn:Eraw.
  - destruct protocol_raw as [raw|]; [|discriminate Eraw].
    change (default "" (Some raw)) with raw.
    destruct (protocol_constraints !! norm_or_self raw) as [cs|] eqn:Erawc.
    + cbn [fst snd]. split; [split; discriminate|]. split; [discriminate|].
      intros constraints [= <-]. right. right. right. right.
      split; [reflexivity|]. exists raw. split; [reflexivity|].
      split; [intros ->; discriminate Eraw|]. split; [congruence|exact Erawc].
    + cbn [fst snd]. split; [tauto|]. split; discriminate.
  - cbn [fst snd]. split; [tauto|]. split; discriminate.
Qed.

(** ** Distances between two score arrays *)

Lemma q_abs_nonneg (x : Q) : (0 <= q_abs x)%Q.
Proof.
  unfold q_abs. destruct (Qle_bool 0 x) eqn:E.
  - apply Qle_bool_iff. exact E.
  - apply Qle_bool_false in E. lra.
Qed.

Lemma q_abs_diff_unit (x y : Q) :
  (0 <= x <= 1)%Q -> (0 <= y <= 1)%Q -> (q_abs (x - y) <= 1)%Q.
Proof.
  intros Hx Hy. unfold q_abs. destruct (Qle_bool 0 (x - y)); lra.
Qed.

Lemma q_abs_diff_sym (x y : Q) : (q_abs (x - y) == q_abs (y - x))%Q.
Proof.
  unfold q_abs.
  destruct (Qle_bool 0 (x - y)) eqn:E1; destruct (Qle_bool 0 (y - x)) eqn:E2;
    try (apply Qle_bool_iff in E1); try (apply Qle_bool_iff in E2);
    try (apply Qle_bool_false in E1); try (apply Qle_bool_false in E2); lra.
Qed.

Lemma q_abs_diff_self (x : Q) : (q_abs (x - x) == 0)%Q.
Proof.
  unfold q_abs. destruct (Qle_bool 0 (x - x)); lra.
Qed.

Lemma q_max_fold_bounds (lo hi : Q) (l : list Q) (x : Q) :
  (lo <= x <= hi)%Q -> Forall (fun y => (lo <= y <= hi)%Q) l ->
  (lo <= fold_left (fun m y => if Qltb m y then y else m) l x <= hi)%Q.
Proof.
  intros Hx Hl. revert x Hx. induction Hl as [|y l Hy _ IH]; intros x Hx; [exact Hx|].
  cbn [fold_left]. apply IH. destruct (Qltb x y); assumption.
Qed.

Lemma q_max_bounds (lo hi : Q) (l : list Q) :
  l <> [] -> Forall (fun y => (lo <= y <= hi)%Q) l ->
  exists d, q_max l = Ok d /\ (lo <= d <= hi)%Q.
Proof.
  destruct l as [|x l]; [congruence|]. intros _ Hall.
  apply Forall_cons in Hall. destruct Hall as [Hx Hl].
  eexists. split; [reflexivity|]. apply q_max_fold_bounds; assumption.
Qed.

Lemma dedup_sorted_nonempty (l : list Q) : l <> [] -> dedup_sorted l <> [].
Proof.
  induction l as [|x l IH]; [congruence|]. intros _. cbn [dedup_sorted].
  destruct l as [|y l]; [discriminate|].
  destruct (Qeq_bool x y); [apply IH; discriminate|discriminate].
Qed.

Lemma np_sort_nonempty (l : list Q) : l <> [] -> np_sort l <> [].
Proof.
  intros Hl Hs. apply Hl. apply length_zero_iff_nil.
  rewrite <- (np_sort_length l), Hs. reflexivity.
Qed.

Lemma cdf_at_unit (a points : list Q) :
  a <> [] -> Forall (fun x => (0 <= x <= 1)%Q) (cdf_at (np_sort a) points).
Proof.
  intros Ha. unfold cdf_at. apply Forall_forall. intros x Hx.
  apply list_elem_of_fmap in Hx. destruct Hx as (v & -> & _).
  pose proof (searchsorted_right_correct (np_sort a) v (np_sort_sorted a)) as (Hle & _).
  assert (Hn : (0 < length (np_sort a))%nat).
  { destruct (np_sort a) eqn:E; [exfalso; exact (np_sort_nonempty a Ha E)|cbn; lia]. }
  set (k := searchsorted_right (np_sort a) v) in *.
  set (n := length (np_sort a)) in *.
  assert (Hq : (0 < inject_Z (Z.of_nat n))%Q).
  { change 0%Q with (inject_Z 0). rewrite <- Zlt_Qlt. lia. }
  split.
  - apply Qle_shift_div_l; [exact Hq|]. rewrite Qmult_0_l.
    change 0%Q with (inject_Z 0). rewrite <- Zle_Qle. lia.
  - apply Qle_shift_div_r; [exact Hq|]. rewrite Qmult_1_l.
    rewrite <- Zle_Qle. lia.
Qed.

Lemma zip_abs_unit (l1 l2 : list Q) :
  Forall (fun x => (0 <= x <= 1)%Q) l1 -> Forall (fun x => (0 <= x <= 1)%Q) l2 ->
  Forall (fun d => (0 <= d <= 1)%Q) (zip_with (fun x y => q_abs (x - y)) l1 l2).
Proof.
  intros H1. revert l2. induction H1 as [|x l1 Hx _ IH]; intros l2 H2; [constructor|].
  destruct H2 as [|y l2 Hy H2]; [constructor|].
  cbn [zip_with]. constructor; [|apply IH; exact H2].
  split; [apply q_abs_nonneg|apply q_abs_diff_unit; assumption].
Qed.

Lemma zip_abs_self (l : list Q) :
  Forall (fun d => (0 <= d <= 0)%Q) (zip_with (fun x y => q_abs (x - y)) l l).
Proof.
  induction l as [|x l IH]; [constructor|]. cbn [zip_with]. constructor; [|exact IH].
  pose proof (q_abs_diff_self x). lra.
Qed.

Lemma combined_nonempty (a b : list Q) :
  a <> [] -> np_sort (np_unique (np_sort a ++ np_sort b)) <> [].
Proof.
  intros Ha. apply np_sort_nonempty. unfold np_unique.
  apply dedup_sorted_nonempty, np_sort_nonempty.
  intros H. apply app_eq_nil in H. destruct H as [H _].
  exact (np_sort_nonempty a Ha H).
Qed.

(** X22. [ks_distance] (lines 44-52): it never raises; it is NaN exactly
    when one of the two arrays is empty, and otherwise a number between 0
    and 1; the distance of a non-empty array to itself is 0. *)
Theorem ks_distance_range (values_a values_b : list Q) :
  exists r,
    ks_distance values_a values_b = Ok r
    /\ (r = PNaN <-> values_a = [] \/ values_b = [])
    /\ (forall d, r = PNum d -> (0 <= d <= 1)%Q)
    /\ (forall d, values_a = values_b -> r = PNum d -> (d == 0)%Q).
Proof.
  unfold ks_distance.
  destruct values_a as [|xa la]; [|destruct values_b as [|xb lb]].
  - exists PNaN. cbn. split; [reflexivity|]. split; [tauto|]. split; discriminate.
  - exists PNaN. cbn. split; [reflexivity|]. split; [tauto|]. split; discriminate.
  - cbn [length Nat.eqb orb].
    set (a := xa :: la). set (b := xb :: lb).
    set (combined := np_sort (np_unique (np_sort a ++ np_sort b))).
    assert (Ha : a <> []) by discriminate. assert (Hb : b <> []) by discriminate.
    assert (Hne : zip_with (fun x y => q_abs (x - y)) (cdf_at (np_sort a) combined)
                    (cdf_at (np_sort b) combined) <> []).
    { pose proof (combined_nonempty a b Ha) as Hc. fold combined in Hc.
      destruct combined as [|c cs]; [congruence|]. discriminate. }
    destruct (q_max_bounds 0 1 _ Hne
                (zip_abs_unit _ _ (cdf_at_unit a combined Ha) (cdf_at_unit b combined Hb)))
      as (d & Hd & Hrange).
    rewrite Hd. cbn [res_bind]. exists (PNum d). split; [reflexivity|]. split.
    + split; [discriminate|]. intros [H|H]; discriminate H.
    + split; [intros d' [= <-]; exact Hrange|].
      intros d' Hab [= <-]. revert Hd Hne. subst combined. rewrite <- Hab.
      intros Hd Hne.
      destruct (q_max_bounds 0 0 _ Hne (zip_abs_self _)) as (d0 & Hd0 & H0).
      rewrite Hd in Hd0. injection Hd0 as <-. lra.
Qed.

Lemma Qsum_abs_nonneg (l1 l2 : list Q) :
  (0 <= Qsum (zip_with (fun x y => q_abs (x - y)) l1 l2))%Q.
Proof.
  unfold Qsum. revert l2. induction l1 as [|x l1 IH]; intros l2; [cbn; lra|].
  destruct l2 as [|y l2]; [cbn; lra|]. cbn [zip_with fold_right].
  pose proof (q_abs_nonneg (x - y)). specialize (IH l2).
  set (rest := fold_right Qplus 0%Q _) in *. clearbody rest. lra.
Qed.

Lemma Qsum_abs_sym (l1 l2 : list Q) :
  (Qsum (zip_with (fun x y => q_abs (x - y)) l1 l2)
   == Qsum (zip_with (fun x y => q_abs (x - y)) l2 l1))%Q.
Proof.
  unfold Qsum. revert l2. induction l1 as [|x l1 IH]; intros l2.
  - destruct l2; reflexivity.
  - destruct l2 as [|y l2]; [reflexivity|]. cbn [zip_with fold_right].
    rewrite (IH l2), (q_abs_diff_sym x y). reflexivity.
Qed.

Lemma Qsum_abs_self (l : list Q) :
  (Qsum (zip_with (fun x y => q_abs (x - y)) l l) == 0)%Q.
Proof.
  unfold Qsum. induction l as [|x l IH]; [reflexivity|].
  cbn [zip_with fold_right]. rewrite IH, (q_abs_diff_self x). reflexivity.
Qed.

(** X23. [wasserstein_distance] (lines 55-61): it is NaN exactly when one of
    the two arrays is empty, and otherwise a number that is not negative;
    it is symmetric, and the distance of an array to itself is 0. *)
Theorem wasserstein_distance_spec (values_a values_b : list Q) :
  (wasserstein_distance values_a values_b = PNaN <-> values_a = [] \/ values_b = [])
  /\ (forall d, wasserstein_distance values_a values_b = PNum d -> (0 <= d)%Q)
  /\ (forall d d', wasserstein_distance values_a values_b = PNum d ->
                   wasserstein_distance values_b values_a = PNum d' -> (d == d')%Q)
  /\ (forall d, wasserstein_distance values_a values_a = PNum d -> (d == 0)%Q).
Proof.
  unfold wasserstein_distance. split; [|split; [|split]].
  - destruct values_a as [|xa la]; [cbn; tauto|].
    destruct values_b as [|xb lb]; [cbn; tauto|].
    cbn [length Nat.eqb orb]. split; [discriminate|]. intros [H|H]; discriminate H.
  - intros d. destruct (_ || _); [discriminate|]. intros [= <-]. unfold q_mean.
    set (l := zip_with _ _ _).
    pose proof (Qsum_abs_nonneg (take (length values_a `min` length values_b)
                                   (np_sort values_a))
                  (take (length values_a `min` length values_b) (np_sort values_b)))
      as Hsum.
    fold l in Hsum.
    destruct (length l) as [|n] eqn:El.
    + apply length_zero_iff_nil in El. rewrite El. change (Qsum []) with 0%Q.
      unfold Qdiv. rewrite Qmult_0_l. lra.
    + apply Qle_shift_div_l; [|lra].
      change 0%Q with (inject_Z 0). rewrite <- Zlt_Qlt. lia.
  - intros d d'. rewrite (orb_comm (length values_b =? 0)%nat).
    destruct (_ || _); [discriminate|]. intros [= <-] [= <-]. unfold q_mean.
    rewrite (Nat.min_comm (length values_b)).
    rewrite !length_zip_with. rewrite Qsum_abs_sym.
    rewrite (Nat.min_comm (length (take _ (np_sort values_b)))). reflexivity.
  - intros d. destruct (_ || _); [discriminate|]. intros [= <-]. unfold q_mean.
    rewrite Qsum_abs_self. unfold Qdiv. rewrite Qmult_0_l. reflexivity.
Qed.

(** ** The alias map *)

Lemma truthy_nonempty (s : string) : truthy (Some s) = true <-> s <> "".
Proof.
  cbn. rewrite negb_true_iff. apply String.eqb_neq.
Qed.

Lemma alias_step_ok (docs : list alias_doc) (doc : alias_doc) (c : string)
    (m : gmap string string) (name : option string) :
  (forall k v, m !! k = Some v -> alias_entry_ok docs k v) ->
  doc ∈ docs -> canonical doc = Some c -> c <> "" -> name ∈ doc_names doc ->
  forall k v, alias_step c m name !! k = Some v -> alias_entry_ok docs k v.
Proof.
  intros Hm Hdoc Hc Hne Hname k v. unfold alias_step.
  destruct (normalize_text name) as [n|] eqn:En; [|apply Hm].
  destruct (truthy (Some n)) eqn:Et; [|apply Hm].
  destruct (decide (n = k)) as [->|Hnk].
  - rewrite lookup_insert_eq. intros [= <-]. split; [apply truthy_nonempty; exact Et|].
    split; [exact Hne|]. exists doc, name. auto.
  - rewrite lookup_insert_ne by assumption. apply Hm.
Qed.

Lemma alias_names_ok (docs : list alias_doc) (doc : alias_doc) (c : string)
    (names : list (option string)) (m : gmap string string) :
  (forall k v, m !! k = Some v -> alias_entry_ok docs k v) ->
  doc ∈ docs -> canonical doc = Some c -> c <> "" ->
  (forall name, name ∈ names -> name ∈ doc_names doc) ->
  forall k v, fold_left (alias_step c) names m !! k = Some v -> alias_entry_ok docs k v.
Proof.
  intros Hm Hdoc Hc Hne. revert m Hm.
  induction names as [|name names IH]; intros m Hm Hnames; cbn [fold_left]; [exact Hm|].
  apply IH.
  - apply (alias_step_ok docs doc c m name Hm Hdoc Hc Hne).
    apply Hnames, list_elem_of_here.
  - intros n Hn. apply Hnames, list_elem_of_further. exact Hn.
Qed.

Lemma load_alias_doc_ok (docs : list alias_doc) (doc : alias_doc)
    (m : gmap string string) :
  (forall k v, m !! k = Some v -> alias_entry_ok docs k v) ->
  doc ∈ docs ->
  forall k v, load_alias_doc m doc !! k = Some v -> alias_entry_ok docs k v.
Proof.
  intros Hm Hdoc. unfold load_alias_doc.
  destruct (truthy (canonical doc)) eqn:Et; cbn [negb]; [|exact Hm].
  destruct (canonical doc) as [c|] eqn:Ec; [|discriminate Et].
  change (default "" (Some c)) with c.
  assert (Hne : c <> "") by (apply truthy_nonempty; exact Et).
  apply (alias_names_ok docs doc c); try assumption.
  - apply (alias_step_ok docs doc c m (Some c) Hm Hdoc Ec Hne).
    unfold doc_names. rewrite Ec. apply list_elem_of_here.
  - intros name Hname. unfold doc_names. apply list_elem_of_further. exact Hname.
Qed.

Lemma load_alias_fold_ok (docs ds : list alias_doc) (m : gmap string string) :
  (forall k v, m !! k = Some v -> alias_entry_ok docs k v) ->
  (forall d, d ∈ ds -> d ∈ docs) ->
  forall k v, fold_left load_alias_doc ds m !! k = Some v -> alias_entry_ok docs k v.
Proof.
  revert m. induction ds as [|d ds IH]; intros m Hm Hds; cbn [fold_left]; [exact Hm|].
  apply IH.
  - apply load_alias_doc_ok; [exact Hm|]. apply Hds, list_elem_of_here.
  - intros d' Hd'. apply Hds, list_elem_of_further. exact Hd'.
Qed.

Lemma load_alias_map_ok (docs : list alias_doc) (k v : string) :
  load_alias_map docs !! k = Some v -> alias_entry_ok docs k v.
Proof.
  apply load_alias_fold_ok; [|auto].
  intros k' v' H. rewrite lookup_empty in H. discriminate.
Qed.

(** X24. [load_alias_map] (lines 136-150) and its use by [resolve_structure]
    (lines 260-293): every entry of the alias map has a non-empty key and a
    non-empty value, the value is the canonical name of a document and the
    key is the normal form of the canonical name or of an alias of that
    document.  So a raw structure name whose normal form is a key of the
    alias map resolves to the value stored under it, whatever the
    vocabulary of the protocol holds. *)
Theorem load_alias_map_resolves (docs : list alias_doc) (raw k c : string)
    (protocol_structure_map : list (string * string)) :
  normalize_text (Some raw) = Some k ->
  load_alias_map docs !! k = Some c ->
  alias_entry_ok docs k c
  /\ resolve_structure (Some raw) (load_alias_map docs) protocol_structure_map
     = Ok (Some c).
Proof.
  intros Hn Hk. pose proof (load_alias_map_ok docs k c Hk) as Hok.
  split; [exact Hok|]. destruct Hok as (Hkne & Hcne & _).
  unfold resolve_structure.
  replace (truthy (Some raw)) with true
    by (symmetry; apply truthy_nonempty; apply (normalize_text_nonempty raw k Hn Hkne)).
  rewrite Hn. cbn [negb].
  replace (truthy (Some k)) with true by (symmetry; apply truthy_nonempty; exact Hkne).
  cbn [negb mbind option_bind]. rewrite Hk.
  replace (truthy (Some c)) with true by (symmetry; apply truthy_nonempty; exact Hcne).
  reflexivity.
Qed.

Lemma load_alias_map_resolves_example :
  alias_entry_ok sample_alias_docs "ptv high" "PTV_High"
  /\ resolve_structure (Some " PTV  High") (load_alias_map sample_alias_docs)
       sample_vocabulary = Ok (Some "PTV_High").
Proof.
  apply (load_alias_map_resolves sample_alias_docs " PTV  High" "ptv high" "PTV_High"
           sample_vocabulary).
  - vm_compute. reflexivity.
  - vm_compute. reflexivity.
Defined.

(** ** Step 1: the protocol of an evaluation *)

Lemma join_head_nonempty (sep w : chars) (ws : list chars) :
  w <> [] -> join sep (w :: ws) <> [].
Proof.
  intros Hw. destruct ws as [|w' ws]; [exact Hw|].
  rewrite join_cons2. destruct w; [congruence|discriminate].
Qed.

Lemma normalize_chars_nonempty (l : chars) : strip l <> [] -> normalize_chars l <> [].
Proof.
  intros Hs. unfold normalize_chars.
  rewrite split_ws_lower, split_ws_strip.
  assert (Hl : lstrip l <> []).
  { intros H. apply Hs. unfold strip. rewrite H. reflexivity. }
  pose proof (lstrip_head l) as Hhead.
  destruct (lstrip_split l) as (sp & Hsplit & Hsp).
  destruct (lstrip l) as [|c m]; [congruence|].
  assert (Hruns : split_ws l <> []).
  { rewrite Hsplit. unfold split_ws. rewrite runs_skip_prefix.
    - apply runs_head_keep. rewrite Hhead. reflexivity.
    - eapply List.Forall_impl; [|exact Hsp]. intros a Ha. cbn beta in *.
      rewrite Ha. reflexivity. }
  pose proof (runs_pieces (fun c => negb (is_space c)) l) as Hp.
  fold (split_ws l) in Hp.
  destruct (split_ws l) as [|w ws]; [congruence|].
  apply List.Forall_inv in Hp. destruct Hp as [Hw _].
  cbn [map]. apply join_head_nonempty. destruct w; [congruence|discriminate].
Qed.

Lemma stripped_name_shape (value : pyval) (r : string) :
  stripped_name value = Some r ->
  r <> "" /\ py_strip r = r /\ strip (to_chars r) <> [].
Proof.
  unfold stripped_name. destruct value as [|b|z|x|s|]; try discriminate.
  destruct (truthy (Some (py_strip s))) eqn:E; [|discriminate].
  intros [= <-]. apply truthy_nonempty in E.
  split; [exact E|]. split; [apply py_strip_idem|].
  unfold py_strip, to_chars, of_chars in *.
  rewrite list_ascii_of_string_of_list_ascii, strip_idem.
  intros H. apply E. rewrite H. reflexivity.
Qed.

(** X25. [resolve_protocol] and [normalize_protocol_name] of step 1 (lines
    24-27 and 48-59 of the loader): the canonical protocol is never empty;
    without a usable name it is [UNKNOWN] and the raw name is absent;
    otherwise the raw name is a non-empty string without surrounding
    whitespace, the standard protocol having precedence over the protocol
    name, its normal form is not empty, and the canonical protocol is the
    entry of the protocol map under that normal form, or the raw name when
    there is none. *)
Theorem resolve_protocol_spec (standard_protocol protocol_name : pyval)
    (protocol_map : gmap string string) :
  let resolved := resolve_protocol standard_protocol protocol_name protocol_map in
  resolved.1 <> ""
  /\ (resolved.2 = None -> resolved.1 = "UNKNOWN")
  /\ (forall s, stripped_name standard_protocol = Some s -> resolved.2 = Some s)
  /\ (forall r, resolved.2 = Some r ->
        r <> "" /\ py_strip r = r
        /\ exists k,
             normalize_protocol_name (Some r) = Some k /\ k <> ""
             /\ normalize_text (Some r) = Some k
             /\ resolved.1 = match protocol_map !! k with
                             | Some c => if String.eqb c "" then "UNKNOWN" else c
                             | None => r
                             end).
Proof.
  cbv zeta. unfold resolve_protocol. cbn [fst snd].
  set (raw := match stripped_name standard_protocol with
              | Some s => Some s
              | None => stripped_name protocol_name
              end).
  assert (Hraw : forall r, raw = Some r ->
                   r <> "" /\ py_strip r = r /\ strip (to_chars r) <> []).
  { intros r. subst raw.
    destruct (stripped_name standard_protocol) as [s|] eqn:Es.
    - intros [= <-]. apply (stripped_name_shape _ _ Es).
    - apply stripped_name_shape. }
  destruct raw as [r|] eqn:Eraw.
  - destruct (Hraw r eq_refl) as (Hne & Hstrip & Hchars).
    unfold normalize_protocol_name.
    replace (truthy (Some r)) with true by (symmetry; apply truthy_nonempty; exact Hne).
    cbn [negb]. change (default "" (Some r)) with r.
    set (k := of_chars (normalize_chars (to_chars r))).
    assert (Hk : k <> "").
    { subst k. intros H. apply (normalize_chars_nonempty _ Hchars).
      unfold of_chars in H.
      rewrite <- (list_ascii_of_string_of_list_ascii (normalize_chars (to_chars r))), H.
      reflexivity. }
    replace (truthy (Some k)) with true by (symmetry; apply truthy_nonempty; exact Hk).
    change (default "" (Some k)) with k.
    assert (Hcanon : default "UNKNOWN"
                       (py_or match protocol_map !! k with
                              | Some c => Some c
                              | None => Some r
                              end (Some "UNKNOWN"))
                     = match protocol_map !! k with
                       | Some c => if String.eqb c "" then "UNKNOWN" else c
                       | None => r
                       end).
    { unfold py_or. destruct (protocol_map !! k) as [c|].
      - cbn [truthy]. destruct (String.eqb c ""); reflexivity.
      - replace (truthy (Some r)) with true
          by (symmetry; apply truthy_nonempty; exact Hne).
        reflexivity. }
    rewrite Hcanon. split; [|split; [discriminate|split]].
    + destruct (protocol_map !! k) as [c|]; [|exact Hne].
      destruct (String.eqb_spec c ""); [discriminate|assumption].
    + intros s Hs. subst raw. rewrite Hs in Eraw. congruence.
    + intros r' [= <-]. split; [exact Hne|]. split; [exact Hstrip|].
      exists k. split; [|split; [exact Hk|split; reflexivity]].
      replace (truthy (Some r)) with true
        by (symmetry; apply truthy_nonempty; exact Hne).
      reflexivity.
  - cbn. split; [discriminate|]. split; [reflexivity|]. split; [|discriminate].
    intros s Hs. subst raw. rewrite Hs in Eraw. discriminate Eraw.
Qed.

(** ** The plan score as a weighted mean *)

Lemma Qsum_perm (l l' : list Q) : l ≡ₚ l' -> (Qsum l == Qsum l')%Q.
Proof.
  unfold Qsum. induction 1 as [|x l l' _ IH|x y l|l l' l'' _ IH1 _ IH2];
    cbn [fold_right].
  - reflexivity.
  - rewrite IH. reflexivity.
  - set (r := fold_right Qplus 0%Q l). clearbody r. lra.
  - rewrite IH1. exact IH2.
Qed.

Lemma compute_percentile_directed_mono (a : list Q) (d : string) (v v' : Q) :
  a <> [] -> sorted a -> at_least_as_good d v v' ->
  exists p p',
    compute_percentile v a d = PNum p /\ compute_percentile v' a d = PNum p'
    /\ (0 <= p <= p')%Q.
Proof.
  intros Ha Hs Hgood.
  rewrite !compute_percentile_unfold by assumption.
  do 2 eexists. split; [reflexivity|]. split; [reflexivity|].
  assert (Hn : 0 < Z.of_nat (length a)) by (destruct a; [congruence|cbn; lia]).
  pose proof (percentile_base_bounds (Z.of_nat (length a))
                (Z.of_nat (searchsorted_right a v)) Hn) as Hb.
  pose proof (percentile_base_bounds (Z.of_nat (length a))
                (Z.of_nat (searchsorted_right a v')) Hn) as Hb'.
  unfold at_least_as_good in Hgood. unfold directed.
  destruct (String.eqb d "lower").
  - pose proof (right_insertion_index_mono a v' v _ _
                  (searchsorted_right_correct a v' Hs)
                  (searchsorted_right_correct a v Hs) Hgood) as Hrank.
    pose proof (percentile_base_mono (Z.of_nat (length a))
                  (Z.of_nat (searchsorted_right a v'))
                  (Z.of_nat (searchsorted_right a v)) Hn ltac:(lia)) as Hm.
    set (b := percentile_base _ (Z.of_nat (searchsorted_right a v))) in *.
    set (b' := percentile_base _ (Z.of_nat (searchsorted_right a v'))) in *.
    clearbody b b'. lra.
  - pose proof (right_insertion_index_mono a v v' _ _
                  (searchsorted_right_correct a v Hs)
                  (searchsorted_right_correct a v' Hs) Hgood) as Hrank.
    pose proof (percentile_base_mono (Z.of_nat (length a))
                  (Z.of_nat (searchsorted_right a v))
                  (Z.of_nat (searchsorted_right a v')) Hn ltac:(lia)) as Hm.
    set (b := percentile_base _ (Z.of_nat (searchsorted_right a v))) in *.
    set (b' := percentile_base _ (Z.of_nat (searchsorted_right a v'))) in *.
    clearbody b b'. lra.
Qed.

Lemma score_loop_sums dists dirs ws items w0 s0 :
  reference_wf dists ws ->
  exists w s,
    fold_left (score_step dists dirs ws) items (w0, PNum s0) = (w, PNum s)
    /\ (w == w0 + Qsum (omap (usable_weight dists dirs ws) items))%Q
    /\ (s == s0 + Qsum (omap (usable_score dists dirs ws) items))%Q.
Proof.
  intros [Hd Hw]. revert w0 s0.
  induction items as [|kv items IH]; intros w0 s0.
  - exists w0, s0. cbn. split; [reflexivity|]. split; lra.
  - cbn [fold_left]. rewrite !omap_cons.
    unfold score_step at 2, usable_weight at 1, usable_score at 1.
    destruct (dists !! kv.1) as [dist|] eqn:Edist; [|apply IH].
    destruct (dirs !! kv.1) as [direction|]; [|apply IH].
    destruct (ws !! kv.1) as [weight|] eqn:Ew; [|apply IH].
    destruct (compute_percentile_bounds kv.2 dist direction (Hd _ _ Edist))
      as [p [Hp _]].
    rewrite Hp. cbn [fst snd pf_scale pf_add].
    destruct (IH (w0 + weight)%Q (s0 + weight * p)%Q) as (w & s & Hfold & Hws & Hss).
    exists w, s. split; [exact Hfold|]. unfold Qsum in *. cbn [fold_right].
    set (rw := fold_right Qplus 0%Q (omap (usable_weight dists dirs ws) items)) in *.
    set (rs := fold_right Qplus 0%Q (omap (usable_score dists dirs ws) items)) in *.
    clearbody rw rs. split; lra.
Qed.

Lemma compute_plan_score_mean plan dists dirs ws :
  reference_wf dists ws ->
  exists w s,
    (w == Qsum (omap (usable_weight dists dirs ws) (map_to_list plan)))%Q
    /\ (s == Qsum (omap (usable_score dists dirs ws) (map_to_list plan)))%Q
    /\ compute_plan_score plan dists dirs ws
       = if Qeq_bool w 0 then None else Some (PNum (s / w)).
Proof.
  intros Hwf. unfold compute_plan_score, score_loop.
  destruct (score_loop_sums dists dirs ws (map_to_list plan) 0 0 Hwf)
    as (w & s & Hfold & Hw & Hs).
  exists w, s. rewrite Hfold. cbn [pf_div].
  split; [rewrite Hw; lra|]. split; [rewrite Hs; lra|reflexivity].
Qed.

Lemma score_le_of_sums (w s w' s' : Q) :
  (0 <= w)%Q -> (w == w')%Q -> (s <= s')%Q ->
  score_le (if Qeq_bool w 0 then None else Some (PNum (s / w)))
           (if Qeq_bool w' 0 then None else Some (PNum (s' / w'))).
Proof.
  intros Hw Hww Hss.
  destruct (Qeq_bool w 0) eqn:E.
  - apply Qeq_bool_iff in E.
    assert (E' : Qeq_bool w' 0 = true) by (apply Qeq_bool_iff; lra).
    rewrite E'. exact I.
  - apply Qeq_bool_neq in E.
    assert (E' : Qeq_bool w' 0 = false).
    { destruct (Qeq_bool w' 0) eqn:E'; [|reflexivity].
      apply Qeq_bool_iff in E'. exfalso. apply E. lra. }
    rewrite E'. cbn. rewrite <- Hww.
    assert (Hpos : (0 < w)%Q) by (apply Qle_lt_or_eq in Hw; destruct Hw; [assumption|lra]).
    apply Qle_shift_div_l; [exact Hpos|].
    assert (Hs : (s / w * w == s)%Q) by (field; lra).
    rewrite Hs. exact Hss.
Qed.

(** X26. [compute_plan_score] (lines 485-504) with [compute_percentile]
    (lines 467-482) on a reference of the pipeline: replacing the achieved
    value of one constraint of a plan by a value at least as good for the
    direction of that constraint (not larger for [lower], not smaller
    otherwise) never lowers the plan score, and never changes whether the
    plan has a score. *)
Theorem plan_score_monotone (int_of_string : string -> option Z)
    (float_str : Q -> string) (constraints : list constraint)
    (column : list (option plan_vector)) (ref : reference)
    (plan : plan_vector) (k d : string) (v v' : Q) :
  protocol_reference int_of_string float_str constraints column = Ok ref ->
  plan !! k = Some v ->
  directions ref !! k = Some d ->
  at_least_as_good d v v' ->
  score_le
    (compute_plan_score plan (distributions ref) (directions ref) (weights ref))
    (compute_plan_score (<[k := v']> plan) (distributions ref) (directions ref)
       (weights ref)).
Proof.
  intros Href Hk Hd Hgood.
  pose proof (protocol_reference_wf _ _ _ _ _ Href) as Hwf.
  assert (Hsorted : forall key dist, distributions ref !! key = Some dist ->
                      dist <> [] /\ sorted dist).
  { apply protocol_reference_inv in Href. cbv zeta in Href. subst ref.
    intros key dist. apply build_reference_distributions. }
  set (dists := distributions ref) in *. set (dirs := directions ref) in *.
  set (ws := weights ref) in *. clearbody dists dirs ws. clear Href.
  destruct (compute_plan_score_mean plan dists dirs ws Hwf) as (w & s & Hw & Hs & ->).
  destruct (compute_plan_score_mean (<[k := v']> plan) dists dirs ws Hwf)
    as (w' & s' & Hw' & Hs' & ->).
  set (rest := map_to_list (delete k plan)).
  assert (P1 : map_to_list plan ≡ₚ (k, v) :: rest).
  { symmetry. apply map_to_list_delete. exact Hk. }
  assert (P2 : map_to_list (<[k := v']> plan) ≡ₚ (k, v') :: rest).
  { rewrite <- (insert_delete_eq plan). apply map_to_list_insert.
    apply lookup_delete_eq. }
  rewrite (Qsum_perm _ _ (omap_Permutation (usable_weight dists dirs ws) _ _ P1)) in Hw.
  rewrite (Qsum_perm _ _ (omap_Permutation (usable_weight dists dirs ws) _ _ P2)) in Hw'.
  rewrite (Qsum_perm _ _ (omap_Permutation (usable_score dists dirs ws) _ _ P1)) in Hs.
  rewrite (Qsum_perm _ _ (omap_Permutation (usable_score dists dirs ws) _ _ P2)) in Hs'.
  assert (Hnonneg : (0 <= w)%Q).
  { rewrite Hw. apply Qsum_nonneg.
    rewrite <- (omap_Permutation (usable_weight dists dirs ws) _ _ P1).
    apply usable_weights_positive. apply Hwf. }
  rewrite omap_cons in Hw, Hw', Hs, Hs'.
  unfold usable_weight at 1 in Hw. unfold usable_weight at 1 in Hw'.
  unfold usable_score at 1 in Hs. unfold usable_score at 1 in Hs'.
  cbn [fst snd] in Hw, Hw', Hs, Hs'. rewrite Hd in Hw, Hw', Hs, Hs'.
  apply score_le_of_sums; [exact Hnonneg| |].
  - rewrite Hw, Hw'. reflexivity.
  - destruct (dists !! k) as [dist|] eqn:Edist; [|rewrite Hs, Hs'; lra].
    destruct (ws !! k) as [weight|] eqn:Eweight; [|rewrite Hs, Hs'; lra].
    destruct (Hsorted k dist Edist) as [Hne Hsd].
    destruct (compute_percentile_directed_mono dist d v v' Hne Hsd Hgood)
      as (p & p' & Hp & Hp' & Hpp).
    rewrite Hp in Hs. rewrite Hp' in Hs'. rewrite Hs, Hs'.
    unfold Qsum. cbn [fold_right].
    set (r := fold_right Qplus 0%Q (omap (usable_score dists dirs ws) rest)).
    clearbody r.
    assert (Hpos : (0 < weight)%Q) by (destruct Hwf as [_ Hpw]; apply (Hpw k); exact Eweight).
    nra.
Qed.

Lemma plan_score_monotone_example :
  score_le
    (compute_plan_score sample_plan (distributions sample_reference)
       (directions sample_reference) (weights sample_reference))
    (compute_plan_score (<[sample_key := 60%Q]> sample_plan)
       (distributions sample_reference) (directions sample_reference)
       (weights sample_reference)).
Proof.
  apply (plan_score_monotone (fun _ => None) (fun _ => "") [sample_constraint]
           sample_column sample_reference sample_plan sample_key "higher" 55 60).
  - vm_compute. reflexivity.
  - vm_compute. reflexivity.
  - vm_compute. reflexivity.
  - vm_compute. discriminate.
Defined.
